(** * AnyChess: position codec, bot move selection and room synchronisation

    A shallow embedding of the logic of [pages/index.tsx] (position codec,
    en-passant detection, broadcast handler), of its earlier variant with
    [SANDBOX:] codes, and of [lib/bot.ts] ([pickBotMove]), followed by the
    properties proved about them.

    Conventions.  JavaScript strings are [string] (one [ascii] per
    character: the codec only ever produces and recognises ASCII), numbers
    are [Z], plain objects used as dictionaries are [gmap string string],
    [undefined] is [None], and a thrown exception is [Throw]. *)

From Stdlib Require Import ZArith Ascii String DecimalString Lia.
From stdpp Require Import gmap strings list fin_maps.

Local Open Scope Z_scope.

(** ** JavaScript primitives *)

Module JS.

(** A computation that either returns or throws. *)
Inductive Outcome (A : Type) : Type :=
  | Ret (a : A)
  | Throw (msg : string).
Arguments Ret {A} a.
Arguments Throw {A} msg.

(** [String(n)] and template interpolation of an integer. *)
Definition String_of_Z (z : Z) : string := NilZero.string_of_int (Z.to_int z).

(** Template interpolation of a [string | undefined]. *)
Definition tpl (v : option string) : string := default "undefined" v.

(** Truthiness of a [string | undefined]. *)
Definition truthy (v : option string) : bool :=
  match v with
  | Some s => bool_decide (s ≠ "")
  | None => false
  end.

(** [arr[i]] for a numeric index. *)
Definition at_index {A} (arr : list A) (i : Z) : option A :=
  if bool_decide (0 ≤ i) then arr !! Z.to_nat i else None.

(** [arr.indexOf(x)]. *)
Fixpoint indexOf (arr : list string) (x : string) : Z :=
  match arr with
  | [] => -1
  | y :: arr' =>
      if bool_decide (y = x) then 0
      else let i := indexOf arr' x in if bool_decide (i = -1) then -1 else i + 1
  end.

(** [s.split(sep)] for a one-character separator. *)
Fixpoint split (sep : ascii) (s : string) : list string :=
  match s with
  | EmptyString => [EmptyString]
  | String c s' =>
      if bool_decide (c = sep) then EmptyString :: split sep s'
      else match split sep s' with
           | h :: t => String c h :: t
           | [] => [String c EmptyString]
           end
  end.

(** [parts.join(sep)]. *)
Fixpoint join (sep : string) (parts : list string) : string :=
  match parts with
  | [] => ""
  | [p] => p
  | p :: rest => p +:+ sep +:+ join sep rest
  end.

(** [s.startsWith(p)]. *)
Definition startsWith (p s : string) : bool := String.prefix p s.

(** [s.includes(needle)]. *)
Fixpoint includes (needle s : string) : bool :=
  String.prefix needle s ||
  match s with
  | EmptyString => false
  | String _ s' => includes needle s'
  end.

(** [/\d/.test(ch)] on one character. *)
Definition is_digit (ch : ascii) : bool :=
  bool_decide (48 ≤ Z.of_nat (nat_of_ascii ch) ≤ 57).

(** [parseInt(ch, 10)] on one decimal digit. *)
Definition parseInt (ch : ascii) : Z := Z.of_nat (nat_of_ascii ch) - 48.

(** [toUpperCase] on ASCII text. *)
Definition upper_ascii (ch : ascii) : ascii :=
  let n := nat_of_ascii ch in
  if bool_decide (97 ≤ Z.of_nat n ≤ 122) then ascii_of_nat (n - 32) else ch.

Fixpoint toUpperCase (s : string) : string :=
  match s with
  | EmptyString => EmptyString
  | String c s' => String (upper_ascii c) (toUpperCase s')
  end.

(** ASCII white space, as removed by [trim]. *)
Definition is_white (ch : ascii) : bool :=
  let n := Z.of_nat (nat_of_ascii ch) in
  bool_decide (n = 32 ∨ 9 ≤ n ≤ 13).

(** Truthiness of [s.trim()]: some character is not white space. *)
Fixpoint trim_nonempty (s : string) : bool :=
  match s with
  | EmptyString => false
  | String c s' => negb (is_white c) || trim_nonempty s'
  end.

(** The names that every plain object inherits from [Object.prototype]:
    [o[name]] is defined for them although [o] does not own them, and the
    assignment [o["__proto__"] = s] stores nothing when [s] is a string. *)
Definition Object_prototype : list string :=
  ["constructor"; "__proto__"; "hasOwnProperty"; "isPrototypeOf";
   "propertyIsEnumerable"; "toLocaleString"; "toString"; "valueOf";
   "__defineGetter__"; "__defineSetter__"; "__lookupGetter__";
   "__lookupSetter__"].

End JS.
Import JS.

(** ** The position codec of [pages/index.tsx] *)

(** [type PosObj = Record<string, string>], e.g. [{ e4: 'wP', ... }]. *)
Abbreviation PosObj := (gmap string string).

(** The side to move, ['w' | 'b']. *)
Inductive Turn : Set := white | black.

Definition turn_str (t : Turn) : string :=
  match t with white => "w" | black => "b" end.

Global Instance Turn_eq_dec : EqDecision Turn.
Proof. solve_decision. Defined.

(** [{ K: boolean; Q: boolean; k: boolean; q: boolean }]. *)
Record CastlingFlags : Set :=
  { cK : bool; cQ : bool; ck : bool; cq : bool }.

Definition FILES : list string := ["a"; "b"; "c"; "d"; "e"; "f"; "g"; "h"].

Definition fileIndex (f : string) : Z := indexOf FILES f.

(** The name of the square on file index [f] and rank [r]:
    [`${FILES[f]}${r}`]. *)
Definition square (f r : Z) : string :=
  tpl (at_index FILES f) +:+ String_of_Z r.

Definition symbolMap : gmap string string :=
  list_to_map [("K","K"); ("Q","Q"); ("R","R"); ("B","B"); ("N","N"); ("P","P")].

Definition symbolToPiece (sym : string) : Outcome string :=
  let is_white := bool_decide (sym = toUpperCase sym) in
  let t := toUpperCase sym in
  let m := symbolMap !! t in
  if negb (truthy m) then Throw "bad symbol"
  else Ret ((if is_white then "w" else "b") +:+ tpl m).

Definition pieceMap : gmap string string :=
  list_to_map
    [("wK","K"); ("wQ","Q"); ("wR","R"); ("wB","B"); ("wN","N"); ("wP","P");
     ("bK","k"); ("bQ","q"); ("bR","r"); ("bB","b"); ("bN","n"); ("bP","p")].

(** [map[p]], as the table itself: a name of [Object_prototype], which the
    object inherits, is outside the table, and the statements that depend
    on what [pieceToSymbol] gives for a code outside the palette exclude
    those names. *)
Definition pieceToSymbol (p : string) : option string := pieceMap !! p.

(** *** [autoDetectEnPassant] *)

(** One iteration of the loop over [FILES] when White is to move. *)
Definition ep_white_step (obj : PosObj) (cands : list string) (f : string)
  : list string :=
  let sq := f +:+ "5" in
  if bool_decide (obj !! sq ≠ Some "bP") then cands else
  let idx := fileIndex f in
  let ep := f +:+ "6" in
  if truthy (obj !! ep) then cands else
  let left := if bool_decide (idx > 0)
              then tpl (at_index FILES (idx - 1)) +:+ "5" else "" in
  let right := if bool_decide (idx < 7)
               then tpl (at_index FILES (idx + 1)) +:+ "5" else "" in
  if (bool_decide (left ≠ "") && bool_decide (obj !! left = Some "wP"))
     || (bool_decide (right ≠ "") && bool_decide (obj !! right = Some "wP"))
  then cands ++ [ep] else cands.

(** One iteration of the loop over [FILES] when Black is to move. *)
Definition ep_black_step (obj : PosObj) (cands : list string) (f : string)
  : list string :=
  let sq := f +:+ "4" in
  if bool_decide (obj !! sq ≠ Some "wP") then cands else
  let idx := fileIndex f in
  let ep := f +:+ "3" in
  if truthy (obj !! ep) then cands else
  let left := if bool_decide (idx > 0)
              then tpl (at_index FILES (idx - 1)) +:+ "4" else "" in
  let right := if bool_decide (idx < 7)
               then tpl (at_index FILES (idx + 1)) +:+ "4" else "" in
  if (bool_decide (left ≠ "") && bool_decide (obj !! left = Some "bP"))
     || (bool_decide (right ≠ "") && bool_decide (obj !! right = Some "bP"))
  then cands ++ [ep] else cands.

Definition autoDetectEnPassant (obj : PosObj) (turn : Turn) : string :=
  let cands :=
    match turn with
    | white => fold_left (ep_white_step obj) FILES []
    | black => fold_left (ep_black_step obj) FILES []
    end in
  if bool_decide (length cands = 1%nat) then tpl (cands !! 0%nat) else "-".

(** *** [posObjToFen] *)

(** [{ fen: string | null, error?: string }]. *)
Record FenResult : Set := { fen : option string; error : option string }.

(** Loop control: fall through to the next iteration, or [return] from the
    enclosing function. *)
Inductive Ctl (S : Type) : Type :=
  | Next (s : S)
  | Return (r : FenResult).
Arguments Next {S} s.
Arguments Return {S} r.

Fixpoint for_loop {X S} (xs : list X) (body : S → X → Ctl S) (s : S) : Ctl S :=
  match xs with
  | [] => Next s
  | x :: xs' =>
      match body s x with
      | Next s' => for_loop xs' body s'
      | Return r => Return r
      end
  end.

(** The variables [placement], [wK], [bK] of [posObjToFen]. *)
Record Scan : Set := { placement : string; wK : Z; bK : Z }.

(** [if (empty) placement += String(empty)]. *)
Definition flush_empty (placement : string) (empty : Z) : string :=
  if bool_decide (empty ≠ 0) then placement +:+ String_of_Z empty else placement.

(** Body of the inner loop [for (let f = 0; f < 8; f++)]; the state is the
    scan together with the local counter [empty], which is reset to 0 once
    a piece is met. *)
Definition file_step (obj : PosObj) (r : Z) (st : Scan * Z) (f : Z)
  : Ctl (Scan * Z) :=
  let '(sc, empty) := st in
  let sq := square f r in
  let p := obj !! sq in
  if negb (truthy p) then Next (sc, empty + 1) else
  let p := tpl p in
  let pl := flush_empty (placement sc) empty in
  if (bool_decide (r = 1) || bool_decide (r = 8))
     && (bool_decide (p = "wP") || bool_decide (p = "bP"))
  then Return {| fen := None;
                 error := Some ("Pawns cannot be on rank " +:+ String_of_Z r
                                +:+ ". Promote them.") |}
  else
    let sym := pieceToSymbol p in
    if negb (truthy sym)
    then Return {| fen := None; error := Some ("Unknown piece: " +:+ p) |}
    else
      let sym := tpl sym in
      Next ({| placement := pl +:+ sym;
               wK := if bool_decide (sym = "K") then wK sc + 1 else wK sc;
               bK := if bool_decide (sym = "k") then bK sc + 1 else bK sc |},
            0).

(** Body of the outer loop [for (let r = 8; r >= 1; r--)]. *)
Definition rank_step (obj : PosObj) (sc : Scan) (r : Z) : Ctl Scan :=
  match for_loop (seqZ 0 8) (file_step obj r) (sc, 0) with
  | Return res => Return res
  | Next (sc, empty) =>
      let pl := flush_empty (placement sc) empty in
      let pl := if bool_decide (r ≠ 1) then pl +:+ "/" else pl in
      Next {| placement := pl; wK := wK sc; bK := bK sc |}
  end.

Definition RANKS : list Z := [8; 7; 6; 5; 4; 3; 2; 1].

Definition scan_board (obj : PosObj) : Ctl Scan :=
  for_loop RANKS (rank_step obj) {| placement := ""; wK := 0; bK := 0 |}.

Definition castle_field (castlingFlags : CastlingFlags) : string :=
  let s := (if cK castlingFlags then "K" else "") +:+
           (if cQ castlingFlags then "Q" else "") +:+
           (if ck castlingFlags then "k" else "") +:+
           (if cq castlingFlags then "q" else "") in
  if bool_decide (s ≠ "") then s else "-".

Definition posObjToFen (obj : PosObj) (turn : Turn) (castlingFlags : CastlingFlags)
  : FenResult :=
  match scan_board obj with
  | Return res => res
  | Next sc =>
      if bool_decide (wK sc ≠ 1) || bool_decide (bK sc ≠ 1)
      then {| fen := None;
              error := Some ("Place exactly one king per side (found W:"
                             +:+ String_of_Z (wK sc) +:+ ", B:"
                             +:+ String_of_Z (bK sc) +:+ ").") |}
      else
        let castle := castle_field castlingFlags in
        let ep := autoDetectEnPassant obj turn in
        {| fen := Some (placement sc +:+ " " +:+ turn_str turn +:+ " "
                        +:+ castle +:+ " " +:+ ep +:+ " 0 1");
           error := None |}
  end.

(** *** [fenToPosObj] *)

(** The loop variables [pos], [rank], [file]. *)
Definition DecState : Type := PosObj * Z * Z.

(** Body of [for (const ch of placement)]. *)
Definition dec_step (st : DecState) (ch : ascii) : Outcome DecState :=
  let '(pos, rank, file) := st in
  if bool_decide (ch = "/"%char) then Ret (pos, rank - 1, 0)
  else if is_digit ch then Ret (pos, rank, file + parseInt ch)
  else
    let sq := square file rank in
    match symbolToPiece (String ch EmptyString) with
    | Throw e => Throw e
    | Ret piece => Ret (<[sq := piece]> pos, rank, file + 1)
    end.

Fixpoint dec_chars (s : string) (st : DecState) : Outcome DecState :=
  match s with
  | EmptyString => Ret st
  | String ch s' =>
      match dec_step st ch with
      | Throw e => Throw e
      | Ret st' => dec_chars s' st'
      end
  end.

(** [{ pos, turn, castle }]. *)
Record Decoded : Type :=
  { pos : PosObj; turn : Turn; castle : CastlingFlags }.

(** [castle?.includes(x) || false]. *)
Definition has_right (castle : option string) (x : string) : bool :=
  match castle with
  | Some c => includes x c
  | None => false
  end.

Definition fenToPosObj (fen : string) : Outcome Decoded :=
  let parts := split " " fen in
  let placement := parts !! 0%nat in
  let turn := parts !! 1%nat in
  let castle := parts !! 2%nat in
  match placement with
  | None => Throw "TypeError: placement is not iterable"
  | Some placement =>
      match dec_chars placement (∅, 8, 0) with
      | Throw e => Throw e
      | Ret (pos, _, _) =>
          Ret {| pos := pos;
                 turn := if bool_decide (turn = Some "b") then black else white;
                 castle := {| cK := has_right castle "K";
                              cQ := has_right castle "Q";
                              ck := has_right castle "k";
                              cq := has_right castle "q" |} |}
      end
  end.

(** ** The rule oracle ([chess.js])

    The library is external to the repository: it is taken as a parameter.
    A position of the oracle is a value of [Position]; [load] is
    [new Chess(fen)], which throws on a string it rejects ([None]). *)

Inductive PieceType : Set := Pawn | Knight | Bishop | Rook | Queen | King.

(** A non-empty cell of [chess.board()]. *)
Record Cell : Set := { type : PieceType; color : Turn }.

Record Oracle : Type :=
  { Position : Type;
    Move : Type;
    load : string → option Position;
    legal_moves : Position → list Move;          (* [moves({verbose: true})] *)
    apply_move : Position → Move → Position;     (* position after [move(m)] *)
    board : Position → list (list (option Cell));
    turn_of : Position → Turn;
    isGameOver : Position → bool;
    isCheckmate : Position → bool;
    isStalemate : Position → bool }.

(** A [Chess] object: the current position and the stack that [undo] pops. *)
Record Chess (O : Oracle) : Type :=
  { current : Position O; history : list (Position O) }.
Arguments current {O} c.
Arguments history {O} c.

Definition new_Chess {O : Oracle} (fen : string) : option (Chess O) :=
  match load O fen with
  | Some p => Some {| current := p; history := [] |}
  | None => None
  end.

Definition move {O : Oracle} (chess : Chess O) (m : Move O) : Chess O :=
  {| current := apply_move O (current chess) m;
     history := current chess :: history chess |}.

Definition undo {O : Oracle} (chess : Chess O) : Chess O :=
  match history chess with
  | [] => chess
  | p :: h => {| current := p; history := h |}
  end.

(** ** The bot of [lib/bot.ts] *)

(** Piece values (centipawns). *)
Definition VAL (t : PieceType) : Z :=
  match t with
  | Pawn => 100 | Knight => 320 | Bishop => 330
  | Rook => 500 | Queen => 900 | King => 0
  end.

Definition score_cell (score : Z) (cell : option Cell) : Z :=
  match cell with
  | None => score
  | Some c => let s := VAL (type c) in
              score + (match color c with white => s | black => - s end)
  end.

Definition materialScore {O : Oracle} (chess : Chess O) : Z :=
  fold_left (fun score row => fold_left score_cell row score)
            (board O (current chess)) 0.

(** [[moves[i], moves[j]] = [moves[j], moves[i]]]; both indices are inside
    the array whenever the shuffle calls it. *)
Definition swap {A} (moves : list A) (i j : nat) : list A :=
  match moves !! i, moves !! j with
  | Some mi, Some mj => <[j := mi]> (<[i := mj]> moves)
  | _, _ => moves
  end.

Section Shuffle.
(** [floor_random n k] is [Math.floor(Math.random() * k)] at the [n]-th call
    of [Math.random]. *)
Variable floor_random : nat → Z → Z.

(** [for (let i = moves.length - 1; i > 0; i--)], the iteration at [i]
    being the [call]-th use of the random source. *)
Fixpoint shuffle_from {A} (i call : nat) (moves : list A) : list A :=
  match i with
  | O => moves
  | S i' =>
      let j := Z.to_nat (floor_random call (Z.of_nat i + 1)) in
      shuffle_from i' (S call) (swap moves i j)
  end.

Definition shuffle {A} (moves : list A) : list A :=
  shuffle_from (length moves - 1) 0 moves.

Definition sign (color : Turn) : Z :=
  match color with white => 1 | black => -1 end.

(** Body of [for (const m of moves)]: the state is the [Chess] object
    together with [best] and [bestScore]. *)
Definition eval_step {O : Oracle} (color : Turn) (base : Z)
    (st : Chess O * option (Move O) * Z) (m : Move O)
  : Chess O * option (Move O) * Z :=
  let '(chess, best, bestScore) := st in
  let chess := move chess m in
  let score := materialScore chess * sign color in
  let chess := undo chess in
  let delta := score - base * sign color in
  if bool_decide (delta > bestScore) then (chess, Some m, delta)
  else (chess, best, bestScore).

Definition pickBotMove {O : Oracle} (fen : string) (color : Turn)
  : Outcome (option (Move O)) :=
  match new_Chess fen with
  | None => Throw "Invalid FEN"
  | Some chess =>
      let moves := legal_moves O (current chess) in
      if bool_decide (length moves = 0%nat) then Ret None else
      let moves := shuffle moves in
      let base := materialScore chess in
      let '(_, best, _) :=
        fold_left (eval_step color base) moves (chess, None, -10 ^ 9) in
      Ret best
  end.
End Shuffle.

(** ** Room synchronisation *)

Inductive Mode : Set := strict | sandbox.

(** The payload of a ["move"] broadcast, [{ from, to, san, fen }]; [p_fen]
    is [None] when the field is missing or not a string. *)
Record Payload : Set :=
  { p_from : string; p_to : string; p_san : string; p_fen : option string }.

(** *** [pages/index.tsx]: one unified FEN *)

Module Page.
Section Page.
Context {O : Oracle}.

(** The state of [Home] that the handler and the FEN effect touch. *)
Record Peer : Type :=
  { mode : Mode; fen : string; chessRef : Chess O;
    turn : Turn; status : string }.

(** The handler registered by [createRoom] and by [joinRoom]. *)
Definition on_move (st : Peer) (payload : Payload) : Peer :=
  match p_fen payload with
  | None => st
  | Some rf =>
      match new_Chess rf with
      | Some c => {| mode := mode st; fen := rf; chessRef := c;
                     turn := turn st; status := status st |}
      | None => st
      end
  end.

(** The effect [useEffect(..., [fen])], "Keep chess.js in sync with FEN". *)
Definition fen_effect (st : Peer) : Peer :=
  match new_Chess (fen st) with
  | Some c =>
      let p := current c in
      {| mode := mode st; fen := fen st; chessRef := c;
         turn := turn_of O p;
         status :=
           if isGameOver O p then
             if isCheckmate O p
             then "Checkmate. " +:+
                  (match turn_of O p with white => "Black" | black => "White" end)
                  +:+ " wins."
             else if isStalemate O p then "Stalemate." else "Game over."
           else "" |}
  | None => {| mode := mode st; fen := fen st; chessRef := chessRef st;
               turn := turn st; status := "Invalid FEN." |}
  end.

(** Delivery of one message: the handler, then the effect when [fen]
    changed. *)
Definition deliver (st : Peer) (payload : Payload) : Peer :=
  let st' := on_move st payload in
  if bool_decide (fen st' = fen st) then st' else fen_effect st'.
End Page.
End Page.

(** *** The page variant with [SANDBOX:] codes *)

Module SandboxPage.
Section SandboxPage.
Context {O : Oracle}.

Record Peer : Type :=
  { mode : Mode; fen : string; sandboxPos : PosObj;
    turn : Turn; chessRef : Chess O }.

(** Body of [for (const chunk of rest.split(','))].  The assignment
    [obj[sq] = piece] stores nothing under the key [__proto__]: that key is
    the setter of [Object.prototype], which ignores a string. *)
Definition chunk_step (obj : PosObj) (chunk : string) : PosObj :=
  let parts := split ":" chunk in
  let piece := parts !! 0%nat in
  let sq := parts !! 1%nat in
  if truthy piece && truthy sq then
    if bool_decide (tpl sq = "__proto__") then obj
    else <[tpl sq := tpl piece]> obj
  else obj.

(** The [SANDBOX:turn:pieces] branch of [importFENText]. *)
Definition sandbox_turn (text : string) : Turn :=
  if bool_decide (split ":" text !! 1%nat = Some "b") then black else white.

Definition sandbox_pieces (text : string) : PosObj :=
  let rest := join ":" (drop 2 (split ":" text)) in
  if trim_nonempty rest then fold_left chunk_step (split "," rest) ∅ else ∅.

Definition importFENText (st : Peer) (text : string) : Peer :=
  if startsWith "SANDBOX:" text then
    {| mode := sandbox; fen := fen st; sandboxPos := sandbox_pieces text;
       turn := sandbox_turn text; chessRef := chessRef st |}
  else
    {| mode := strict; fen := text; sandboxPos := sandboxPos st;
       turn := turn st; chessRef := chessRef st |}.

(** The handler registered by [createRoom] and by [joinRoom]. *)
Definition on_move (st : Peer) (payload : Payload) : Peer :=
  match p_fen payload with
  | None => st
  | Some rf =>
      if startsWith "SANDBOX:" rf then importFENText st rf
      else match new_Chess rf with
           | Some c => {| mode := mode st; fen := rf;
                          sandboxPos := sandboxPos st;
                          turn := turn_of O (current c); chessRef := c |}
           | None => st
           end
  end.
End SandboxPage.
End SandboxPage.

(** ** Sanity checks on concrete positions *)

Definition kings_only : PosObj := <["d1" := "wK"]> (<["d8" := "bK"]> ∅).

Definition no_rights : CastlingFlags :=
  {| cK := false; cQ := false; ck := false; cq := false |}.

Example kings_only_fen :
  posObjToFen kings_only white no_rights
  = {| fen := Some "3k4/8/8/8/8/8/8/3K4 w - - 0 1"; error := None |}.
Proof. vm_compute. reflexivity. Qed.

Example kings_only_back :
  fenToPosObj "3k4/8/8/8/8/8/8/3K4 w - - 0 1"
  = Ret {| pos := kings_only; turn := white; castle := no_rights |}.
Proof. vm_compute. reflexivity. Qed.

(** ** Vocabulary of the specification *)

(** The twelve piece codes of the palette ([components/PiecePalette.tsx]). *)
Definition PIECES : list string :=
  ["wK"; "wQ"; "wR"; "wB"; "wN"; "wP"; "bK"; "bQ"; "bR"; "bB"; "bN"; "bP"].

Definition rank_squares (r : Z) : list string :=
  (fun f => square f r) <$> seqZ 0 8.

(** The 64 squares, in the order in which [posObjToFen] visits them. *)
Definition SQUARES : list string := r ← RANKS; rank_squares r.

(** An editor-form position: squares mapped to palette pieces. *)
Definition editor_form (obj : PosObj) : Prop :=
  map_Forall (fun sq p => sq ∈ SQUARES ∧ p ∈ PIECES) obj.

Definition is_pawn (p : string) : bool :=
  bool_decide (p = "wP") || bool_decide (p = "bP").

(** Some pawn stands on rank [r]. *)
Definition pawn_at (obj : PosObj) (sq : string) : Prop :=
  from_option is_pawn false (obj !! sq) = true.

Definition pawn_on_rank (obj : PosObj) (r : Z) : Prop :=
  Exists (pawn_at obj) (rank_squares r).

(** Number of squares of [sqs] on which [obj] has the piece [p]. *)
Definition count_piece (obj : PosObj) (p : string) (sqs : list string) : Z :=
  Z.of_nat (length (filter (fun sq => obj !! sq = Some p) sqs)).

(** A position accepted for serialisation. *)
Definition serialisable (obj : PosObj) : Prop :=
  editor_form obj
  ∧ ¬ pawn_on_rank obj 1 ∧ ¬ pawn_on_rank obj 8
  ∧ count_piece obj "wK" SQUARES = 1 ∧ count_piece obj "bK" SQUARES = 1.

Global Instance editor_form_dec obj : Decision (editor_form obj).
Proof. unfold editor_form. apply _. Defined.

Global Instance pawn_on_rank_dec obj r : Decision (pawn_on_rank obj r).
Proof. unfold pawn_on_rank, pawn_at. apply _. Defined.

Global Instance serialisable_dec obj : Decision (serialisable obj).
Proof. unfold serialisable. apply _. Defined.

(** The error messages of [posObjToFen]. *)
Definition pawn_error (r : Z) : FenResult :=
  {| fen := None;
     error := Some ("Pawns cannot be on rank " +:+ String_of_Z r
                    +:+ ". Promote them.") |}.

Definition king_error (w b : Z) : FenResult :=
  {| fen := None;
     error := Some ("Place exactly one king per side (found W:"
                    +:+ String_of_Z w +:+ ", B:" +:+ String_of_Z b +:+ ").") |}.

(** ** Strings: characters, concatenation and [split] *)

#[local] Arguments append !s1 s2 : simpl nomatch.

Fixpoint has_char (c : ascii) (s : string) : bool :=
  match s with
  | EmptyString => false
  | String c' s' => bool_decide (c' = c) || has_char c s'
  end.

Lemma app_assoc_s (a b c : string) : (a +:+ b) +:+ c = a +:+ (b +:+ c).
Proof. induction a as [|x a IH]; simpl; [done | by rewrite IH]. Qed.

Lemma app_empty_r (a : string) : a +:+ "" = a.
Proof. induction a as [|x a IH]; simpl; [done | by rewrite IH]. Qed.

Lemma has_char_app c a b : has_char c (a +:+ b) = has_char c a || has_char c b.
Proof.
  induction a as [|x a IH]; simpl; [done |].
  rewrite IH. by rewrite orb_assoc.
Qed.

Lemma split_no_sep sep s : has_char sep s = false → split sep s = [s].
Proof.
  induction s as [|c s IH]; simpl; [done |].
  intros [Hc Hs]%orb_false_elim.
  rewrite Hc. by rewrite (IH Hs).
Qed.

Lemma split_app_sep sep a b :
  has_char sep a = false →
  split sep (a +:+ String sep b) = a :: split sep b.
Proof.
  induction a as [|c a IH]; simpl.
  - intros _. by rewrite bool_decide_eq_true_2.
  - intros [Hc Ha]%orb_false_elim. rewrite Hc. by rewrite (IH Ha).
Qed.

Lemma split_nonempty sep s : split sep s ≠ [].
Proof.
  destruct s as [|c s]; simpl; [done |].
  case_bool_decide; [done |]. by destruct (split sep s).
Qed.

(** ** Loops *)

Lemma for_loop_app {X S} (body : S → X → Ctl S) xs ys s :
  for_loop (xs ++ ys) body s
  = match for_loop xs body s with
    | Next s' => for_loop ys body s'
    | Return r => Return r
    end.
Proof.
  revert s. induction xs as [|x xs IH]; intros s; simpl; [done |].
  destruct (body s x); [apply IH | done].
Qed.

(** Invariant rule: [I done s] relates the state to the prefix of the
    sequence already visited. *)
Lemma for_loop_inv {X S} (body : S → X → Ctl S) (I : list X → S → Prop) xs s :
  I [] s →
  (∀ done x rest s, xs = done ++ x :: rest → I done s →
     ∃ s', body s x = Next s' ∧ I (done ++ [x]) s') →
  ∃ s', for_loop xs body s = Next s' ∧ I xs s'.
Proof.
  intros H0 Hstep.
  cut (∀ todo done s, xs = done ++ todo → I done s →
         ∃ s', for_loop todo body s = Next s' ∧ I xs s').
  { intros Hgen. by apply (Hgen xs [] s). }
  clear s H0. induction todo as [|x todo IH]; intros done s Hxs HI; simpl.
  - exists s. split; [done |]. by rewrite Hxs, (right_id_L [] (++)).
  - destruct (Hstep done x todo s Hxs HI) as (s' & -> & HI').
    apply (IH (done ++ [x])); [| done].
    by rewrite <- app_assoc.
Qed.

Lemma dec_chars_app a b st :
  dec_chars (a +:+ b) st
  = match dec_chars a st with
    | Ret st' => dec_chars b st'
    | Throw e => Throw e
    end.
Proof.
  revert st. induction a as [|c a IH]; intros st; simpl; [done |].
  destruct (dec_step st c); [apply IH | done].
Qed.

(** ** The inner loop of [posObjToFen], one square at a time *)

Lemma PIECES_cases (P : string → Prop) :
  P "wK" → P "wQ" → P "wR" → P "wB" → P "wN" → P "wP" →
  P "bK" → P "bQ" → P "bR" → P "bB" → P "bN" → P "bP" →
  ∀ p, p ∈ PIECES → P p.
Proof.
  intros ? ? ? ? ? ? ? ? ? ? ? ? p Hp. unfold PIECES in Hp.
  repeat (apply elem_of_cons in Hp as [-> | Hp]; [assumption |]).
  by apply elem_of_nil in Hp.
Qed.

(** The placement symbol of a palette piece, as one character. *)
Definition symbol_char (p : string) : ascii :=
  match tpl (pieceToSymbol p) with
  | String c _ => c
  | EmptyString => "?"%char
  end.

Lemma pieceToSymbol_PIECES p :
  p ∈ PIECES → pieceToSymbol p = Some (String (symbol_char p) EmptyString).
Proof. revert p. apply PIECES_cases; reflexivity. Qed.

Lemma PIECES_nonempty p : p ∈ PIECES → p ≠ "".
Proof. revert p. apply PIECES_cases; discriminate. Qed.

Lemma symbol_char_decodes p :
  p ∈ PIECES →
  symbol_char p ≠ "/"%char ∧ is_digit (symbol_char p) = false
  ∧ symbol_char p ≠ " "%char
  ∧ symbolToPiece (String (symbol_char p) EmptyString) = Ret p.
Proof. revert p. apply PIECES_cases; by vm_compute. Qed.

Lemma file_step_empty obj r sc e f :
  obj !! square f r = None → file_step obj r (sc, e) f = Next (sc, e + 1).
Proof. intros H. unfold file_step. by rewrite H. Qed.

Definition back_rank (r : Z) : bool := bool_decide (r = 1) || bool_decide (r = 8).

Lemma file_step_piece obj r sc e f p :
  obj !! square f r = Some p → p ∈ PIECES →
  file_step obj r (sc, e) f
  = if back_rank r && is_pawn p then Return (pawn_error r)
    else Next ({| placement := flush_empty (placement sc) e
                                +:+ String (symbol_char p) EmptyString;
                  wK := if bool_decide (p = "wK") then wK sc + 1 else wK sc;
                  bK := if bool_decide (p = "bK") then bK sc + 1 else bK sc |}, 0).
Proof.
  intros H Hp. unfold file_step. rewrite H.
  assert (truthy (Some p) = true) as ->.
  { simpl. apply bool_decide_eq_true_2. by apply PIECES_nonempty. }
  cbn [negb tpl default id]. fold (back_rank r). fold (is_pawn p).
  destruct (back_rank r && is_pawn p); [done |].
  rewrite (pieceToSymbol_PIECES p Hp). cbn [truthy tpl default negb id].
  rewrite bool_decide_eq_true_2 by discriminate. cbn [negb].
  clear H. revert p Hp. apply PIECES_cases; reflexivity.
Qed.

(** ** The scan of a whole rank and of the whole board *)

(** [pos] is [obj] restricted to the squares [L]. *)
Definition agrees (obj pos : PosObj) (L : list string) : Prop :=
  (∀ key, key ∈ L → pos !! key = obj !! key)
  ∧ (∀ key v, pos !! key = Some v → key ∈ L).

(** What holds of the scan state when the squares [L] have been visited and
    the decoder, run on the placement written so far, stands at rank [rk]
    and file [fl]. *)
Record ScanInv (obj : PosObj) (L : list string) (sc : Scan) (rk fl : Z) : Prop :=
  { inv_dec : ∃ pos, dec_chars (placement sc) (∅, 8, 0) = Ret (pos, rk, fl)
                     ∧ agrees obj pos L;
    inv_wK : wK sc = count_piece obj "wK" L;
    inv_bK : bK sc = count_piece obj "bK" L;
    inv_nosp : has_char " " (placement sc) = false }.

(** Every piece of rank [r] is a palette piece that [posObjToFen] accepts
    there. *)
Definition row_ok (obj : PosObj) (r : Z) : Prop :=
  ∀ sq p, sq ∈ rank_squares r → obj !! sq = Some p →
          p ∈ PIECES ∧ back_rank r && is_pawn p = false.

Lemma digit_string e :
  1 ≤ e ≤ 8 →
  ∃ c, String_of_Z e = String c EmptyString
       ∧ c ≠ "/"%char ∧ c ≠ " "%char ∧ is_digit c = true ∧ parseInt c = e.
Proof.
  intros He.
  exists (ascii_of_nat (Z.to_nat (48 + e))).
  assert (e = 1 ∨ e = 2 ∨ e = 3 ∨ e = 4 ∨ e = 5 ∨ e = 6 ∨ e = 7 ∨ e = 8)
    as Hcases by lia.
  destruct Hcases as [-> | [-> | [-> | [-> | [-> | [-> | [-> | ->]]]]]]];
    vm_compute; (repeat split; congruence).
Qed.

Lemma flush_empty_dec pl e pos rk fl :
  0 ≤ e ≤ 8 →
  dec_chars pl (∅, 8, 0) = Ret (pos, rk, fl) →
  has_char " " pl = false →
  dec_chars (flush_empty pl e) (∅, 8, 0) = Ret (pos, rk, fl + e)
  ∧ has_char " " (flush_empty pl e) = false.
Proof.
  intros He Hdec Hsp. unfold flush_empty. case_bool_decide as Hz.
  - destruct (digit_string e) as (c & -> & Hslash & Hspace & Hdig & Hval); [lia |].
    rewrite dec_chars_app, Hdec, has_char_app, Hsp. simpl.
    unfold dec_step. rewrite bool_decide_eq_false_2 by done.
    rewrite Hdig, Hval. split; [done |].
    by rewrite bool_decide_eq_false_2.
  - assert (e = 0) as -> by lia. by rewrite Z.add_0_r.
Qed.

Lemma count_piece_snoc obj p L sq :
  count_piece obj p (L ++ [sq])
  = count_piece obj p L + (if bool_decide (obj !! sq = Some p) then 1 else 0).
Proof.
  unfold count_piece. rewrite filter_app, length_app.
  rewrite filter_cons, filter_nil.
  case_bool_decide as H; destruct (decide _); simpl; try lia; done.
Qed.

Lemma count_piece_app obj p L1 L2 :
  count_piece obj p (L1 ++ L2) = count_piece obj p L1 + count_piece obj p L2.
Proof. unfold count_piece. rewrite filter_app, length_app. lia. Qed.

Lemma agrees_snoc_empty obj pos L sq :
  agrees obj pos L → obj !! sq = None → agrees obj pos (L ++ [sq]).
Proof.
  intros [Hin Hout] Hsq. split.
  - intros key [Hk | Hk]%elem_of_app; [by apply Hin |].
    apply list_elem_of_singleton in Hk as ->. rewrite Hsq.
    destruct (pos !! sq) as [v|] eqn:Hv; [| done].
    rewrite <- Hv, <- Hsq. apply Hin. by eapply Hout.
  - intros key v Hv. apply elem_of_app. left. by eapply Hout.
Qed.

Lemma agrees_snoc_piece obj pos L sq p :
  agrees obj pos L → obj !! sq = Some p → agrees obj (<[sq := p]> pos) (L ++ [sq]).
Proof.
  intros [Hin Hout] Hsq. split.
  - intros key Hk. destruct (decide (sq = key)) as [<- | Hne].
    + by rewrite lookup_insert_eq.
    + rewrite lookup_insert_ne by done.
      apply elem_of_app in Hk as [Hk | Hk]; [by apply Hin |].
      apply list_elem_of_singleton in Hk. congruence.
  - intros key v. destruct (decide (sq = key)) as [<- | Hne].
    + intros _. apply elem_of_app. right. by apply list_elem_of_singleton.
    + rewrite lookup_insert_ne by done. intros Hv.
      apply elem_of_app. left. by eapply Hout.
Qed.

Lemma seqZ_split n done x rest :
  seqZ 0 n = done ++ x :: rest →
  x = Z.of_nat (length done) ∧ Z.of_nat (length done) < n.
Proof.
  intros H.
  assert (seqZ 0 n !! length done = Some x) as Hx.
  { rewrite H. by rewrite list_lookup_middle. }
  apply lookup_seqZ in Hx. lia.
Qed.

(** The inner loop over the files of rank [r], started with [empty = 0]
    after the squares [L0]. *)
Lemma file_loop_ok obj r L0 sc :
  row_ok obj r →
  ScanInv obj L0 sc r 0 →
  ∃ sc' e, for_loop (seqZ 0 8) (file_step obj r) (sc, 0) = Next (sc', e)
           ∧ 0 ≤ e ≤ 8
           ∧ ScanInv obj (L0 ++ rank_squares r) sc' r (8 - e).
Proof.
  intros Hok Hinv.
  pose (I := fun (done : list Z) (st : Scan * Z) =>
    0 ≤ st.2 ≤ Z.of_nat (length done)
    ∧ ScanInv obj (L0 ++ ((fun f => square f r) <$> done)) st.1 r
              (Z.of_nat (length done) - st.2)).
  destruct (for_loop_inv (file_step obj r) I (seqZ 0 8) (sc, 0))
    as ([sc' e] & Hloop & He & Hinv').
  - split; simpl; [lia |]. by rewrite (right_id_L [] (++)).
  - intros done x rest [sc1 e1] Hsplit [He1 Hinv1]; unfold I; cbn [fst snd] in *.
    destruct (seqZ_split _ _ _ _ Hsplit) as [-> Hlen].
    set (f := Z.of_nat (length done)) in *.
    assert (square f r ∈ rank_squares r) as Hsq.
    { unfold rank_squares. rewrite Hsplit, fmap_app, fmap_cons.
      apply elem_of_app. right. apply elem_of_cons. by left. }
    rewrite fmap_app, (assoc_L (++)), length_app. cbn [fmap list_fmap length].
    replace (Z.of_nat (length done + 1)) with (f + 1) by lia.
    destruct Hinv1 as [(pos & Hdec & Hagr) HwK HbK Hsp].
    destruct (obj !! square f r) as [p|] eqn:Hp.
    + destruct (Hok _ _ Hsq Hp) as [Hpiece Hback].
      rewrite (file_step_piece _ _ _ _ _ _ Hp Hpiece), Hback.
      eexists. split; [done |]. cbn [fst snd]. split; [lia |].
      destruct (flush_empty_dec _ e1 _ _ _ ltac:(lia) Hdec Hsp) as [Hdec' Hsp'].
      destruct (symbol_char_decodes p Hpiece) as (Hslash & Hdig & Hspace & Hsym).
      split; cbn [placement wK bK].
      * exists (<[square f r := p]> pos). split; [| by apply agrees_snoc_piece].
        rewrite dec_chars_app, Hdec'. cbn [dec_chars]. unfold dec_step.
        rewrite bool_decide_eq_false_2 by done. rewrite Hdig, Hsym.
        replace (f - e1 + e1) with f by lia.
        by replace (f + 1 - 0) with (f + 1) by lia.
      * rewrite count_piece_snoc, Hp, HwK.
        destruct (decide (p = "wK")) as [-> | Hne];
          [rewrite !bool_decide_eq_true_2 by done
          | rewrite !bool_decide_eq_false_2 by congruence]; lia.
      * rewrite count_piece_snoc, Hp, HbK.
        destruct (decide (p = "bK")) as [-> | Hne];
          [rewrite !bool_decide_eq_true_2 by done
          | rewrite !bool_decide_eq_false_2 by congruence]; lia.
      * rewrite has_char_app, Hsp'. cbn [has_char orb].
        by rewrite bool_decide_eq_false_2.
    + rewrite (file_step_empty _ _ _ _ _ Hp).
      eexists. split; [done |]. cbn [fst snd]. split; [lia |].
      split; cbn [placement wK bK].
      * exists pos. split; [| by apply agrees_snoc_empty].
        rewrite Hdec. by replace (f + 1 - (e1 + 1)) with (f - e1) by lia.
      * rewrite count_piece_snoc, Hp, HwK. rewrite bool_decide_eq_false_2 by done. lia.
      * rewrite count_piece_snoc, Hp, HbK. rewrite bool_decide_eq_false_2 by done. lia.
      * done.
  - exists sc', e. cbn [fst snd] in He, Hinv'.
    assert (Z.of_nat (length (seqZ 0 8)) = 8) as Hlen8 by done.
    split; [done |]. split; [lia |].
    replace (L0 ++ rank_squares r)
      with (L0 ++ ((fun f => square f r) <$> seqZ 0 8)) by done.
    replace (8 - e) with (Z.of_nat (length (seqZ 0 8)) - e) by done.
    exact Hinv'.
Qed.

Lemma rank_step_ok obj r L0 sc :
  row_ok obj r →
  ScanInv obj L0 sc r 0 →
  ∃ sc', rank_step obj sc r = Next sc'
         ∧ ScanInv obj (L0 ++ rank_squares r) sc'
                   (if bool_decide (r ≠ 1) then r - 1 else r)
                   (if bool_decide (r ≠ 1) then 0 else 8).
Proof.
  intros Hok Hinv.
  destruct (file_loop_ok obj r L0 sc Hok Hinv) as (sc' & e & Hloop & He & Hinv').
  unfold rank_step. rewrite Hloop.
  destruct Hinv' as [(pos & Hdec & Hagr) HwK HbK Hsp].
  destruct (flush_empty_dec _ e _ _ _ ltac:(lia) Hdec Hsp) as [Hdec' Hsp'].
  replace (8 - e + e) with 8 in Hdec' by lia.
  eexists. split; [done |].
  split; cbn [placement wK bK]; try done.
  - exists pos. split; [| done].
    case_bool_decide; [| done].
    rewrite dec_chars_app, Hdec'. reflexivity.
  - case_bool_decide; [| done].
    by rewrite has_char_app, Hsp'.
Qed.

Definition board_ok (obj : PosObj) : Prop := ∀ r, r ∈ RANKS → row_ok obj r.

(** The scan of an acceptable board runs to its end; the placement it wrote
    decodes to the position it read, contains no space, and the two counters
    hold the numbers of kings. *)
Lemma scan_board_ok obj :
  board_ok obj →
  ∃ sc, scan_board obj = Next sc ∧ ScanInv obj SQUARES sc 1 8.
Proof.
  intros Hok. unfold scan_board, RANKS. cbn [for_loop].
  assert (ScanInv obj [] {| placement := ""; wK := 0; bK := 0 |} 8 0) as H0.
  { split; try done. exists ∅. split; [done |]. split.
    - by intros key Hk%elem_of_nil.
    - intros key v Hv. by rewrite lookup_empty in Hv. }
  destruct (rank_step_ok obj 8 _ _ (Hok 8 ltac:(repeat constructor)) H0) as (s8 & -> & H8).
  destruct (rank_step_ok obj 7 _ _ (Hok 7 ltac:(repeat constructor)) H8) as (s7 & -> & H7).
  destruct (rank_step_ok obj 6 _ _ (Hok 6 ltac:(repeat constructor)) H7) as (s6 & -> & H6).
  destruct (rank_step_ok obj 5 _ _ (Hok 5 ltac:(repeat constructor)) H6) as (s5 & -> & H5).
  destruct (rank_step_ok obj 4 _ _ (Hok 4 ltac:(repeat constructor)) H5) as (s4 & -> & H4).
  destruct (rank_step_ok obj 3 _ _ (Hok 3 ltac:(repeat constructor)) H4) as (s3 & -> & H3).
  destruct (rank_step_ok obj 2 _ _ (Hok 2 ltac:(repeat constructor)) H3) as (s2 & -> & H2).
  destruct (rank_step_ok obj 1 _ _ (Hok 1 ltac:(repeat constructor)) H2) as (s1 & -> & H1).
  exists s1. split; [done |].
  assert (SQUARES
          = (((((((nil ++ rank_squares 8) ++ rank_squares 7) ++ rank_squares 6)
                ++ rank_squares 5) ++ rank_squares 4) ++ rank_squares 3)
              ++ rank_squares 2) ++ rank_squares 1) as -> by (by vm_compute).
  exact H1.
Qed.

Lemma editor_form_board_ok obj :
  editor_form obj → ¬ pawn_on_rank obj 1 → ¬ pawn_on_rank obj 8 → board_ok obj.
Proof.
  intros Hed H1 H8 r _ sq p Hsq Hp.
  split; [by apply (Hed sq p) |].
  destruct (is_pawn p) eqn:Hpawn; [| by rewrite andb_false_r].
  rewrite andb_true_r. unfold back_rank.
  apply orb_false_intro; apply bool_decide_eq_false_2; intros ->.
  - apply H1. apply Exists_exists. exists sq. split; [done |].
    unfold pawn_at. by rewrite Hp.
  - apply H8. apply Exists_exists. exists sq. split; [done |].
    unfold pawn_at. by rewrite Hp.
Qed.

Lemma agrees_all obj pos :
  editor_form obj → agrees obj pos SQUARES → pos = obj.
Proof.
  intros Hed [Hin Hout]. apply map_eq. intros key.
  destruct (obj !! key) as [p|] eqn:Hp.
  - rewrite <- Hp. apply Hin. by apply (Hed key p).
  - destruct (pos !! key) as [v|] eqn:Hv; [| done].
    rewrite <- Hv, <- Hp. apply Hin. by eapply Hout.
Qed.

(** ** The en-passant field contains no space *)

Lemma ep_white_step_nosp obj cands f :
  f ∈ FILES → Forall (fun c => has_char " " c = false) cands →
  Forall (fun c => has_char " " c = false) (ep_white_step obj cands f).
Proof.
  intros Hf Hc. unfold ep_white_step.
  repeat case_match; try done.
  all: apply Forall_app; split; [done |]; apply Forall_singleton.
  all: unfold FILES in Hf.
  all: repeat (apply elem_of_cons in Hf as [-> | Hf]; [reflexivity |]).
  all: by apply elem_of_nil in Hf.
Qed.

Lemma ep_black_step_nosp obj cands f :
  f ∈ FILES → Forall (fun c => has_char " " c = false) cands →
  Forall (fun c => has_char " " c = false) (ep_black_step obj cands f).
Proof.
  intros Hf Hc. unfold ep_black_step.
  repeat case_match; try done.
  all: apply Forall_app; split; [done |]; apply Forall_singleton.
  all: unfold FILES in Hf.
  all: repeat (apply elem_of_cons in Hf as [-> | Hf]; [reflexivity |]).
  all: by apply elem_of_nil in Hf.
Qed.

Lemma fold_left_Forall {A B} (P : list B → Prop) (step : list B → A → list B) xs :
  (∀ acc x, x ∈ xs → P acc → P (step acc x)) →
  ∀ acc, P acc → P (fold_left step xs acc).
Proof.
  induction xs as [|x xs IH]; intros Hstep acc Hacc; simpl; [done |].
  apply IH.
  - intros acc' y Hy. apply Hstep. by apply list_elem_of_further.
  - apply Hstep; [apply list_elem_of_here | done].
Qed.

Lemma autoDetectEnPassant_nosp obj t :
  has_char " " (autoDetectEnPassant obj t) = false.
Proof.
  unfold autoDetectEnPassant.
  set (cands := match t with
                | white => fold_left (ep_white_step obj) FILES []
                | black => fold_left (ep_black_step obj) FILES []
                end).
  assert (Forall (fun c => has_char " " c = false) cands) as Hall.
  { unfold cands. destruct t.
    - apply (fold_left_Forall (Forall _)); [| constructor].
      intros acc x Hx. by apply ep_white_step_nosp.
    - apply (fold_left_Forall (Forall _)); [| constructor].
      intros acc x Hx. by apply ep_black_step_nosp. }
  case_bool_decide; [| done].
  destruct cands as [|c cands']; [done |].
  simpl. by apply Forall_cons in Hall as [Hc _].
Qed.

Lemma castle_field_nosp flags : has_char " " (castle_field flags) = false.
Proof. by destruct flags as [[] [] [] []]. Qed.

Lemma castle_field_decodes flags :
  {| cK := has_right (Some (castle_field flags)) "K";
     cQ := has_right (Some (castle_field flags)) "Q";
     ck := has_right (Some (castle_field flags)) "k";
     cq := has_right (Some (castle_field flags)) "q" |} = flags.
Proof. by destruct flags as [[] [] [] []]. Qed.

(** ** What [posObjToFen] returns on an accepted board *)

Lemma posObjToFen_fields obj t flags :
  board_ok obj →
  count_piece obj "wK" SQUARES = 1 → count_piece obj "bK" SQUARES = 1 →
  ∃ sc s,
    scan_board obj = Next sc
    ∧ ScanInv obj SQUARES sc 1 8
    ∧ posObjToFen obj t flags = {| fen := Some s; error := None |}
    ∧ split " " s = [placement sc; turn_str t; castle_field flags;
                     autoDetectEnPassant obj t; "0"; "1"].
Proof.
  intros Hok HwK HbK.
  destruct (scan_board_ok obj Hok) as (sc & Hscan & Hinv).
  exists sc. eexists. split; [done |]. split; [done |].
  unfold posObjToFen. rewrite Hscan.
  rewrite (inv_wK _ _ _ _ _ Hinv), (inv_bK _ _ _ _ _ Hinv), HwK, HbK.
  cbn [orb bool_decide decide_rel]. split; [reflexivity |].
  change (" " +:+ ?x) with (String " " x).
  rewrite (split_app_sep _ _ _ (inv_nosp _ _ _ _ _ Hinv)).
  assert (has_char " " (turn_str t) = false) as Ht by (by destruct t).
  change (" " +:+ ?x) with (String " " x).
  rewrite (split_app_sep _ _ _ Ht).
  change (" " +:+ ?x) with (String " " x).
  rewrite (split_app_sep _ _ _ (castle_field_nosp flags)).
  change (" 0 1") with (String " " "0 1").
  rewrite (split_app_sep _ _ _ (autoDetectEnPassant_nosp obj t)).
  reflexivity.
Qed.

(** ** The codec: accepted positions *)

(** C1. Round trip of the position codec: a position in editor form with one
    king per colour and no pawn on ranks 1 and 8 is encoded by [posObjToFen]
    into a string that [fenToPosObj] decodes to the same piece mapping, the
    same side to move and the same four castling flags. *)
Theorem C1_codec_round_trip obj t flags :
  serialisable obj →
  ∃ s, posObjToFen obj t flags = {| fen := Some s; error := None |}
       ∧ fenToPosObj s = Ret {| pos := obj; turn := t; castle := flags |}.
Proof.
  intros (Hed & H1 & H8 & HwK & HbK).
  destruct (posObjToFen_fields obj t flags
              (editor_form_board_ok obj Hed H1 H8) HwK HbK)
    as (sc & s & _ & Hinv & Hfen & Hsplit).
  exists s. split; [done |].
  unfold fenToPosObj. rewrite Hsplit. cbn [lookup list_lookup].
  destruct Hinv as [(pos' & -> & Hagr) _ _ _].
  rewrite (agrees_all obj pos' Hed Hagr), castle_field_decodes.
  by destruct t.
Qed.

Lemma kings_only_serialisable : serialisable kings_only.
Proof. compute_done. Qed.

Lemma C1_codec_round_trip_witness :
  serialisable kings_only
  ∧ ∃ s, posObjToFen kings_only white no_rights
         = {| fen := Some s; error := None |}
         ∧ fenToPosObj s
           = Ret {| pos := kings_only; turn := white; castle := no_rights |}.
Proof.
  split; [compute_done |].
  apply (C1_codec_round_trip kings_only white no_rights).
  compute_done.
Defined.

(** The castling field as the specification words it: the rights that are
    set, in the order K, Q, k, q, or a dash when none is. *)
Definition castle_spec (flags : CastlingFlags) : string :=
  let rights := [(cK flags, "K"); (cQ flags, "Q"); (ck flags, "k"); (cq flags, "q")] in
  let present := snd <$> filter (fun x => fst x = true) rights in
  match present with
  | [] => "-"
  | _ => foldr append "" present
  end.

Lemma castle_field_spec flags : castle_field flags = castle_spec flags.
Proof. by destruct flags as [[] [] [] []]. Qed.

(** C9. Tail fields of the encoded string: for a position accepted for
    serialisation, the string returned by [posObjToFen] has six
    space-separated fields; the third is the concatenation, in the order
    K, Q, k, q, of exactly the rights that are set (a dash when none is), the
    fifth is "0" and the sixth is "1". *)
Theorem C9_tail_fields obj t flags :
  serialisable obj →
  ∃ s, posObjToFen obj t flags = {| fen := Some s; error := None |}
       ∧ length (split " " s) = 6%nat
       ∧ split " " s !! 2%nat = Some (castle_spec flags)
       ∧ split " " s !! 4%nat = Some "0"
       ∧ split " " s !! 5%nat = Some "1".
Proof.
  intros (Hed & H1 & H8 & HwK & HbK).
  destruct (posObjToFen_fields obj t flags
              (editor_form_board_ok obj Hed H1 H8) HwK HbK)
    as (sc & s & _ & _ & Hfen & Hsplit).
  exists s. rewrite Hsplit, <- castle_field_spec. by repeat split.
Qed.

Definition all_rights : CastlingFlags :=
  {| cK := true; cQ := true; ck := true; cq := true |}.

Lemma C9_tail_fields_witness :
  serialisable kings_only
  ∧ ∃ s, posObjToFen kings_only black all_rights
         = {| fen := Some s; error := None |}
         ∧ length (split " " s) = 6%nat
         ∧ split " " s !! 2%nat = Some (castle_spec all_rights)
         ∧ split " " s !! 4%nat = Some "0"
         ∧ split " " s !! 5%nat = Some "1".
Proof.
  split; [compute_done |].
  apply (C9_tail_fields kings_only black all_rights).
  compute_done.
Defined.

(** ** The codec: rejected positions *)

(** C4. King-count rejection: on a position in editor form without pawns on
    ranks 1 and 8 whose numbers of white and black kings are not both 1, the
    placement scan of [posObjToFen] runs to its end and the function then
    returns a null [fen] with the error that reports both counts. *)
Theorem C4_king_count_rejected obj t flags :
  editor_form obj → ¬ pawn_on_rank obj 1 → ¬ pawn_on_rank obj 8 →
  ¬ (count_piece obj "wK" SQUARES = 1 ∧ count_piece obj "bK" SQUARES = 1) →
  (∃ sc, scan_board obj = Next sc)
  ∧ posObjToFen obj t flags
    = king_error (count_piece obj "wK" SQUARES) (count_piece obj "bK" SQUARES)
  ∧ fen (posObjToFen obj t flags) = None.
Proof.
  intros Hed H1 H8 Hk.
  destruct (scan_board_ok obj (editor_form_board_ok obj Hed H1 H8))
    as (sc & Hscan & Hinv).
  split; [by exists sc |].
  unfold posObjToFen. rewrite Hscan.
  rewrite (inv_wK _ _ _ _ _ Hinv), (inv_bK _ _ _ _ _ Hinv).
  assert (bool_decide (count_piece obj "wK" SQUARES ≠ 1)
          || bool_decide (count_piece obj "bK" SQUARES ≠ 1) = true) as ->.
  { apply orb_true_iff. rewrite !bool_decide_eq_true.
    destruct (decide (count_piece obj "wK" SQUARES = 1)); [| by left].
    destruct (decide (count_piece obj "bK" SQUARES = 1)); [| by right].
    by destruct Hk. }
  done.
Qed.

Definition two_white_kings : PosObj :=
  <["d1" := "wK"]> (<["e1" := "wK"]> (<["d8" := "bK"]> ∅)).

Lemma C4_king_count_rejected_witness :
  (∃ sc, scan_board two_white_kings = Next sc)
  ∧ posObjToFen two_white_kings white no_rights = king_error 2 1
  ∧ fen (posObjToFen two_white_kings white no_rights) = None.
Proof.
  apply (C4_king_count_rejected two_white_kings white no_rights);
    compute_done.
Defined.

Example two_white_kings_message :
  error (posObjToFen two_white_kings white no_rights)
  = Some "Place exactly one king per side (found W:2, B:1).".
Proof. by vm_compute. Qed.

Lemma file_loop_pawn obj r fs st :
  back_rank r = true →
  (∀ f p, f ∈ fs → obj !! square f r = Some p → p ∈ PIECES) →
  Exists (fun f => pawn_at obj (square f r)) fs →
  for_loop fs (file_step obj r) st = Return (pawn_error r).
Proof.
  intros Hback. revert st.
  induction fs as [|f fs IH]; intros [sc e] Hvalid Hex; [by inversion Hex |].
  assert (∀ f' p, f' ∈ fs → obj !! square f' r = Some p → p ∈ PIECES) as Hvalid'.
  { intros f' p Hf'. apply Hvalid. by apply list_elem_of_further. }
  cbn [for_loop].
  destruct (obj !! square f r) as [p|] eqn:Hp.
  - rewrite (file_step_piece _ _ _ _ _ _ Hp
               (Hvalid f p (list_elem_of_here _ _) Hp)), Hback.
    cbn [andb]. destruct (is_pawn p) eqn:Hpawn; [done |].
    apply IH; [done |].
    apply Exists_cons in Hex as [Hex | Hex]; [| done].
    unfold pawn_at in Hex. rewrite Hp in Hex. simpl in Hex. congruence.
  - rewrite (file_step_empty _ _ _ _ _ Hp).
    apply IH; [done |].
    apply Exists_cons in Hex as [Hex | Hex]; [| done].
    unfold pawn_at in Hex. by rewrite Hp in Hex.
Qed.

Lemma rank_step_pawn obj r sc :
  editor_form obj → back_rank r = true → pawn_on_rank obj r →
  rank_step obj sc r = Return (pawn_error r).
Proof.
  intros Hed Hback Hpawn. unfold rank_step.
  rewrite (file_loop_pawn obj r (seqZ 0 8) (sc, 0) Hback); [done | |].
  - intros f p _ Hp. by apply (Hed _ _ Hp).
  - unfold pawn_on_rank, rank_squares in Hpawn.
    apply Exists_exists in Hpawn as (sq & Hsq & Hpawn).
    apply list_elem_of_fmap in Hsq as (f & -> & Hf).
    apply Exists_exists. by exists f.
Qed.

Lemma editor_form_row_ok obj r :
  editor_form obj → ¬ pawn_on_rank obj r → row_ok obj r.
Proof.
  intros Hed Hno sq p Hsq Hp. split; [by apply (Hed sq p) |].
  destruct (is_pawn p) eqn:Hpawn; [| by rewrite andb_false_r].
  exfalso. apply Hno. apply Exists_exists. exists sq. split; [done |].
  unfold pawn_at. by rewrite Hp.
Qed.

Lemma middle_row_ok obj r :
  editor_form obj → back_rank r = false → row_ok obj r.
Proof.
  intros Hed Hback sq p Hsq Hp. split; [by apply (Hed sq p) |].
  by rewrite Hback.
Qed.

(** C3. Pawn on a back rank: on a position in editor form with a pawn (of
    either colour) on rank 1 or rank 8, [posObjToFen] returns a null [fen]
    with the error naming a rank that holds a pawn: rank 8 when some pawn is
    on rank 8, rank 1 otherwise.  No string is produced. *)
Theorem C3_pawn_on_back_rank_rejected obj t flags :
  editor_form obj →
  pawn_on_rank obj 1 ∨ pawn_on_rank obj 8 →
  ∃ r, (r = 1 ∨ r = 8) ∧ pawn_on_rank obj r
       ∧ (pawn_on_rank obj 8 → r = 8)
       ∧ posObjToFen obj t flags = pawn_error r
       ∧ fen (posObjToFen obj t flags) = None.
Proof.
  intros Hed Hpawn.
  assert (ScanInv obj [] {| placement := ""; wK := 0; bK := 0 |} 8 0) as H0.
  { split; try done. exists ∅. split; [done |]. split.
    - by intros key Hk%elem_of_nil.
    - intros key v Hv. by rewrite lookup_empty in Hv. }
  destruct (decide (pawn_on_rank obj 8)) as [H8 | H8].
  - exists 8. split; [by right |]. split; [done |]. split; [done |].
    unfold posObjToFen, scan_board, RANKS. cbn [for_loop].
    by rewrite (rank_step_pawn obj 8 _ Hed eq_refl H8).
  - destruct Hpawn as [H1 | ?]; [| done].
    exists 1. split; [by left |]. split; [done |]. split; [done |].
    unfold posObjToFen, scan_board, RANKS. cbn [for_loop].
    destruct (rank_step_ok obj 8 _ _ (editor_form_row_ok obj 8 Hed H8) H0)
      as (s8 & -> & I8).
    destruct (rank_step_ok obj 7 _ _ (middle_row_ok obj 7 Hed eq_refl) I8)
      as (s7 & -> & I7).
    destruct (rank_step_ok obj 6 _ _ (middle_row_ok obj 6 Hed eq_refl) I7)
      as (s6 & -> & I6).
    destruct (rank_step_ok obj 5 _ _ (middle_row_ok obj 5 Hed eq_refl) I6)
      as (s5 & -> & I5).
    destruct (rank_step_ok obj 4 _ _ (middle_row_ok obj 4 Hed eq_refl) I5)
      as (s4 & -> & I4).
    destruct (rank_step_ok obj 3 _ _ (middle_row_ok obj 3 Hed eq_refl) I4)
      as (s3 & -> & I3).
    destruct (rank_step_ok obj 2 _ _ (middle_row_ok obj 2 Hed eq_refl) I3)
      as (s2 & -> & I2).
    by rewrite (rank_step_pawn obj 1 _ Hed eq_refl H1).
Qed.

Definition pawn_on_a8 : PosObj :=
  <["a8" := "wP"]> (<["d1" := "wK"]> (<["d8" := "bK"]> ∅)).

Lemma C3_pawn_on_back_rank_rejected_witness :
  editor_form pawn_on_a8
  ∧ pawn_on_rank pawn_on_a8 8
  ∧ ∃ r, (r = 1 ∨ r = 8) ∧ pawn_on_rank pawn_on_a8 r
         ∧ (pawn_on_rank pawn_on_a8 8 → r = 8)
         ∧ posObjToFen pawn_on_a8 white no_rights = pawn_error r
         ∧ fen (posObjToFen pawn_on_a8 white no_rights) = None.
Proof.
  split; [compute_done |]. split; [compute_done |].
  apply (C3_pawn_on_back_rank_rejected pawn_on_a8 white no_rights).
  - compute_done.
  - right. compute_done.
Defined.

Example pawn_on_a8_message :
  posObjToFen pawn_on_a8 white no_rights
  = {| fen := None; error := Some "Pawns cannot be on rank 8. Promote them." |}.
Proof. by vm_compute. Qed.

(** ** The decoder *)

Lemma symbolToPiece_throws sym e : symbolToPiece sym = Throw e → e = "bad symbol".
Proof. unfold symbolToPiece. case_match; congruence. Qed.

Lemma dec_step_throws st ch e : dec_step st ch = Throw e → e = "bad symbol".
Proof.
  destruct st as [[pos rank] file]. unfold dec_step.
  repeat case_match; try congruence.
  intros [= <-]. by eapply symbolToPiece_throws.
Qed.

Lemma dec_chars_throws s st e : dec_chars s st = Throw e → e = "bad symbol".
Proof.
  revert st. induction s as [|ch s IH]; intros st; simpl; [done |].
  destruct (dec_step st ch) as [st'|e'] eqn:Hstep.
  - apply IH.
  - intros [= <-]. by eapply dec_step_throws.
Qed.

Lemma includes_char ch s : includes (String ch EmptyString) s = has_char ch s.
Proof.
  induction s as [|c s IH]; [done |].
  cbn [includes has_char String.prefix]. rewrite IH.
  destruct (ascii_dec ch c) as [-> | Hne].
  - rewrite bool_decide_eq_true_2 by done. by destruct s.
  - rewrite bool_decide_eq_false_2 by congruence. done.
Qed.

(** The fields of the input, as the specification counts them. *)
Definition fields (s : string) : list string := split " " s.

(** Whether a castling field (possibly missing) contains the letter [x]. *)
Definition field_has (field : option string) (x : ascii) : bool :=
  from_option (has_char x) false field.

(** What [fenToPosObj] computes, in terms of the first three fields. *)
Lemma fenToPosObj_unfold s :
  ∃ placement,
    fields s !! 0%nat = Some placement
    ∧ fenToPosObj s
      = match dec_chars placement (∅, 8, 0) with
        | Throw e => Throw e
        | Ret (pos, _, _) =>
            Ret {| pos := pos;
                   turn := if bool_decide (fields s !! 1%nat = Some "b")
                           then black else white;
                   castle := {| cK := field_has (fields s !! 2%nat) "K";
                                cQ := field_has (fields s !! 2%nat) "Q";
                                ck := field_has (fields s !! 2%nat) "k";
                                cq := field_has (fields s !! 2%nat) "q" |} |}
        end.
Proof.
  unfold fenToPosObj, fields.
  destruct (split " " s) as [|placement rest] eqn:Hsplit;
    [by apply split_nonempty in Hsplit |].
  exists placement. split; [done |]. cbn [lookup list_lookup].
  destruct (dec_chars placement (∅, 8, 0)) as [[[pos' rk] fl]|e]; [| done].
  do 2 f_equal. unfold has_right, field_has.
  destruct (rest !! 1%nat) as [c|]; [| done]. simpl.
  by rewrite !includes_char.
Qed.

(** The claim as the specification words it does not hold: a string with a
    single field is decoded, not rejected. *)
Lemma C7_counterexample :
  (length (fields "8/8/8/8/8/8/8/8") < 3)%nat
  ∧ fenToPosObj "8/8/8/8/8/8/8/8"
    = Ret {| pos := ∅; turn := white; castle := no_rights |}.
Proof. split; [vm_compute; lia | by vm_compute]. Qed.

(** C7 (amended). No input is rejected for having fewer than three fields:
    on such an input [fenToPosObj] decodes the placement in the first field
    and returns it with the side to move read from the second field when
    there is one (white unless it is "b") and with all four castling flags
    false; it throws only when the placement has an unrecognised symbol, and
    then the error is 'bad symbol'. *)
Theorem C7_short_input_is_decoded s :
  (length (fields s) < 3)%nat →
  ∃ placement,
    fields s !! 0%nat = Some placement
    ∧ match dec_chars placement (∅, 8, 0) with
      | Throw e => fenToPosObj s = Throw e ∧ e = "bad symbol"
      | Ret (pos, _, _) =>
          fenToPosObj s
          = Ret {| pos := pos;
                   turn := if bool_decide (fields s !! 1%nat = Some "b")
                           then black else white;
                   castle := no_rights |}
      end.
Proof.
  intros Hlen.
  destruct (fenToPosObj_unfold s) as (placement & Hp & Hfen).
  exists placement. split; [done |]. rewrite Hfen.
  assert (fields s !! 2%nat = None) as ->.
  { apply lookup_ge_None. lia. }
  destruct (dec_chars placement (∅, 8, 0)) as [[[pos' rk] fl]|e] eqn:Hdec;
    [done |].
  split; [done |]. by eapply dec_chars_throws.
Qed.

Lemma C7_short_input_is_decoded_witness :
  (length (fields "3k4/8/8/8/8/8/8/3K4 b") < 3)%nat
  ∧ fenToPosObj "3k4/8/8/8/8/8/8/3K4 b"
    = Ret {| pos := kings_only; turn := black; castle := no_rights |}.
Proof.
  split; [vm_compute; lia |].
  destruct (C7_short_input_is_decoded "3k4/8/8/8/8/8/8/3K4 b")
    as (placement & Hp & Hfen); [vm_compute; lia |].
  injection Hp as <-. exact Hfen.
Defined.

(** C10. Decode defaults: [fenToPosObj] fails only on an unrecognised
    placement symbol in the first field, whatever follows it; when it
    returns, the side to move is black exactly when the second field is "b"
    (white for any other or a missing field), and each castling flag is set
    exactly when its letter occurs in the third field, so that a missing or
    rights-free third field gives four false flags. *)
Theorem C10_decode_defaults s :
  (∃ placement,
     fields s !! 0%nat = Some placement
     ∧ ∀ e, fenToPosObj s = Throw e ↔ dec_chars placement (∅, 8, 0) = Throw e)
  ∧ ∀ d, fenToPosObj s = Ret d →
      (turn d = black ↔ fields s !! 1%nat = Some "b")
      ∧ (turn d = white ↔ fields s !! 1%nat ≠ Some "b")
      ∧ castle d = {| cK := field_has (fields s !! 2%nat) "K";
                      cQ := field_has (fields s !! 2%nat) "Q";
                      ck := field_has (fields s !! 2%nat) "k";
                      cq := field_has (fields s !! 2%nat) "q" |}
      ∧ (fields s !! 2%nat = None → castle d = no_rights)
      ∧ (∀ c, fields s !! 2%nat = Some c →
              has_char "K" c = false → has_char "Q" c = false →
              has_char "k" c = false → has_char "q" c = false →
              castle d = no_rights).
Proof.
  destruct (fenToPosObj_unfold s) as (placement & Hp & Hfen).
  split.
  - exists placement. split; [done |]. intros e. rewrite Hfen.
    destruct (dec_chars placement (∅, 8, 0)) as [[[pos' rk] fl]|e'].
    + split; discriminate.
    + split; by intros [= ->].
  - intros d Hd. rewrite Hfen in Hd.
    destruct (dec_chars placement (∅, 8, 0)) as [[[pos' rk] fl]|e']; [| done].
    injection Hd as <-. cbn [turn castle].
    split; [| split; [| split; [done |]]].
    + case_bool_decide; split; congruence.
    + case_bool_decide; split; congruence.
    + split.
      * by intros ->.
      * intros c -> HK HQ Hk Hq. cbn [field_has from_option].
        by rewrite HK, HQ, Hk, Hq.
Qed.

Example decode_defaults_bare_placement :
  fenToPosObj "3k4/8/8/8/8/8/8/3K4"
  = Ret {| pos := kings_only; turn := white; castle := no_rights |}.
Proof. by vm_compute. Qed.

Example decode_defaults_odd_fields :
  fenToPosObj "3k4/8/8/8/8/8/8/3K4 black -"
  = Ret {| pos := kings_only; turn := white; castle := no_rights |}.
Proof. by vm_compute. Qed.

(** ** En-passant detection *)

(** The rank on which a capturable enemy pawn stands, the rank of the target
    square behind it, and the two pawn codes, for the side to move. *)
Definition capture_rank (t : Turn) : Z := match t with white => 5 | black => 4 end.
Definition target_rank (t : Turn) : Z := match t with white => 6 | black => 3 end.
Definition own_pawn (t : Turn) : string := match t with white => "wP" | black => "bP" end.
Definition enemy_pawn (t : Turn) : string := match t with white => "bP" | black => "wP" end.

(** File [f] yields a candidate: an enemy pawn on the capture rank, the
    square ahead of it empty, and a friendly pawn on an adjacent file of the
    capture rank. *)
Definition ep_eligible (obj : PosObj) (t : Turn) (f : Z) : Prop :=
  obj !! square f (capture_rank t) = Some (enemy_pawn t)
  ∧ obj !! square f (target_rank t) = None
  ∧ ((0 < f ∧ obj !! square (f - 1) (capture_rank t) = Some (own_pawn t))
     ∨ (f < 7 ∧ obj !! square (f + 1) (capture_rank t) = Some (own_pawn t))).

Global Instance ep_eligible_dec obj t f : Decision (ep_eligible obj t f).
Proof. unfold ep_eligible. apply _. Defined.

(** The candidate target squares, one per eligible file, in file order. *)
Definition ep_candidates (obj : PosObj) (t : Turn) : list string :=
  (fun f => square f (target_rank t)) <$> filter (ep_eligible obj t) (seqZ 0 8).

(** The en-passant field as the specification words it. *)
Definition ep_spec (obj : PosObj) (t : Turn) : string :=
  match ep_candidates obj t with
  | [c] => c
  | _ => "-"
  end.

Definition nonempty_values (obj : PosObj) : Prop :=
  map_Forall (fun _ p => p ≠ "") obj.

Lemma truthy_lookup obj sq :
  nonempty_values obj → truthy (obj !! sq) = bool_decide (obj !! sq ≠ None).
Proof.
  intros Hne. destruct (obj !! sq) as [p|] eqn:Hp; simpl; [| done].
  by rewrite bool_decide_eq_true_2 by (by eapply Hne).
Qed.

Lemma fileIndex_FILES i : 0 ≤ i < 8 → fileIndex (tpl (at_index FILES i)) = i.
Proof.
  intros Hi.
  assert (i = 0 ∨ i = 1 ∨ i = 2 ∨ i = 3 ∨ i = 4 ∨ i = 5 ∨ i = 6 ∨ i = 7)
    as Hcases by lia.
  destruct Hcases as [-> | [-> | [-> | [-> | [-> | [-> | [-> | ->]]]]]]];
    by vm_compute.
Qed.

Lemma append_nonempty a b : b ≠ "" → a +:+ b ≠ "".
Proof. intros Hb. destruct a; [done | discriminate]. Qed.

(** One iteration of either loop, for the file of index [i]. *)
Lemma ep_white_step_spec obj cands i :
  nonempty_values obj → 0 ≤ i < 8 →
  ep_white_step obj cands (tpl (at_index FILES i))
  = cands ++ (if decide (ep_eligible obj white i) then [square i 6] else []).
Proof.
  intros Hne Hi. unfold ep_white_step. cbv zeta.
  rewrite (fileIndex_FILES i Hi), (truthy_lookup _ _ Hne).
  assert (∀ (c : bool) (x : string),
            bool_decide ((if c then x +:+ "5" else "") ≠ "") = c) as Hside.
  { intros [] x; [| done]. apply bool_decide_eq_true_2.
    by apply append_nonempty. }
  rewrite !Hside.
  change (tpl (at_index FILES i) +:+ "5") with (square i 5).
  change (tpl (at_index FILES i) +:+ "6") with (square i 6).
  change (tpl (at_index FILES (i - 1)) +:+ "5") with (square (i - 1) 5).
  change (tpl (at_index FILES (i + 1)) +:+ "5") with (square (i + 1) 5).
  unfold ep_eligible, capture_rank, target_rank, own_pawn, enemy_pawn.
  rewrite (bool_decide_ext (i > 0) (0 < i)) by lia.
  rewrite !bool_decide_not.
  repeat case_bool_decide; case_decide;
    cbn [andb orb negb]; rewrite ?(right_id_L [] (++));
    first [done | exfalso; tauto].
Qed.

Lemma ep_black_step_spec obj cands i :
  nonempty_values obj → 0 ≤ i < 8 →
  ep_black_step obj cands (tpl (at_index FILES i))
  = cands ++ (if decide (ep_eligible obj black i) then [square i 3] else []).
Proof.
  intros Hne Hi. unfold ep_black_step. cbv zeta.
  rewrite (fileIndex_FILES i Hi), (truthy_lookup _ _ Hne).
  assert (∀ (c : bool) (x : string),
            bool_decide ((if c then x +:+ "4" else "") ≠ "") = c) as Hside.
  { intros [] x; [| done]. apply bool_decide_eq_true_2.
    by apply append_nonempty. }
  rewrite !Hside.
  change (tpl (at_index FILES i) +:+ "4") with (square i 4).
  change (tpl (at_index FILES i) +:+ "3") with (square i 3).
  change (tpl (at_index FILES (i - 1)) +:+ "4") with (square (i - 1) 4).
  change (tpl (at_index FILES (i + 1)) +:+ "4") with (square (i + 1) 4).
  unfold ep_eligible, capture_rank, target_rank, own_pawn, enemy_pawn.
  rewrite (bool_decide_ext (i > 0) (0 < i)) by lia.
  rewrite !bool_decide_not.
  repeat case_bool_decide; case_decide;
    cbn [andb orb negb]; rewrite ?(right_id_L [] (++));
    first [done | exfalso; tauto].
Qed.

Definition ep_step (obj : PosObj) (t : Turn) : list string → string → list string :=
  match t with
  | white => ep_white_step obj
  | black => ep_black_step obj
  end.

Lemma ep_loop_spec obj t l cands :
  nonempty_values obj → Forall (fun i => 0 ≤ i < 8) l →
  fold_left (ep_step obj t) ((fun i => tpl (at_index FILES i)) <$> l) cands
  = cands ++ ((fun f => square f (target_rank t))
                <$> filter (ep_eligible obj t) l).
Proof.
  intros Hne Hl. revert cands.
  induction Hl as [|i l Hi Hl IH]; intros cands.
  - rewrite filter_nil. cbn [fmap list_fmap fold_left].
    by rewrite (right_id_L [] (++)).
  - cbn [fmap list_fmap fold_left]. rewrite IH, filter_cons.
    destruct t; cbn [ep_step target_rank].
    + rewrite (ep_white_step_spec obj cands i Hne Hi).
      destruct (decide (ep_eligible obj white i));
        by rewrite <- (assoc_L (++)).
    + rewrite (ep_black_step_spec obj cands i Hne Hi).
      destruct (decide (ep_eligible obj black i));
        by rewrite <- (assoc_L (++)).
Qed.

Lemma autoDetectEnPassant_spec obj t :
  nonempty_values obj → autoDetectEnPassant obj t = ep_spec obj t.
Proof.
  intros Hne. unfold autoDetectEnPassant, ep_spec, ep_candidates.
  assert (match t with
          | white => fold_left (ep_white_step obj) FILES []
          | black => fold_left (ep_black_step obj) FILES []
          end
          = (fun f => square f (target_rank t))
              <$> filter (ep_eligible obj t) (seqZ 0 8)) as ->.
  { change FILES with ((fun i => tpl (at_index FILES i)) <$> seqZ 0 8).
    transitivity (fold_left (ep_step obj t)
                    ((fun i => tpl (at_index FILES i)) <$> seqZ 0 8) []);
      [by destruct t |].
    apply (ep_loop_spec obj t (seqZ 0 8) [] Hne).
    apply Forall_forall. intros i Hin.
      apply list_elem_of_lookup in Hin as [n Hn].
      apply lookup_seqZ in Hn. lia. }
  destruct (_ <$> _) as [|c [|c' rest]]; done.
Qed.

Lemma editor_form_nonempty obj : editor_form obj → nonempty_values obj.
Proof.
  intros Hed sq p Hp. apply PIECES_nonempty. by apply (Hed sq p).
Qed.

(** Black pawn on e5, white pawns on d5 and f5, e6 empty. *)
Definition ep_single : PosObj :=
  <["e5" := "bP"]> (<["d5" := "wP"]> (<["f5" := "wP"]> ∅)).

(** The same with a second eligible black pawn, on c5 (d5 is white, c6 is
    empty). *)
Definition ep_double : PosObj := <["c5" := "bP"]> ep_single.

(** C2. En-passant inference: for a position in editor form,
    [autoDetectEnPassant] collects one candidate target square per file on
    which an enemy pawn stands on the capture rank (5 for White to move, 4
    for Black) with the square ahead of it empty and a friendly pawn on an
    adjacent file of that rank; it returns the candidate when there is
    exactly one and "-" otherwise.  So two eligible files always give "-";
    with a black pawn on e5 and white pawns on d5 and f5, White to move, the
    result is "e6", and with a second eligible black pawn on c5 it is "-". *)
Theorem C2_en_passant_inference :
  (∀ obj t, editor_form obj → autoDetectEnPassant obj t = ep_spec obj t)
  ∧ (∀ obj t f g, editor_form obj →
       0 ≤ f < 8 → 0 ≤ g < 8 → f ≠ g →
       ep_eligible obj t f → ep_eligible obj t g →
       autoDetectEnPassant obj t = "-")
  ∧ autoDetectEnPassant ep_single white = "e6"
  ∧ autoDetectEnPassant ep_double white = "-".
Proof.
  split; [| split; [| split; by vm_compute]].
  - intros obj t Hed. by apply autoDetectEnPassant_spec, editor_form_nonempty.
  - intros obj t f g Hed Hf Hg Hfg Ef Eg.
    rewrite (autoDetectEnPassant_spec obj t (editor_form_nonempty obj Hed)).
    unfold ep_spec, ep_candidates.
    assert (∀ x, 0 ≤ x < 8 → ep_eligible obj t x →
                 x ∈ filter (ep_eligible obj t) (seqZ 0 8)) as Hin.
    { intros x Hx Ex. apply list_elem_of_filter. split; [done |].
      apply list_elem_of_lookup. exists (Z.to_nat x).
      apply lookup_seqZ. lia. }
    pose proof (Hin f Hf Ef) as Hf'. pose proof (Hin g Hg Eg) as Hg'.
    destruct (filter (ep_eligible obj t) (seqZ 0 8)) as [|a [|a' rest]];
      [by apply elem_of_nil in Hf' | | done].
    apply list_elem_of_singleton in Hf', Hg'. congruence.
Qed.

Lemma C2_en_passant_inference_witness :
  editor_form ep_single
  ∧ autoDetectEnPassant ep_single white = ep_spec ep_single white
  ∧ ep_spec ep_single white = "e6".
Proof.
  split; [compute_done |]. split; [| by vm_compute].
  apply (proj1 C2_en_passant_inference ep_single white). compute_done.
Defined.

(** ** The bot *)

(** The material score as the specification words it: the sum over the
    occupied squares of the value of the piece, counted positive for White
    and negative for Black. *)
Definition cell_value (cell : option Cell) : Z :=
  match cell with
  | None => 0
  | Some c => sign (color c) * VAL (type c)
  end.

Definition material (b : list (list (option Cell))) : Z :=
  foldr Z.add 0 (cell_value <$> concat b).

(** The material delta of a move, oriented for [c]. *)
Definition material_delta (O : Oracle) (c : Turn) (p : Position O) (m : Move O) : Z :=
  sign c * material (board O (apply_move O p m)) - sign c * material (board O p).

(** [chess.board()] is an 8 by 8 array. *)
Definition board_8x8 (b : list (list (option Cell))) : Prop :=
  length b = 8%nat ∧ Forall (fun row => length row = 8%nat) b.

(** [Math.random()] lies in [0, 1). *)
Definition random_in_range (floor_random : nat → Z → Z) : Prop :=
  ∀ n k, 0 < k → 0 ≤ floor_random n k < k.

Lemma score_row_sum row score :
  fold_left score_cell row score = score + foldr Z.add 0 (cell_value <$> row).
Proof.
  revert score. induction row as [|cell row IH]; intros score;
    cbn [fold_left fmap list_fmap foldr]; [lia |].
  rewrite IH. unfold score_cell, cell_value, sign.
  destruct cell as [[ty []]|]; cbn [color type]; lia.
Qed.

Lemma materialScore_material {O : Oracle} (chess : Chess O) :
  materialScore chess = material (board O (current chess)).
Proof.
  unfold materialScore, material.
  generalize (board O (current chess)). intros b.
  cut (∀ acc, fold_left (fun score row => fold_left score_cell row score) b acc
              = acc + foldr Z.add 0 (cell_value <$> concat b)).
  { intros H. by rewrite H. }
  induction b as [|row b IH]; intros acc;
    cbn [fold_left concat fmap list_fmap foldr]; [lia |].
  rewrite IH, score_row_sum, fmap_app, foldr_app.
  generalize (foldr Z.add 0 (cell_value <$> concat b)). intros rest.
  induction row as [|cell row IHr]; cbn [fmap list_fmap foldr]; lia.
Qed.

Lemma cell_value_bound cell : -900 ≤ cell_value cell ≤ 900.
Proof. by destruct cell as [[[] []]|]. Qed.

Lemma row_sum_bound (row : list (option Cell)) :
  - 900 * Z.of_nat (length row) ≤ foldr Z.add 0 (cell_value <$> row)
  ≤ 900 * Z.of_nat (length row).
Proof.
  induction row as [|cell row IH]; cbn [fmap list_fmap foldr length]; [lia |].
  pose proof (cell_value_bound cell). lia.
Qed.

Lemma material_bound b : board_8x8 b → -57600 ≤ material b ≤ 57600.
Proof.
  intros [Hlen Hrows]. unfold material.
  pose proof (row_sum_bound (concat b)) as Hb.
  assert (length (concat b) = (length b * 8)%nat) as Hc; [| lia].
  clear Hlen Hb. induction Hrows as [|row b Hrow _ IH]; [done |].
  cbn [concat length]. rewrite length_app, IH, Hrow. lia.
Qed.

Lemma undo_move {O : Oracle} (chess : Chess O) m : undo (move chess m) = chess.
Proof. by destruct chess. Qed.

(** The shuffle only reorders. *)
Lemma elem_of_swap {A} (l : list A) i j x : x ∈ swap l i j ↔ x ∈ l.
Proof.
  unfold swap.
  destruct (l !! i) as [mi|] eqn:Hi; [| done].
  destruct (l !! j) as [mj|] eqn:Hj; [| done].
  assert (i < length l)%nat as Hli by (by eapply lookup_lt_Some).
  assert (j < length l)%nat as Hlj by (by eapply lookup_lt_Some).
  rewrite !list_elem_of_lookup. split.
  - intros [n Hn].
    destruct (decide (n = j)) as [-> | Hnj].
    + rewrite list_lookup_insert_eq in Hn by (by rewrite length_insert).
      injection Hn as <-. by exists i.
    + rewrite list_lookup_insert_ne in Hn by done.
      destruct (decide (n = i)) as [-> | Hni].
      * rewrite list_lookup_insert_eq in Hn by done.
        injection Hn as <-. by exists j.
      * rewrite list_lookup_insert_ne in Hn by done. by exists n.
  - intros [n Hn].
    destruct (decide (n = i)) as [-> | Hni].
    + exists j. rewrite list_lookup_insert_eq by (by rewrite length_insert).
      congruence.
    + destruct (decide (n = j)) as [-> | Hnj].
      * exists i. rewrite list_lookup_insert_ne by done.
        rewrite list_lookup_insert_eq by done. congruence.
      * exists n. by rewrite !list_lookup_insert_ne by done.
Qed.

Lemma elem_of_shuffle_from {A} rnd i call (l : list A) x :
  x ∈ shuffle_from rnd i call l ↔ x ∈ l.
Proof.
  revert call l. induction i as [|i IH]; intros call l; [done |].
  cbn [shuffle_from]. rewrite IH. apply elem_of_swap.
Qed.

Lemma elem_of_shuffle {A} rnd (l : list A) x : x ∈ shuffle rnd l ↔ x ∈ l.
Proof. apply elem_of_shuffle_from. Qed.

(** Under the contract of the random source every swap of the shuffle is
    inside the array. *)
Lemma shuffle_index_in_range rnd (i call : nat) :
  random_in_range rnd →
  (Z.to_nat (rnd call (Z.of_nat (S i) + 1)%Z) ≤ S i)%nat.
Proof. intros Hr. specialize (Hr call (Z.of_nat (S i) + 1)). lia. Qed.

(** What [best] and [bestScore] hold once the moves [seen] are scanned from
    the position [p], for the colour [c]. *)
Definition ScanBest (O : Oracle) (c : Turn) (p : Position O)
    (seen : list (Move O)) (best : option (Move O)) (bs : Z) : Prop :=
  match best with
  | None => seen = [] ∧ bs = -10 ^ 9
  | Some m => m ∈ seen ∧ bs = material_delta O c p m
              ∧ ∀ m', m' ∈ seen → material_delta O c p m' ≤ bs
  end.

Lemma eval_step_spec {O : Oracle} (c : Turn) (chess : Chess O) best bs m :
  eval_step c (materialScore chess) (chess, best, bs) m
  = if bool_decide (material_delta O c (current chess) m > bs)
    then (chess, Some m, material_delta O c (current chess) m)
    else (chess, best, bs).
Proof.
  unfold eval_step. rewrite undo_move, !materialScore_material.
  replace (material (board O (current (move chess m))) * sign c
           - material (board O (current chess)) * sign c)
    with (material_delta O c (current chess) m); [done |].
  unfold material_delta. simpl. lia.
Qed.

Lemma scan_spec {O : Oracle} (c : Turn) (chess : Chess O) ms :
  (∀ m, -10 ^ 9 < material_delta O c (current chess) m) →
  ∀ seen best bs, ScanBest O c (current chess) seen best bs →
  ∃ best' bs',
    fold_left (eval_step c (materialScore chess)) ms (chess, best, bs)
    = (chess, best', bs')
    ∧ ScanBest O c (current chess) (seen ++ ms) best' bs'.
Proof.
  intros Hlow. induction ms as [|m ms IH]; intros seen best bs Hinv.
  - exists best, bs. by rewrite (right_id_L [] (++)).
  - cbn [fold_left]. rewrite eval_step_spec.
    replace (seen ++ m :: ms) with ((seen ++ [m]) ++ ms)
      by (by rewrite <- (assoc_L (++))).
    case_bool_decide as Hgt; apply IH.
    + split; [apply elem_of_app; right; apply list_elem_of_here |].
      split; [done |].
      intros m' [Hm' | ->%list_elem_of_singleton]%elem_of_app; [| lia].
      destruct best as [b|]; simpl in Hinv.
      * destruct Hinv as (_ & -> & Hmax). specialize (Hmax m' Hm'). lia.
      * destruct Hinv as [-> _]. by apply elem_of_nil in Hm'.
    + destruct best as [b|]; simpl in Hinv |- *.
      * destruct Hinv as (Hb & -> & Hmax).
        split; [by apply elem_of_app; left |]. split; [done |].
        intros m' [Hm' | ->%list_elem_of_singleton]%elem_of_app;
          [by apply Hmax | lia].
      * destruct Hinv as [_ ->]. specialize (Hlow m). lia.
Qed.

(** C5. Move selection: for a position string that the oracle loads,
    [pickBotMove] returns null exactly when the oracle's list of legal moves
    is empty; otherwise it returns a move of that list whose material delta
    (material after the move minus material before it, both oriented for the
    given colour, with pawn 100, knight 320, bishop 330, rook 500, queen 900,
    king 0) is maximal among all legal moves, so that it never picks a move
    of negative delta when one of non-negative delta exists. *)
Theorem C5_move_selection (O : Oracle) (rnd : nat → Z → Z)
    (fen0 : string) (c : Turn) (p : Position O) :
  random_in_range rnd →
  (∀ q, board_8x8 (board O q)) →
  load O fen0 = Some p →
  (pickBotMove (O := O) rnd fen0 c = Ret None ↔ legal_moves O p = [])
  ∧ (legal_moves O p ≠ [] →
     ∃ m, pickBotMove (O := O) rnd fen0 c = Ret (Some m)
          ∧ m ∈ legal_moves O p
          ∧ (∀ m', m' ∈ legal_moves O p →
                   material_delta O c p m' ≤ material_delta O c p m)
          ∧ (∀ m', m' ∈ legal_moves O p →
                   0 ≤ material_delta O c p m' → 0 ≤ material_delta O c p m)).
Proof.
  intros _ Hboard Hload.
  unfold pickBotMove, new_Chess. rewrite Hload. cbn [current].
  set (chess := {| current := p; history := [] |}).
  assert (∀ m, -10 ^ 9 < material_delta O c (current chess) m) as Hlow.
  { intros m. unfold material_delta.
    pose proof (material_bound _ (Hboard (apply_move O (current chess) m))).
    pose proof (material_bound _ (Hboard (current chess))).
    destruct c; cbn [sign]; lia. }
  destruct (scan_spec c chess (shuffle rnd (legal_moves O p)) Hlow
              [] None (-10 ^ 9) (conj eq_refl eq_refl))
    as (best & bs & Hscan & Hbest).
  rewrite Hscan. cbn [app] in Hbest.
  destruct (legal_moves O p) as [|m0 ms] eqn:Hmoves.
  - split; [done |]. by intros [].
  - rewrite bool_decide_eq_false_2 by done.
    destruct best as [m|]; cbn [ScanBest] in Hbest.
    + destruct Hbest as (Hin & -> & Hmax).
      apply elem_of_shuffle in Hin.
      assert (∀ m', m' ∈ m0 :: ms →
                    material_delta O c p m' ≤ material_delta O c p m) as Hmax'.
      { intros m' Hm'. apply (Hmax m'). by apply elem_of_shuffle. }
      split; [split; discriminate |].
      intros _. exists m. split; [done |]. split; [done |]. split; [done |].
      intros m' Hm' Hpos. specialize (Hmax' m' Hm'). lia.
    + destruct Hbest as [Hnil _]. exfalso.
      assert (m0 ∈ shuffle rnd (m0 :: ms)) as Hm0.
      { apply elem_of_shuffle. apply list_elem_of_here. }
      rewrite Hnil in Hm0. by apply elem_of_nil in Hm0.
Qed.

(** A small oracle to run the bot on: position 0 has the two moves 1 and 2,
    named after the positions they lead to; move 2 captures a black rook. *)
Definition toy_row (p : nat) : list (option Cell) :=
  [Some {| type := Queen; color := white |};
   (if bool_decide (p = 2%nat) then None
    else Some {| type := Rook; color := black |});
   None; None; None; None; None; None].

Definition toy_board (p : nat) : list (list (option Cell)) :=
  toy_row p :: replicate 7 (replicate 8 None).

Definition toy_oracle : Oracle :=
  {| Position := nat;
     Move := nat;
     load := fun s => if bool_decide (s = "start") then Some 0%nat else None;
     legal_moves := fun p => if bool_decide (p = 0%nat) then [1%nat; 2%nat] else [];
     apply_move := fun _ m => m;
     board := toy_board;
     turn_of := fun _ => white;
     isGameOver := fun _ => false;
     isCheckmate := fun _ => false;
     isStalemate := fun _ => false |}.

Definition first_index : nat → Z → Z := fun _ _ => 0.

Lemma toy_board_8x8 q : board_8x8 (toy_board q).
Proof. split; [done |]. unfold toy_board, toy_row. by repeat constructor. Qed.

Lemma C5_move_selection_witness :
  pickBotMove (O := toy_oracle) first_index "start" white = Ret (Some 2%nat)
  ∧ material_delta toy_oracle white 0%nat 2%nat = 500.
Proof.
  split; [| by vm_compute].
  destruct (C5_move_selection toy_oracle first_index "start" white 0%nat)
    as [_ Hsome].
  - intros n k Hk. unfold first_index. lia.
  - exact toy_board_8x8.
  - reflexivity.
  - destruct Hsome as (m & Hpick & _); [discriminate |].
    rewrite Hpick. by vm_compute in Hpick.
Defined.

(** ** Room synchronisation *)

(** An oracle that, like [chess.js], rejects every string that does not have
    six space-separated fields, and keeps the string it accepted. *)
Definition six_field_oracle : Oracle :=
  {| Position := string;
     Move := string;
     load := fun s => if bool_decide (length (split " " s) = 6%nat)
                      then Some s else None;
     legal_moves := fun _ => [];
     apply_move := fun p _ => p;
     board := fun _ => replicate 8 (replicate 8 None);
     turn_of := fun p => if bool_decide (split " " p !! 1%nat = Some "b")
                         then black else white;
     isGameOver := fun _ => false;
     isCheckmate := fun _ => false;
     isStalemate := fun _ => false |}.

Definition start_fen : string :=
  "rnbqkbnr/pppppppp/8/8/8/8/PPPPPPPP/RNBQKBNR w KQkq - 0 1".

Definition sandbox_msg : Payload :=
  {| p_from := "e2"; p_to := "e4"; p_san := "wK:e2-e4";
     p_fen := Some "SANDBOX:b:wK:e4,bQ:h8" |}.

Definition chess_at (s : string) : Chess six_field_oracle :=
  Build_Chess six_field_oracle s [].

Definition page_start : Page.Peer (O := six_field_oracle) :=
  {| Page.mode := strict; Page.fen := start_fen;
     Page.chessRef := chess_at start_fen;
     Page.turn := white; Page.status := "" |}.

Definition sandbox_page_start : SandboxPage.Peer (O := six_field_oracle) :=
  {| SandboxPage.mode := strict; SandboxPage.fen := start_fen;
     SandboxPage.sandboxPos := <["a1" := "wR"]> ∅;
     SandboxPage.turn := white;
     SandboxPage.chessRef := chess_at start_fen |}.

(** The handler of [pages/index.tsx] has no freeform branch: a [SANDBOX:]
    message goes to the oracle, which rejects it, and the state of the peer
    stays as it was. *)
Lemma C6_counterexample :
  p_fen sandbox_msg = Some "SANDBOX:b:wK:e4,bQ:h8"
  ∧ startsWith "SANDBOX:" "SANDBOX:b:wK:e4,bQ:h8" = true
  ∧ Page.on_move page_start sandbox_msg = page_start.
Proof. by vm_compute. Qed.

(** *** Sandbox codes: [split], [join] and the loop over the chunks *)

(** A string that can stand in a sandbox code: not empty, and free of the
    two separators. *)
Definition plain (s : string) : Prop :=
  s ≠ "" ∧ has_char ":" s = false ∧ has_char "," s = false.

Global Instance plain_dec s : Decision (plain s).
Proof. unfold plain. apply _. Defined.

(** The freeform string as the specification words it: the sentinel, the
    side to move, and a comma-separated list of [piece:square] pairs. *)
Definition freeform_pair (ps : string * string) : string :=
  ps.1 +:+ ":" +:+ ps.2.

Definition freeform_string (side : string) (pairs : list (string * string))
  : string :=
  "SANDBOX:" +:+ side +:+ ":" +:+ join "," (freeform_pair <$> pairs).

(** The piece that a list of [piece:square] pairs gives to a square: the
    piece of the last pair that names the square. *)
Fixpoint last_piece (pairs : list (string * string)) (sq : string)
  : option string :=
  match pairs with
  | [] => None
  | (p, s) :: rest =>
      match last_piece rest sq with
      | Some q => Some q
      | None => if bool_decide (s = sq) then Some p else None
      end
  end.

(** The content of a list of pairs, as an object holds it: nothing is held
    under the key [__proto__]. *)
Definition freeform_content (pairs : list (string * string)) (sq : string)
  : option string :=
  if bool_decide (sq = "__proto__") then None else last_piece pairs sq.

Lemma prefix_app p s : String.prefix p (p +:+ s) = true.
Proof.
  induction p as [|c p IH]; cbn [String.prefix append].
  - by destruct s.
  - destruct (ascii_dec c c); [done | congruence].
Qed.

Lemma join_cons sep p q rest :
  join sep (p :: q :: rest) = p +:+ sep +:+ join sep (q :: rest).
Proof. done. Qed.

(** [s.split(c).join(c)] is [s]. *)
Lemma join_split sep s : join (String sep EmptyString) (split sep s) = s.
Proof.
  induction s as [|c s IH]; [done |]. cbn [split].
  pose proof (split_nonempty sep s) as Hne.
  destruct (split sep s) as [|h t]; [done |].
  case_bool_decide as Hc.
  - subst c. rewrite join_cons, IH. done.
  - destruct t as [|h' t].
    + cbn [join] in IH |- *. by rewrite IH.
    + rewrite join_cons. rewrite join_cons in IH.
      by rewrite <- IH.
Qed.

(** [chunks.join(c).split(c)] is [chunks] when no chunk holds [c]. *)
Lemma split_join sep chunks :
  chunks ≠ [] →
  Forall (fun c => has_char sep c = false) chunks →
  split sep (join (String sep EmptyString) chunks) = chunks.
Proof.
  induction chunks as [|c chunks IH]; [done |]. intros _ Hall.
  apply Forall_cons in Hall as [Hc Hall].
  destruct chunks as [|c' chunks].
  - cbn [join]. by apply split_no_sep.
  - rewrite join_cons. cbn [append].
    change (String sep ?x) with (String sep x).
    rewrite split_app_sep by done. by rewrite IH.
Qed.

Lemma trim_nonempty_has_char c s :
  is_white c = false → has_char c s = true → trim_nonempty s = true.
Proof.
  intros Hw. induction s as [|x s IH]; cbn [has_char trim_nonempty]; [done |].
  intros [Hx | Hs]%orb_true_iff.
  - apply bool_decide_eq_true in Hx as ->. by rewrite Hw.
  - rewrite (IH Hs). by rewrite orb_true_r.
Qed.

Lemma join_has_char c sep x chunks :
  has_char c x = true → has_char c (join sep (x :: chunks)) = true.
Proof.
  intros Hx. destruct chunks as [|y chunks]; [done |].
  rewrite join_cons, has_char_app, Hx. done.
Qed.

(** What [importFENText] reads from a code whose chunks hold a colon and no
    comma: the loop runs over exactly these chunks. *)
Lemma sandbox_code_chunks side chunks :
  has_char ":" side = false →
  Forall (fun c => has_char "," c = false ∧ has_char ":" c = true) chunks →
  startsWith "SANDBOX:" ("SANDBOX:" +:+ side +:+ ":" +:+ join "," chunks)
  = true
  ∧ SandboxPage.sandbox_pieces
      ("SANDBOX:" +:+ side +:+ ":" +:+ join "," chunks)
    = fold_left SandboxPage.chunk_step chunks ∅
  ∧ SandboxPage.sandbox_turn
      ("SANDBOX:" +:+ side +:+ ":" +:+ join "," chunks)
    = if bool_decide (side = "b") then black else white.
Proof.
  intros Hside Hall.
  assert (split ":" ("SANDBOX:" +:+ side +:+ ":" +:+ join "," chunks)
          = "SANDBOX" :: side :: split ":" (join "," chunks)) as Hsplit.
  { change ("SANDBOX:" +:+ ?x) with ("SANDBOX" +:+ String ":" x).
    rewrite split_app_sep by done. f_equal.
    change (":" +:+ ?x) with (String ":" x).
    by rewrite split_app_sep. }
  split; [apply prefix_app |]. split.
  - unfold SandboxPage.sandbox_pieces. rewrite Hsplit. cbv zeta. cbn [drop].
    rewrite drop_0, (join_split ":").
    destruct chunks as [|c chunks]; [done |].
    apply Forall_cons in Hall as [[Hcomma Hcolon] Hall].
    rewrite (trim_nonempty_has_char ":"); [| done | by apply join_has_char].
    rewrite split_join; [done | done |].
    apply Forall_cons. split; [done |].
    eapply Forall_impl; [exact Hall |]. by intros c' [? _].
  - unfold SandboxPage.sandbox_turn. rewrite Hsplit.
    cbn [lookup list_lookup].
    destruct (decide (side = "b")) as [-> | Hne].
    + by rewrite !bool_decide_eq_true_2.
    + rewrite !bool_decide_eq_false_2; [done | done | congruence].
Qed.

Lemma chunk_step_pair obj p s :
  plain p → plain s →
  SandboxPage.chunk_step obj (freeform_pair (p, s))
  = if bool_decide (s = "__proto__") then obj else <[s := p]> obj.
Proof.
  intros (Hp & Hpc & _) (Hs & Hsc & _).
  unfold SandboxPage.chunk_step, freeform_pair. cbn [fst snd].
  change (":" +:+ s) with (String ":" s).
  rewrite split_app_sep by done. rewrite split_no_sep by done.
  cbn [lookup list_lookup truthy tpl default id].
  by rewrite !bool_decide_eq_true_2 by done.
Qed.

Lemma freeform_pair_chars ps :
  plain ps.1 → plain ps.2 →
  has_char "," (freeform_pair ps) = false
  ∧ has_char ":" (freeform_pair ps) = true.
Proof.
  intros (_ & _ & Hp) (_ & _ & Hs). unfold freeform_pair.
  rewrite !has_char_app, Hp, Hs. cbn [has_char].
  rewrite (bool_decide_eq_true_2 (":"%char = ":"%char)) by done.
  rewrite (bool_decide_eq_false_2 (":"%char = ","%char)) by done.
  split; [done |]. cbn [orb]. by rewrite orb_true_r.
Qed.

(** The loop over the chunks gives every square the piece of the last pair
    that names it, and keeps what the object held elsewhere. *)
Lemma fold_pairs_lookup pairs obj sq :
  Forall (fun ps => plain ps.1 ∧ plain ps.2) pairs →
  fold_left SandboxPage.chunk_step (freeform_pair <$> pairs) obj !! sq
  = match freeform_content pairs sq with
    | Some q => Some q
    | None => obj !! sq
    end.
Proof.
  revert obj. induction pairs as [|[p s] pairs IH]; intros obj Hall.
  - unfold freeform_content. by case_bool_decide.
  - apply Forall_cons in Hall as [[Hp Hs] Hall].
    cbn [fmap list_fmap fold_left fst snd] in *.
    rewrite (IH _ Hall), (chunk_step_pair obj p s Hp Hs).
    unfold freeform_content. cbn [last_piece].
    destruct (decide (sq = "__proto__")) as [-> | Hsq].
    + rewrite !bool_decide_eq_true_2 by done.
      case_bool_decide; [done |]. by rewrite lookup_insert_ne.
    + rewrite !(bool_decide_eq_false_2 (sq = "__proto__")) by done.
      destruct (last_piece pairs sq) as [q|]; [done |].
      destruct (decide (s = sq)) as [-> | Hne].
      * rewrite (bool_decide_eq_false_2 (sq = "__proto__")) by done.
        rewrite bool_decide_eq_true_2 by done. apply lookup_insert_eq.
      * rewrite (bool_decide_eq_false_2 (s = sq)) by done.
        case_bool_decide; [done |]. by rewrite lookup_insert_ne.
Qed.

(** C6 (amended). Freeform ingestion.  In the page variant with [SANDBOX:]
    codes, a received "move" message whose string is the sentinel, a side
    to move and a comma-separated list of [piece:square] pairs makes the
    handler switch to sandbox mode, take black as the side to move exactly
    when the side is "b", and hold on every square the piece of the last
    pair that names it and nothing elsewhere, the FEN and the [Chess] object
    being left alone.  For every sentinel-prefixed string, well formed or
    not, the new position and turn are the same whatever the state of the
    peer was and whatever the oracle is: the replacement is wholesale and
    the oracle is not consulted.  The handler of [pages/index.tsx] has no
    freeform branch: it hands every string to the oracle, leaves the state
    as it was when the load fails (no effect runs then) and takes the string
    when it succeeds. *)
Theorem C6_freeform_ingestion :
  (∀ (O : Oracle) (st : SandboxPage.Peer (O := O)) payload side pairs,
     p_fen payload = Some (freeform_string side pairs) →
     has_char ":" side = false →
     Forall (fun ps => plain ps.1 ∧ plain ps.2) pairs →
     SandboxPage.mode (SandboxPage.on_move st payload) = sandbox
     ∧ SandboxPage.turn (SandboxPage.on_move st payload)
       = (if bool_decide (side = "b") then black else white)
     ∧ (∀ sq, SandboxPage.sandboxPos (SandboxPage.on_move st payload) !! sq
              = freeform_content pairs sq)
     ∧ SandboxPage.fen (SandboxPage.on_move st payload) = SandboxPage.fen st
     ∧ SandboxPage.chessRef (SandboxPage.on_move st payload)
       = SandboxPage.chessRef st)
  ∧ (∀ (O1 O2 : Oracle) (st1 : SandboxPage.Peer (O := O1))
       (st2 : SandboxPage.Peer (O := O2)) payload rf,
       p_fen payload = Some rf → startsWith "SANDBOX:" rf = true →
       SandboxPage.mode (SandboxPage.on_move st1 payload) = sandbox
       ∧ SandboxPage.fen (SandboxPage.on_move st1 payload)
         = SandboxPage.fen st1
       ∧ SandboxPage.chessRef (SandboxPage.on_move st1 payload)
         = SandboxPage.chessRef st1
       ∧ SandboxPage.sandboxPos (SandboxPage.on_move st1 payload)
         = SandboxPage.sandboxPos (SandboxPage.on_move st2 payload)
       ∧ SandboxPage.turn (SandboxPage.on_move st1 payload)
         = SandboxPage.turn (SandboxPage.on_move st2 payload))
  ∧ (∀ (O : Oracle) (st : Page.Peer (O := O)) payload rf,
       p_fen payload = Some rf →
       (load O rf = None →
        Page.on_move st payload = st ∧ Page.deliver st payload = st)
       ∧ (∀ p, load O rf = Some p →
               Page.on_move st payload
               = {| Page.mode := Page.mode st; Page.fen := rf;
                    Page.chessRef := {| current := p; history := [] |};
                    Page.turn := Page.turn st;
                    Page.status := Page.status st |})).
Proof.
  split; [| split].
  - intros O st payload side pairs Hrf Hside Hall.
    destruct (sandbox_code_chunks side (freeform_pair <$> pairs) Hside)
      as (Hstart & Hpieces & Hturn).
    { apply Forall_fmap. eapply Forall_impl; [exact Hall |].
      intros ps [Hp Hs]. by apply freeform_pair_chars. }
    fold (freeform_string side pairs) in Hstart, Hpieces, Hturn.
    unfold SandboxPage.on_move, SandboxPage.importFENText.
    rewrite Hrf, Hstart.
    cbn [SandboxPage.mode SandboxPage.turn SandboxPage.sandboxPos
         SandboxPage.fen SandboxPage.chessRef].
    split; [done |]. split; [done |]. split; [| done].
    intros sq. rewrite Hpieces, (fold_pairs_lookup pairs ∅ sq Hall).
    rewrite lookup_empty. by destruct (freeform_content pairs sq).
  - intros O1 O2 st1 st2 payload rf Hrf Hpre.
    unfold SandboxPage.on_move, SandboxPage.importFENText.
    by rewrite Hrf, Hpre.
  - intros O st payload rf Hrf. unfold Page.deliver, Page.on_move, new_Chess.
    rewrite Hrf. split.
    + intros ->. by rewrite bool_decide_eq_true_2.
    + by intros p ->.
Qed.

Lemma C6_freeform_ingestion_witness :
  SandboxPage.on_move sandbox_page_start sandbox_msg
  = {| SandboxPage.mode := sandbox;
       SandboxPage.fen := start_fen;
       SandboxPage.sandboxPos := <["e4" := "wK"]> (<["h8" := "bQ"]> ∅);
       SandboxPage.turn := black;
       SandboxPage.chessRef := chess_at start_fen |}
  ∧ SandboxPage.mode (SandboxPage.on_move sandbox_page_start sandbox_msg)
    = sandbox
  ∧ SandboxPage.turn (SandboxPage.on_move sandbox_page_start sandbox_msg)
    = (if bool_decide ("b" = "b") then black else white)
  ∧ (∀ sq, SandboxPage.sandboxPos
             (SandboxPage.on_move sandbox_page_start sandbox_msg) !! sq
           = freeform_content [("wK", "e4"); ("bQ", "h8")] sq)
  ∧ SandboxPage.fen (SandboxPage.on_move sandbox_page_start sandbox_msg)
    = SandboxPage.fen sandbox_page_start
  ∧ SandboxPage.chessRef (SandboxPage.on_move sandbox_page_start sandbox_msg)
    = SandboxPage.chessRef sandbox_page_start.
Proof.
  split; [by vm_compute |].
  apply (proj1 C6_freeform_ingestion six_field_oracle sandbox_page_start
           sandbox_msg "b" [("wK", "e4"); ("bQ", "h8")]).
  - reflexivity.
  - reflexivity.
  - repeat constructor; compute_done.
Defined.

Section PageHandler.
Context {O : Oracle}.
Implicit Types (st : Page.Peer (O := O)) (payload : Payload).

Lemma on_move_accept st payload rf c :
  p_fen payload = Some rf → new_Chess rf = Some c →
  Page.on_move st payload
  = {| Page.mode := Page.mode st; Page.fen := rf; Page.chessRef := c;
       Page.turn := Page.turn st; Page.status := Page.status st |}.
Proof. intros Hrf Hc. unfold Page.on_move. by rewrite Hrf, Hc. Qed.

Lemma on_move_reject st payload rf :
  p_fen payload = Some rf → new_Chess (O := O) rf = None →
  Page.on_move st payload = st.
Proof. intros Hrf Hc. unfold Page.on_move. by rewrite Hrf, Hc. Qed.

Lemma on_move_no_string st payload :
  p_fen payload = None → Page.on_move st payload = st.
Proof. intros Hrf. unfold Page.on_move. by rewrite Hrf. Qed.

(** A peer that already holds the position of the message is a fixed
    point of the handler and of a delivery. *)
Lemma on_move_fixed st payload rf c :
  p_fen payload = Some rf → new_Chess rf = Some c →
  Page.fen st = rf → Page.chessRef st = c →
  Page.on_move st payload = st.
Proof.
  intros Hrf Hc Hfen Href. rewrite (on_move_accept st payload rf c Hrf Hc).
  destruct st. cbn in *. by subst.
Qed.

Lemma deliver_unchanged st payload :
  Page.on_move st payload = st → Page.deliver st payload = st.
Proof.
  intros Hfix. unfold Page.deliver. rewrite Hfix.
  by rewrite bool_decide_eq_true_2.
Qed.

Lemma deliver_holds st payload rf c :
  p_fen payload = Some rf → new_Chess rf = Some c →
  Page.fen (Page.deliver st payload) = rf
  ∧ Page.chessRef (Page.deliver st payload) = c.
Proof.
  intros Hrf Hc. unfold Page.deliver.
  rewrite (on_move_accept st payload rf c Hrf Hc). cbn [Page.fen].
  case_bool_decide; [done |].
  unfold Page.fen_effect. cbn [Page.fen]. by rewrite Hc.
Qed.
End PageHandler.

(** C8. Idempotence of synchronisation: delivering the same "move" message
    twice to the handler of [pages/index.tsx] leaves the peer in the state
    that one delivery gives (same FEN, same [Chess] object), also when the
    effect on [fen] is run after each delivery; and a message whose string
    the oracle rejects, or which carries no string, leaves the state as it
    was. *)
Theorem C8_sync_idempotent (O : Oracle) (st : Page.Peer (O := O)) payload :
  Page.on_move (Page.on_move st payload) payload = Page.on_move st payload
  ∧ Page.deliver (Page.deliver st payload) payload = Page.deliver st payload
  ∧ (∀ rf, p_fen payload = Some rf → load O rf = None →
           Page.on_move st payload = st ∧ Page.deliver st payload = st)
  ∧ (p_fen payload = None →
     Page.on_move st payload = st ∧ Page.deliver st payload = st).
Proof.
  destruct (p_fen payload) as [rf|] eqn:Hrf.
  - destruct (new_Chess (O := O) rf) as [c|] eqn:Hc.
    + split; [| split; [| split; [| done]]].
      * apply (on_move_fixed _ payload rf c Hrf Hc);
          by rewrite (on_move_accept st payload rf c Hrf Hc).
      * destruct (deliver_holds st payload rf c Hrf Hc) as [Hfen Href].
        apply deliver_unchanged.
        by apply (on_move_fixed _ payload rf c Hrf Hc).
      * intros rf' [= <-] Hload. unfold new_Chess in Hc.
        by rewrite Hload in Hc.
    + pose proof (on_move_reject st payload rf Hrf Hc) as Hfix.
      pose proof (deliver_unchanged st payload Hfix) as Hdel.
      rewrite !Hdel, !Hfix. by repeat split.
  - pose proof (on_move_no_string st payload Hrf) as Hfix.
    pose proof (deliver_unchanged st payload Hfix) as Hdel.
    rewrite !Hdel, !Hfix. by repeat split.
Qed.

Example sync_twice :
  Page.deliver (Page.deliver page_start
                  {| p_from := "e2"; p_to := "e4"; p_san := "e4";
                     p_fen := Some "rnbqkbnr/pppppppp/8/8/4P3/8/PPPP1PPP/RNBQKBNR b KQkq - 0 1" |})
               {| p_from := "e2"; p_to := "e4"; p_san := "e4";
                  p_fen := Some "rnbqkbnr/pppppppp/8/8/4P3/8/PPPP1PPP/RNBQKBNR b KQkq - 0 1" |}
  = {| Page.mode := strict;
       Page.fen := "rnbqkbnr/pppppppp/8/8/4P3/8/PPPP1PPP/RNBQKBNR b KQkq - 0 1";
       Page.chessRef :=
         chess_at "rnbqkbnr/pppppppp/8/8/4P3/8/PPPP1PPP/RNBQKBNR b KQkq - 0 1";
       Page.turn := black; Page.status := "" |}.
Proof. by vm_compute. Qed.

Lemma C8_sync_idempotent_witness :
  p_fen sandbox_msg = Some "SANDBOX:b:wK:e4,bQ:h8"
  ∧ load six_field_oracle "SANDBOX:b:wK:e4,bQ:h8" = None
  ∧ Page.on_move page_start sandbox_msg = page_start
  ∧ Page.deliver page_start sandbox_msg = page_start.
Proof.
  split; [reflexivity |]. split; [reflexivity |].
  apply (proj1 (proj2 (proj2 (C8_sync_idempotent six_field_oracle page_start
                                 sandbox_msg)))
           "SANDBOX:b:wK:e4,bQ:h8"); reflexivity.
Defined.

Lemma C10_decode_defaults_witness :
  fenToPosObj "3k4/8/8/8/8/8/8/3K4 b"
  = Ret {| pos := kings_only; turn := black; castle := no_rights |}
  ∧ (turn {| pos := kings_only; turn := black; castle := no_rights |} = black
     ↔ fields "3k4/8/8/8/8/8/8/3K4 b" !! 1%nat = Some "b").
Proof.
  split; [by vm_compute |].
  apply (proj2 (C10_decode_defaults "3k4/8/8/8/8/8/8/3K4 b")
           {| pos := kings_only; turn := black; castle := no_rights |}).
  by vm_compute.
Defined.

(** * Further properties of the code *)

(** ** The two symbol tables are inverse to each other *)

Lemma toUpperCase_single s c :
  toUpperCase s = String c EmptyString →
  ∃ c', s = String c' EmptyString ∧ upper_ascii c' = c.
Proof.
  destruct s as [|c' [|c'' s']]; [done | | done].
  cbn [toUpperCase]. intros [= H]. by exists c'.
Qed.

Lemma symbolMap_lookup t m :
  symbolMap !! t = Some m →
  m = t ∧ t ∈ ["K"; "Q"; "R"; "B"; "N"; "P"].
Proof.
  intros H. unfold symbolMap in H. apply elem_of_list_to_map_2 in H.
  repeat (apply elem_of_cons in H as [[= -> ->] | H];
          [split; [done | by repeat constructor] |]).
  by apply elem_of_nil in H.
Qed.

Lemma symbolToPiece_inv sym p :
  symbolToPiece sym = Ret p → p ∈ PIECES ∧ pieceToSymbol p = Some sym.
Proof.
  unfold symbolToPiece.
  destruct (symbolMap !! toUpperCase sym) as [m|] eqn:Hm; [| done].
  destruct (symbolMap_lookup _ _ Hm) as [-> Hletter].
  assert (∃ c, sym = String c EmptyString
               ∧ upper_ascii c
                 ∈ ["K"; "Q"; "R"; "B"; "N"; "P"]%char) as (c & -> & Hc).
  { repeat (apply elem_of_cons in Hletter as [Hletter | Hletter];
            [apply toUpperCase_single in Hletter as (c & -> & <-);
             exists c; split; [done | by repeat constructor] |]).
    by apply elem_of_nil in Hletter. }
  clear Hm Hletter.
  destruct c as [[] [] [] [] [] [] [] []];
    first [ by (exfalso; vm_compute in Hc; clear -Hc;
                repeat (apply elem_of_cons in Hc as [Hc | Hc];
                        [discriminate Hc |]);
                by apply elem_of_nil in Hc)
          | by (vm_compute; intros [= <-];
                split; [by repeat constructor | reflexivity]) ].
Qed.

Lemma symbolToPiece_of_piece sym p :
  p ∈ PIECES → pieceToSymbol p = Some sym → symbolToPiece sym = Ret p.
Proof.
  intros Hp. revert p Hp.
  apply (PIECES_cases
           (fun p => pieceToSymbol p = Some sym → symbolToPiece sym = Ret p));
    intros H; vm_compute in H; injection H as <-; reflexivity.
Qed.

(** X1. [symbolToPiece] returns a piece code exactly on the twelve placement
    symbols, and then [pieceToSymbol] maps that code back to the symbol; on
    every other string it throws.  Conversely the symbol that
    [pieceToSymbol] gives for a palette piece is decoded to that piece. *)
Theorem X1_symbol_tables_inverse sym p :
  symbolToPiece sym = Ret p ↔ p ∈ PIECES ∧ pieceToSymbol p = Some sym.
Proof.
  split; [apply symbolToPiece_inv |].
  intros [Hp Hsym]. by apply symbolToPiece_of_piece.
Qed.

Example bad_symbol_rejected : symbolToPiece "x" = Throw "bad symbol".
Proof. reflexivity. Qed.

(** ** What the decoder can produce *)

Lemma dec_step_pieces st ch st' :
  dec_step st ch = Ret st' →
  map_Forall (fun _ p => p ∈ PIECES) st.1.1 →
  map_Forall (fun _ p => p ∈ PIECES) st'.1.1.
Proof.
  destruct st as [[pos0 rank] file]. unfold dec_step. cbn [fst].
  repeat case_match; intros [= <-]; cbn [fst]; try done.
  intros Hall. apply map_Forall_insert_2; [| done].
  by eapply symbolToPiece_inv.
Qed.

Lemma dec_chars_pieces s st st' :
  dec_chars s st = Ret st' →
  map_Forall (fun _ p => p ∈ PIECES) st.1.1 →
  map_Forall (fun _ p => p ∈ PIECES) st'.1.1.
Proof.
  revert st. induction s as [|ch s IH]; intros st; cbn [dec_chars].
  - by intros [= <-].
  - destruct (dec_step st ch) as [st1|e] eqn:Hstep; [| done].
    intros Hrest Hall. apply (IH st1 Hrest).
    by eapply dec_step_pieces.
Qed.

(** X2. Whatever string it is given, [fenToPosObj], when it returns, returns
    a position all of whose values are palette piece codes. *)
Theorem X2_decoded_pieces_are_palette s d :
  fenToPosObj s = Ret d → map_Forall (fun _ p => p ∈ PIECES) (pos d).
Proof.
  destruct (fenToPosObj_unfold s) as (placement & _ & ->).
  destruct (dec_chars placement (∅, 8, 0)) as [[[pos' rk] fl]|e] eqn:Hdec;
    [| done].
  intros [= <-]. cbn [pos].
  apply (dec_chars_pieces _ _ _ Hdec). cbn [fst]. apply map_Forall_empty.
Qed.

Lemma X2_decoded_pieces_are_palette_witness :
  fenToPosObj "3k4/8/8/8/8/8/8/3K4 w - - 0 1"
  = Ret {| pos := kings_only; turn := white; castle := no_rights |}
  ∧ map_Forall (fun _ p => p ∈ PIECES) kings_only.
Proof.
  split; [by vm_compute |].
  apply (X2_decoded_pieces_are_palette "3k4/8/8/8/8/8/8/3K4 w - - 0 1"
           {| pos := kings_only; turn := white; castle := no_rights |}).
  by vm_compute.
Defined.

(** ** The first offending square decides the error of [posObjToFen] *)

(** The content of the square on file [f] and rank [r] lets the scan go on:
    it is empty (absent, or the empty string), or a palette piece other than
    a pawn on rank 1 or 8. *)
Definition acceptable (obj : PosObj) (f r : Z) : Prop :=
  match obj !! square f r with
  | None => True
  | Some p => p = "" ∨ (p ∈ PIECES ∧ back_rank r && is_pawn p = false)
  end.

(** The square (f', r') is visited before the square (f, r). *)
Definition visited_before (f r f' r' : Z) : Prop :=
  0 ≤ f' < 8 ∧ 1 ≤ r' ≤ 8 ∧ (r < r' ∨ (r' = r ∧ f' < f)).

Definition unknown_error (p : string) : FenResult :=
  {| fen := None; error := Some ("Unknown piece: " +:+ p) |}.

Lemma file_step_falsy obj r sc e f :
  truthy (obj !! square f r) = false →
  file_step obj r (sc, e) f = Next (sc, e + 1).
Proof. intros H. unfold file_step. by rewrite H. Qed.

Lemma file_step_acceptable obj r st f :
  acceptable obj f r → ∃ st', file_step obj r st f = Next st'.
Proof.
  unfold acceptable. destruct st as [sc e].
  destruct (obj !! square f r) as [p|] eqn:Hp.
  - intros [-> | [Hpiece Hback]].
    + eexists. apply file_step_falsy. by rewrite Hp.
    + eexists. by rewrite (file_step_piece _ _ _ _ _ _ Hp Hpiece), Hback.
  - intros _. eexists. by apply file_step_empty.
Qed.

Lemma file_loop_acceptable obj r fs st :
  (∀ f, f ∈ fs → acceptable obj f r) →
  ∃ st', for_loop fs (file_step obj r) st = Next st'.
Proof.
  revert st. induction fs as [|f fs IH]; intros st Hacc; [by eexists |].
  cbn [for_loop].
  destruct (file_step_acceptable obj r st f) as [st1 ->];
    [apply Hacc, list_elem_of_here |].
  apply IH. intros f' Hf'. by apply Hacc, list_elem_of_further.
Qed.

Lemma rank_step_acceptable obj r sc :
  (∀ f, 0 ≤ f < 8 → acceptable obj f r) →
  ∃ sc', rank_step obj sc r = Next sc'.
Proof.
  intros Hacc. unfold rank_step.
  destruct (file_loop_acceptable obj r (seqZ 0 8) (sc, 0)) as [[sc' e] ->];
    [| by eexists].
  intros f Hf. apply Hacc.
  apply list_elem_of_lookup in Hf as [n Hn]. apply lookup_seqZ in Hn. lia.
Qed.

Lemma rank_loop_acceptable obj rs sc :
  (∀ r f, r ∈ rs → 0 ≤ f < 8 → acceptable obj f r) →
  ∃ sc', for_loop rs (rank_step obj) sc = Next sc'.
Proof.
  revert sc. induction rs as [|r rs IH]; intros sc Hacc; [by eexists |].
  cbn [for_loop].
  destruct (rank_step_acceptable obj r sc) as [sc1 ->].
  { intros f Hf. by apply Hacc; [apply list_elem_of_here |]. }
  apply IH. intros r' f Hr'. by apply Hacc, list_elem_of_further.
Qed.

Lemma RANKS_split r :
  1 ≤ r ≤ 8 →
  ∃ above below, RANKS = above ++ r :: below ∧ ∀ r', r' ∈ above → r < r' ≤ 8.
Proof.
  intros Hr.
  assert (r = 8 ∨ r = 7 ∨ r = 6 ∨ r = 5 ∨ r = 4 ∨ r = 3 ∨ r = 2 ∨ r = 1)
    as Hcases by lia.
  destruct Hcases as [-> | [-> | [-> | [-> | [-> | [-> | [-> | ->]]]]]]].
  - exists [], [7; 6; 5; 4; 3; 2; 1]. split; [done |]. by intros r' ?%elem_of_nil.
  - exists [8], [6; 5; 4; 3; 2; 1]. split; [done |].
    intros r' Hin. repeat (apply elem_of_cons in Hin as [-> | Hin]; [lia |]).
    by apply elem_of_nil in Hin.
  - exists [8; 7], [5; 4; 3; 2; 1]. split; [done |].
    intros r' Hin. repeat (apply elem_of_cons in Hin as [-> | Hin]; [lia |]).
    by apply elem_of_nil in Hin.
  - exists [8; 7; 6], [4; 3; 2; 1]. split; [done |].
    intros r' Hin. repeat (apply elem_of_cons in Hin as [-> | Hin]; [lia |]).
    by apply elem_of_nil in Hin.
  - exists [8; 7; 6; 5], [3; 2; 1]. split; [done |].
    intros r' Hin. repeat (apply elem_of_cons in Hin as [-> | Hin]; [lia |]).
    by apply elem_of_nil in Hin.
  - exists [8; 7; 6; 5; 4], [2; 1]. split; [done |].
    intros r' Hin. repeat (apply elem_of_cons in Hin as [-> | Hin]; [lia |]).
    by apply elem_of_nil in Hin.
  - exists [8; 7; 6; 5; 4; 3], [1]. split; [done |].
    intros r' Hin. repeat (apply elem_of_cons in Hin as [-> | Hin]; [lia |]).
    by apply elem_of_nil in Hin.
  - exists [8; 7; 6; 5; 4; 3; 2], []. split; [done |].
    intros r' Hin. repeat (apply elem_of_cons in Hin as [-> | Hin]; [lia |]).
    by apply elem_of_nil in Hin.
Qed.

Lemma seqZ_split_at f :
  0 ≤ f < 8 → seqZ 0 8 = seqZ 0 f ++ f :: seqZ (f + 1) (7 - f).
Proof.
  intros Hf.
  assert (f = 0 ∨ f = 1 ∨ f = 2 ∨ f = 3 ∨ f = 4 ∨ f = 5 ∨ f = 6 ∨ f = 7)
    as Hcases by lia.
  destruct Hcases as [-> | [-> | [-> | [-> | [-> | [-> | [-> | ->]]]]]]];
    reflexivity.
Qed.

(** The scan returns what the body returns at the first square that is not
    acceptable. *)
Lemma scan_reaches obj f r res :
  0 ≤ f < 8 → 1 ≤ r ≤ 8 →
  (∀ f' r', visited_before f r f' r' → acceptable obj f' r') →
  (∀ st, file_step obj r st f = Return res) →
  scan_board obj = Return res.
Proof.
  intros Hf Hr Hbefore Hstep.
  destruct (RANKS_split r Hr) as (above & below & HR & Habove).
  unfold scan_board. rewrite HR, for_loop_app.
  destruct (rank_loop_acceptable obj above {| placement := ""; wK := 0; bK := 0 |})
    as [sc ->].
  { intros r' f' Hr' Hf'. apply Hbefore.
    specialize (Habove r' Hr'). unfold visited_before. lia. }
  cbn [for_loop]. unfold rank_step at 1.
  rewrite (seqZ_split_at f Hf), for_loop_app.
  destruct (file_loop_acceptable obj r (seqZ 0 f) (sc, 0)) as [st ->].
  { intros f' Hf'. apply Hbefore.
    apply list_elem_of_lookup in Hf' as [n Hn]. apply lookup_seqZ in Hn.
    unfold visited_before. lia. }
  cbn [for_loop]. by rewrite Hstep.
Qed.

Lemma file_step_unknown obj r st f p :
  obj !! square f r = Some p → p ≠ "" → p ∉ PIECES →
  file_step obj r st f = Return (unknown_error p).
Proof.
  intros Hp Hne Hunk. destruct st as [sc e]. unfold file_step. rewrite Hp.
  cbn [truthy tpl default id]. rewrite (bool_decide_eq_true_2 (p ≠ "")) by done.
  cbn [negb].
  assert (bool_decide (p = "wP") || bool_decide (p = "bP") = false) as ->.
  { apply orb_false_intro; apply bool_decide_eq_false_2; intros ->;
      apply Hunk; by repeat constructor. }
  rewrite andb_false_r.
  assert (pieceToSymbol p = None) as ->; [| done].
  unfold pieceToSymbol, pieceMap. apply not_elem_of_list_to_map_1.
  intros Hin. apply Hunk. cbn in Hin.
  repeat (apply elem_of_cons in Hin as [-> | Hin]; [by repeat constructor |]).
  by apply elem_of_nil in Hin.
Qed.

Lemma file_step_pawn obj r st f p :
  obj !! square f r = Some p → back_rank r = true → is_pawn p = true →
  file_step obj r st f = Return (pawn_error r).
Proof.
  intros Hp Hback Hpawn. destruct st as [sc e].
  assert (p ∈ PIECES) as Hpiece.
  { unfold is_pawn in Hpawn. apply orb_true_iff in Hpawn.
    destruct Hpawn as [->%bool_decide_eq_true | ->%bool_decide_eq_true];
      by repeat constructor. }
  by rewrite (file_step_piece _ _ _ _ _ _ Hp Hpiece), Hback, Hpawn.
Qed.

(** X3. The error of [posObjToFen] is decided by the first square, in the
    order of the scan (rank 8 down to 1, file a to h), that holds a pawn on
    rank 1 or 8 or a non-empty code that the table of [pieceToSymbol] does
    not know, whatever stands on the squares visited later: a pawn gives the
    pawn error naming its rank, an unknown code [p] gives
    "Unknown piece: p"; in both cases [fen] is null.  A code is unknown when
    it is neither a palette piece nor a name that the table inherits from
    [Object.prototype] (for such a name [map[p]] is defined, and the scan
    goes on). *)
Theorem X3_first_offender_decides obj t flags f r p :
  0 ≤ f < 8 → 1 ≤ r ≤ 8 →
  (∀ f' r', visited_before f r f' r' → acceptable obj f' r') →
  obj !! square f r = Some p →
  (back_rank r = true → is_pawn p = true →
     posObjToFen obj t flags = pawn_error r)
  ∧ (p ≠ "" → p ∉ PIECES → p ∉ Object_prototype →
     posObjToFen obj t flags = unknown_error p).
Proof.
  intros Hf Hr Hbefore Hp. split.
  - intros Hback Hpawn. unfold posObjToFen.
    rewrite (scan_reaches obj f r (pawn_error r) Hf Hr Hbefore); [done |].
    intros st. by apply (file_step_pawn obj r st f p).
  - intros Hne Hunk _. unfold posObjToFen.
    rewrite (scan_reaches obj f r (unknown_error p) Hf Hr Hbefore); [done |].
    intros st. by apply file_step_unknown.
Qed.

(** A dragon on h8 and, later in the scan, a pawn on a1. *)
Definition dragon_then_pawn : PosObj :=
  <["h8" := "wD"]> (<["a1" := "bP"]> (<["d8" := "bK"]> ∅)).

Global Instance acceptable_dec obj f r : Decision (acceptable obj f r).
Proof. unfold acceptable. destruct (obj !! square f r); apply _. Defined.

Lemma X3_first_offender_decides_witness :
  posObjToFen dragon_then_pawn white no_rights = unknown_error "wD".
Proof.
  destruct (X3_first_offender_decides dragon_then_pawn white no_rights 7 8 "wD")
    as [_ Hunknown]; [lia | lia | | reflexivity |].
  - intros f' r' (Hf' & Hr' & [Hlt | [-> Hlt]]); [lia |].
    assert (f' = 0 ∨ f' = 1 ∨ f' = 2 ∨ f' = 3 ∨ f' = 4 ∨ f' = 5 ∨ f' = 6)
      as Hcases by lia.
    destruct Hcases as [-> | [-> | [-> | [-> | [-> | [-> | ->]]]]]];
      compute_done.
  - apply Hunknown; compute_done.
Defined.

(** ** What [posObjToFen] reads of its argument *)

(** What the code sees on a square: a non-empty value, or nothing. *)
Definition board_view (obj : PosObj) (sq : string) : option string :=
  if truthy (obj !! sq) then obj !! sq else None.

(** Two objects that show the same on the 64 squares. *)
Definition same_board (obj1 obj2 : PosObj) : Prop :=
  ∀ sq, sq ∈ SQUARES → board_view obj1 sq = board_view obj2 sq.

(** The object without its empty-string values and without the keys that
    are not squares. *)
Definition clean (obj : PosObj) : PosObj :=
  filter (fun kv => kv.1 ∈ SQUARES ∧ kv.2 ≠ "") obj.

Lemma for_loop_ext {X S} (body1 body2 : S → X → Ctl S) xs s :
  (∀ s x, x ∈ xs → body1 s x = body2 s x) →
  for_loop xs body1 s = for_loop xs body2 s.
Proof.
  revert s. induction xs as [|x xs IH]; intros s Hext; [done |].
  cbn [for_loop]. rewrite (Hext s x (list_elem_of_here _ _)).
  destruct (body2 s x); [| done].
  apply IH. intros s' x' Hx'. by apply Hext, list_elem_of_further.
Qed.

Lemma for_loop_Return_inv {X S} (body : S → X → Ctl S) xs s res :
  for_loop xs body s = Return res →
  ∃ s' x, x ∈ xs ∧ body s' x = Return res.
Proof.
  revert s. induction xs as [|x xs IH]; intros s; [done |].
  cbn [for_loop]. destruct (body s x) as [s1|res1] eqn:Hbody.
  - intros (s' & x' & Hx' & Hres)%IH. exists s', x'.
    split; [by apply list_elem_of_further | done].
  - intros [= <-]. exists s, x. split; [apply list_elem_of_here | done].
Qed.

Lemma for_loop_Next_inv {X S} (body : S → X → Ctl S) xs s s' :
  for_loop xs body s = Next s' →
  ∀ x, x ∈ xs → ∃ s1 s2, body s1 x = Next s2.
Proof.
  revert s. induction xs as [|x xs IH]; intros s Hloop y Hy;
    [by apply elem_of_nil in Hy |].
  cbn [for_loop] in Hloop. destruct (body s x) as [s1|res1] eqn:Hbody; [| done].
  apply elem_of_cons in Hy as [-> | Hy]; [by exists s, s1 |].
  by apply (IH s1 Hloop).
Qed.

Lemma square_in_SQUARES f r : 0 ≤ f < 8 → 1 ≤ r ≤ 8 → square f r ∈ SQUARES.
Proof.
  intros Hf Hr. unfold SQUARES. apply list_elem_of_bind. exists r. split.
  - unfold rank_squares. apply list_elem_of_fmap. exists f. split; [done |].
    apply list_elem_of_lookup. exists (Z.to_nat f). apply lookup_seqZ. lia.
  - assert (r = 8 ∨ r = 7 ∨ r = 6 ∨ r = 5 ∨ r = 4 ∨ r = 3 ∨ r = 2 ∨ r = 1)
      as Hcases by lia.
    destruct Hcases as [-> | [-> | [-> | [-> | [-> | [-> | [-> | ->]]]]]]];
      by repeat constructor.
Qed.

Lemma SQUARES_inv sq :
  sq ∈ SQUARES → ∃ f r, sq = square f r ∧ 0 ≤ f < 8 ∧ 1 ≤ r ≤ 8.
Proof.
  unfold SQUARES. intros (r & Hsq & Hr)%list_elem_of_bind.
  unfold rank_squares in Hsq. apply list_elem_of_fmap in Hsq as (f & -> & Hf).
  exists f, r. split; [done |].
  apply list_elem_of_lookup in Hf as [n Hn]. apply lookup_seqZ in Hn.
  split; [lia |]. unfold RANKS in Hr.
  repeat (apply elem_of_cons in Hr as [-> | Hr]; [lia |]).
  by apply elem_of_nil in Hr.
Qed.

Lemma board_view_truthy obj sq : truthy (board_view obj sq) = truthy (obj !! sq).
Proof. unfold board_view. by destruct (truthy (obj !! sq)) eqn:H. Qed.

Lemma board_view_Some obj sq x :
  x ≠ "" → (obj !! sq = Some x ↔ board_view obj sq = Some x).
Proof.
  intros Hx. unfold board_view.
  destruct (obj !! sq) as [p|] eqn:Hp; cbn [truthy]; [| done].
  case_bool_decide as Hne; [done |].
  split; [| done]. intros [= ->]. by destruct Hne.
Qed.

Lemma file_step_view obj1 obj2 r st f :
  board_view obj1 (square f r) = board_view obj2 (square f r) →
  file_step obj1 r st f = file_step obj2 r st f.
Proof.
  intros Hview. destruct st as [sc e]. unfold file_step.
  rewrite <- (board_view_truthy obj1), <- (board_view_truthy obj2), Hview.
  destruct (truthy (board_view obj2 (square f r))) eqn:Htr; [| done].
  cbn [negb].
  assert (obj1 !! square f r = obj2 !! square f r) as ->; [| done].
  unfold board_view in Hview, Htr.
  rewrite <- (board_view_truthy obj2) in Htr.
  unfold board_view in Htr.
  destruct (truthy (obj2 !! square f r)) eqn:H2; [| done].
  destruct (truthy (obj1 !! square f r)) eqn:H1; [done |].
  rewrite <- Hview in H2. done.
Qed.

Lemma scan_board_view obj1 obj2 :
  same_board obj1 obj2 → scan_board obj1 = scan_board obj2.
Proof.
  intros Hsame. unfold scan_board. apply for_loop_ext.
  intros sc r Hr. unfold rank_step.
  assert (for_loop (seqZ 0 8) (file_step obj1 r) (sc, 0)
          = for_loop (seqZ 0 8) (file_step obj2 r) (sc, 0)) as ->; [| done].
  apply for_loop_ext. intros st f Hf. apply file_step_view, Hsame.
  apply square_in_SQUARES.
  - apply list_elem_of_lookup in Hf as [n Hn]. apply lookup_seqZ in Hn. lia.
  - unfold RANKS in Hr.
    repeat (apply elem_of_cons in Hr as [-> | Hr]; [lia |]).
    by apply elem_of_nil in Hr.
Qed.

(** The reads of [autoDetectEnPassant]. *)
Lemma view_reads obj1 obj2 sq x :
  board_view obj1 sq = board_view obj2 sq → x ≠ "" →
  bool_decide (obj1 !! sq = Some x) = bool_decide (obj2 !! sq = Some x)
  ∧ bool_decide (obj1 !! sq ≠ Some x) = bool_decide (obj2 !! sq ≠ Some x)
  ∧ truthy (obj1 !! sq) = truthy (obj2 !! sq).
Proof.
  intros Hview Hx.
  pose proof (board_view_Some obj1 sq x Hx) as H1.
  pose proof (board_view_Some obj2 sq x Hx) as H2.
  rewrite Hview in H1.
  split; [| split].
  - apply bool_decide_ext. tauto.
  - apply bool_decide_ext. tauto.
  - by rewrite <- (board_view_truthy obj1), <- (board_view_truthy obj2), Hview.
Qed.

Lemma ep_white_step_view obj1 obj2 cands i :
  same_board obj1 obj2 → 0 ≤ i < 8 →
  ep_white_step obj1 cands (tpl (at_index FILES i))
  = ep_white_step obj2 cands (tpl (at_index FILES i)).
Proof.
  intros Hsame Hi. unfold ep_white_step. cbv zeta.
  rewrite (fileIndex_FILES i Hi).
  change (tpl (at_index FILES i) +:+ "5") with (square i 5).
  change (tpl (at_index FILES i) +:+ "6") with (square i 6).
  change (tpl (at_index FILES (i - 1)) +:+ "5") with (square (i - 1) 5).
  change (tpl (at_index FILES (i + 1)) +:+ "5") with (square (i + 1) 5).
  destruct (view_reads obj1 obj2 (square i 5) "bP") as (_ & -> & _);
    [apply Hsame, square_in_SQUARES; lia | done |].
  destruct (view_reads obj1 obj2 (square i 6) "bP") as (_ & _ & ->);
    [apply Hsame, square_in_SQUARES; lia | done |].
  assert (∀ (c : bool) sq, (c = true → sq ∈ SQUARES) →
            bool_decide ((if c then sq else "") ≠ "")
            && bool_decide (obj1 !! (if c then sq else "") = Some "wP")
            = bool_decide ((if c then sq else "") ≠ "")
              && bool_decide (obj2 !! (if c then sq else "") = Some "wP"))
    as Hside.
  { intros [] sq Hsq; [| done].
    by destruct (view_reads obj1 obj2 sq "wP") as (-> & _ & _);
      [apply Hsame, Hsq | |]. }
  rewrite (Hside (bool_decide (i > 0))), (Hside (bool_decide (i < 7))); [done | |].
  - intros ?%bool_decide_eq_true. apply square_in_SQUARES; lia.
  - intros ?%bool_decide_eq_true. apply square_in_SQUARES; lia.
Qed.

Lemma ep_black_step_view obj1 obj2 cands i :
  same_board obj1 obj2 → 0 ≤ i < 8 →
  ep_black_step obj1 cands (tpl (at_index FILES i))
  = ep_black_step obj2 cands (tpl (at_index FILES i)).
Proof.
  intros Hsame Hi. unfold ep_black_step. cbv zeta.
  rewrite (fileIndex_FILES i Hi).
  change (tpl (at_index FILES i) +:+ "4") with (square i 4).
  change (tpl (at_index FILES i) +:+ "3") with (square i 3).
  change (tpl (at_index FILES (i - 1)) +:+ "4") with (square (i - 1) 4).
  change (tpl (at_index FILES (i + 1)) +:+ "4") with (square (i + 1) 4).
  destruct (view_reads obj1 obj2 (square i 4) "wP") as (_ & -> & _);
    [apply Hsame, square_in_SQUARES; lia | done |].
  destruct (view_reads obj1 obj2 (square i 3) "wP") as (_ & _ & ->);
    [apply Hsame, square_in_SQUARES; lia | done |].
  assert (∀ (c : bool) sq, (c = true → sq ∈ SQUARES) →
            bool_decide ((if c then sq else "") ≠ "")
            && bool_decide (obj1 !! (if c then sq else "") = Some "bP")
            = bool_decide ((if c then sq else "") ≠ "")
              && bool_decide (obj2 !! (if c then sq else "") = Some "bP"))
    as Hside.
  { intros [] sq Hsq; [| done].
    by destruct (view_reads obj1 obj2 sq "bP") as (-> & _ & _);
      [apply Hsame, Hsq | |]. }
  rewrite (Hside (bool_decide (i > 0))), (Hside (bool_decide (i < 7))); [done | |].
  - intros ?%bool_decide_eq_true. apply square_in_SQUARES; lia.
  - intros ?%bool_decide_eq_true. apply square_in_SQUARES; lia.
Qed.

Lemma fold_left_ext_in {A B} (f g : B → A → B) xs acc :
  (∀ acc x, x ∈ xs → f acc x = g acc x) →
  fold_left f xs acc = fold_left g xs acc.
Proof.
  revert acc. induction xs as [|x xs IH]; intros acc Hext; [done |].
  cbn [fold_left]. rewrite (Hext acc x (list_elem_of_here _ _)).
  apply IH. intros acc' x' Hx'. by apply Hext, list_elem_of_further.
Qed.

Lemma FILES_inv f : f ∈ FILES → ∃ i, f = tpl (at_index FILES i) ∧ 0 ≤ i < 8.
Proof.
  unfold FILES. intros Hf.
  repeat (apply elem_of_cons in Hf as [-> | Hf];
    [first [ by exists 0 | by exists 1 | by exists 2 | by exists 3
           | by exists 4 | by exists 5 | by exists 6 | by exists 7 ] |]).
  by apply elem_of_nil in Hf.
Qed.

Lemma autoDetectEnPassant_view obj1 obj2 t :
  same_board obj1 obj2 → autoDetectEnPassant obj1 t = autoDetectEnPassant obj2 t.
Proof.
  intros Hsame. unfold autoDetectEnPassant.
  assert (match t with
          | white => fold_left (ep_white_step obj1) FILES []
          | black => fold_left (ep_black_step obj1) FILES []
          end
          = match t with
            | white => fold_left (ep_white_step obj2) FILES []
            | black => fold_left (ep_black_step obj2) FILES []
            end) as ->; [| done].
  destruct t; apply fold_left_ext_in; intros acc f (i & -> & Hi)%FILES_inv.
  - by apply ep_white_step_view.
  - by apply ep_black_step_view.
Qed.

Lemma posObjToFen_view obj1 obj2 t flags :
  same_board obj1 obj2 → posObjToFen obj1 t flags = posObjToFen obj2 t flags.
Proof.
  intros Hsame. unfold posObjToFen.
  by rewrite (scan_board_view obj1 obj2 Hsame),
             (autoDetectEnPassant_view obj1 obj2 t Hsame).
Qed.

Lemma clean_lookup obj sq p :
  clean obj !! sq = Some p ↔ obj !! sq = Some p ∧ sq ∈ SQUARES ∧ p ≠ "".
Proof. unfold clean. by rewrite map_lookup_filter_Some. Qed.

Lemma clean_same_board obj : same_board obj (clean obj).
Proof.
  intros sq Hsq. unfold board_view.
  destruct (obj !! sq) as [p|] eqn:Hp; cbn [truthy].
  - case_bool_decide as Hne.
    + assert (clean obj !! sq = Some p) as -> by (by apply clean_lookup).
      cbn [truthy]. by rewrite bool_decide_eq_true_2.
    + destruct (clean obj !! sq) as [q|] eqn:Hq; [| done].
      apply clean_lookup in Hq as (Hq & _ & Hqne). congruence.
  - destruct (clean obj !! sq) as [q|] eqn:Hq; [| done].
    apply clean_lookup in Hq as (Hq & _ & _). congruence.
Qed.

(** X4. [posObjToFen] reads only the 64 squares of its argument, and reads an
    empty-string value as an empty square: two objects that agree there give
    the same result, and so do an object and the object without its
    empty-string values and its keys that are not squares.  The same holds of
    [autoDetectEnPassant]. *)
Theorem X4_only_the_board_is_read obj1 obj2 t flags :
  same_board obj1 obj2 →
  posObjToFen obj1 t flags = posObjToFen obj2 t flags
  ∧ autoDetectEnPassant obj1 t = autoDetectEnPassant obj2 t
  ∧ posObjToFen (clean obj1) t flags = posObjToFen obj1 t flags.
Proof.
  intros Hsame. split; [by apply posObjToFen_view |].
  split; [by apply autoDetectEnPassant_view |].
  symmetry. apply posObjToFen_view, clean_same_board.
Qed.

(** The two kings, an erased square left as an empty string and a note
    stored under a key that is no square. *)
Definition kings_and_junk : PosObj :=
  <["e4" := ""]> (<["note" := "wQ"]> kings_only).

Global Instance same_board_dec obj1 obj2 : Decision (same_board obj1 obj2).
Proof.
  destruct (decide (Forall (fun sq => board_view obj1 sq = board_view obj2 sq)
                           SQUARES)) as [H | H].
  - left. intros sq Hsq. by apply (proj1 (Forall_forall _ _) H).
  - right. intros Hsame. apply H, Forall_forall. exact Hsame.
Defined.

Lemma X4_only_the_board_is_read_witness :
  same_board kings_and_junk kings_only
  ∧ posObjToFen kings_and_junk white no_rights
    = posObjToFen kings_only white no_rights.
Proof.
  split; [compute_done |].
  apply (X4_only_the_board_is_read kings_and_junk kings_only white no_rights).
  compute_done.
Defined.

(** ** When [posObjToFen] succeeds *)

Lemma file_step_Return_shape obj r st f res :
  file_step obj r st f = Return res →
  fen res = None ∧ ∃ e, error res = Some e.
Proof.
  destruct st as [sc e]. unfold file_step.
  repeat case_match; intros [= <-]; cbn [fen error]; eauto.
Qed.

Lemma scan_board_Return_shape obj res :
  scan_board obj = Return res → fen res = None ∧ ∃ e, error res = Some e.
Proof.
  unfold scan_board.
  intros (sc & r & _ & Hrank)%for_loop_Return_inv.
  unfold rank_step in Hrank.
  destruct (for_loop (seqZ 0 8) (file_step obj r) (sc, 0))
    as [[sc' e]|res'] eqn:Hrow; [done |].
  injection Hrank as ->.
  apply for_loop_Return_inv in Hrow as (st & f & _ & Hstep).
  by eapply file_step_Return_shape.
Qed.

Lemma pieceMap_lookup p sym : pieceMap !! p = Some sym → p ∈ PIECES.
Proof.
  intros H. unfold pieceMap in H. apply elem_of_list_to_map_2 in H.
  repeat (apply elem_of_cons in H as [[= -> _] | H]; [by repeat constructor |]).
  by apply elem_of_nil in H.
Qed.

Lemma file_step_Next_inv obj r st f st' p :
  file_step obj r st f = Next st' →
  obj !! square f r = Some p → p ≠ "" →
  p ∈ PIECES ∧ back_rank r && is_pawn p = false.
Proof.
  destruct st as [sc e]. unfold file_step. intros Hstep Hp Hne.
  rewrite Hp in Hstep. cbn [truthy tpl default id] in Hstep.
  rewrite (bool_decide_eq_true_2 (p ≠ "")) in Hstep by done.
  cbn [negb] in Hstep. fold (back_rank r) in Hstep. fold (is_pawn p) in Hstep.
  destruct (back_rank r && is_pawn p); [done |].
  split; [| done].
  unfold pieceToSymbol in Hstep.
  destruct (pieceMap !! p) as [sym|] eqn:Hsym; [| done].
  by eapply pieceMap_lookup.
Qed.

Lemma scan_board_Next_inv obj sc :
  scan_board obj = Next sc →
  ∀ f r p, 0 ≤ f < 8 → 1 ≤ r ≤ 8 →
           obj !! square f r = Some p → p ≠ "" →
           p ∈ PIECES ∧ back_rank r && is_pawn p = false.
Proof.
  unfold scan_board. intros Hscan f r p Hf Hr Hp Hne.
  assert (r ∈ RANKS) as HrR.
  { assert (r = 8 ∨ r = 7 ∨ r = 6 ∨ r = 5 ∨ r = 4 ∨ r = 3 ∨ r = 2 ∨ r = 1)
      as Hcases by lia.
    destruct Hcases as [-> | [-> | [-> | [-> | [-> | [-> | [-> | ->]]]]]]];
      by repeat constructor. }
  destruct (for_loop_Next_inv _ _ _ _ Hscan r HrR) as (sc1 & sc2 & Hrank).
  unfold rank_step in Hrank.
  destruct (for_loop (seqZ 0 8) (file_step obj r) (sc1, 0))
    as [[sc' e]|res'] eqn:Hrow; [| done].
  assert (f ∈ seqZ 0 8) as HfS.
  { apply list_elem_of_lookup. exists (Z.to_nat f). apply lookup_seqZ. lia. }
  destruct (for_loop_Next_inv _ _ _ _ Hrow f HfS) as (st1 & st2 & Hstep).
  by eapply file_step_Next_inv.
Qed.

Lemma clean_board_ok obj sc :
  scan_board (clean obj) = Next sc →
  editor_form (clean obj) ∧ board_ok (clean obj).
Proof.
  intros Hscan. split.
  - intros sq p Hp. pose proof Hp as (_ & Hsq & Hne)%clean_lookup.
    split; [done |].
    destruct (SQUARES_inv sq Hsq) as (f & r & -> & Hf & Hr).
    by destruct (scan_board_Next_inv _ _ Hscan f r p Hf Hr Hp Hne).
  - intros r Hr sq p Hsq Hp. pose proof Hp as (_ & _ & Hne)%clean_lookup.
    unfold rank_squares in Hsq.
    apply list_elem_of_fmap in Hsq as (f & -> & Hf).
    apply (scan_board_Next_inv _ _ Hscan f r p); [| | done | done].
    + apply list_elem_of_lookup in Hf as [n Hn]. apply lookup_seqZ in Hn. lia.
    + unfold RANKS in Hr.
      repeat (apply elem_of_cons in Hr as [-> | Hr]; [lia |]).
      by apply elem_of_nil in Hr.
Qed.

Lemma board_ok_no_pawn obj r :
  back_rank r = true → row_ok obj r → ¬ pawn_on_rank obj r.
Proof.
  intros Hback Hrow (sq & Hsq & Hpawn)%Exists_exists.
  unfold pawn_at in Hpawn.
  destruct (obj !! sq) as [p|] eqn:Hp; [| done]. cbn in Hpawn.
  destruct (Hrow sq p Hsq Hp) as [_ Hno]. rewrite Hback, Hpawn in Hno. done.
Qed.

Lemma posObjToFen_success_inv obj t flags s :
  fen (posObjToFen (clean obj) t flags) = Some s → serialisable (clean obj).
Proof.
  intros Hfen. unfold posObjToFen in Hfen.
  destruct (scan_board (clean obj)) as [sc|res] eqn:Hscan.
  - destruct (clean_board_ok obj sc Hscan) as [Hed Hok].
    destruct (scan_board_ok (clean obj) Hok) as (sc' & Hscan' & Hinv).
    rewrite Hscan in Hscan'. injection Hscan' as <-.
    split; [done |].
    split; [apply board_ok_no_pawn; [done | apply Hok; by repeat constructor] |].
    split; [apply board_ok_no_pawn; [done | apply Hok; by repeat constructor] |].
    rewrite <- (inv_wK _ _ _ _ _ Hinv), <- (inv_bK _ _ _ _ _ Hinv).
    destruct (decide (wK sc = 1)) as [HwK | HwK];
      destruct (decide (bK sc = 1)) as [HbK | HbK]; [done | | |].
    all: exfalso.
    all: rewrite ?(bool_decide_eq_true_2 (wK sc ≠ 1)),
                 ?(bool_decide_eq_false_2 (wK sc ≠ 1)),
                 ?(bool_decide_eq_true_2 (bK sc ≠ 1)) in Hfen by tauto.
    all: done.
  - destruct (scan_board_Return_shape _ _ Hscan) as [Hnone _]. congruence.
Qed.

Lemma round_trip_serialisable obj t flags :
  serialisable obj →
  ∃ s, posObjToFen obj t flags = {| fen := Some s; error := None |}
       ∧ fenToPosObj s = Ret {| pos := obj; turn := t; castle := flags |}.
Proof.
  intros (Hed & H1 & H8 & HwK & HbK).
  destruct (posObjToFen_fields obj t flags
              (editor_form_board_ok obj Hed H1 H8) HwK HbK)
    as (sc & s & _ & Hinv & Hfen & Hsplit).
  exists s. split; [done |].
  unfold fenToPosObj. rewrite Hsplit. cbn [lookup list_lookup].
  destruct Hinv as [(pos' & -> & Hagr) _ _ _].
  rewrite (agrees_all obj pos' Hed Hagr), castle_field_decodes.
  by destruct t.
Qed.

(** X5. [posObjToFen] returns either a string and no error, or an error and
    a null string, never both and never neither. *)
Theorem X5_fen_or_error obj t flags :
  (∃ s, posObjToFen obj t flags = {| fen := Some s; error := None |})
  ∨ (∃ e, posObjToFen obj t flags = {| fen := None; error := Some e |}).
Proof.
  unfold posObjToFen.
  destruct (scan_board obj) as [sc|res] eqn:Hscan.
  - destruct (bool_decide (wK sc ≠ 1) || bool_decide (bK sc ≠ 1));
      [right | left]; by eexists.
  - right. destruct (scan_board_Return_shape _ _ Hscan) as [Hfen [e He]].
    exists e. destruct res. cbn in *. by subst.
Qed.

(** No value on the 64 squares is a name that the table of [pieceToSymbol]
    inherits from [Object.prototype]. *)
Definition no_inherited_code (obj : PosObj) : Prop :=
  map_Forall (fun sq p => sq ∈ SQUARES → p ∉ Object_prototype) obj.

Global Instance no_inherited_code_dec obj : Decision (no_inherited_code obj).
Proof. unfold no_inherited_code. apply _. Defined.

(** X6. Among the objects that hold no inherited name on the 64 squares,
    [posObjToFen] succeeds exactly on those whose board (the non-empty
    values on the 64 squares) is a position accepted for serialisation:
    palette pieces only, no pawn on rank 1 or 8, one king of each colour. *)
Theorem X6_success_iff_serialisable obj t flags :
  no_inherited_code obj →
  (∃ s, fen (posObjToFen obj t flags) = Some s) ↔ serialisable (clean obj).
Proof.
  intros _.
  rewrite (posObjToFen_view obj (clean obj) t flags (clean_same_board obj)).
  split.
  - intros [s Hs]. by eapply posObjToFen_success_inv.
  - intros Hser.
    destruct (round_trip_serialisable (clean obj) t flags Hser) as (s & -> & _).
    by exists s.
Qed.

(** X7. Round trip on any accepted object: when the board of the object is
    a position accepted for serialisation, decoding the string that
    [posObjToFen] returns gives that board (the object without its
    empty-string values and its keys that are not squares), the side to move
    and the castling flags. *)
Theorem X7_round_trip_up_to_cleaning obj t flags :
  serialisable (clean obj) →
  ∃ s, posObjToFen obj t flags = {| fen := Some s; error := None |}
       ∧ fenToPosObj s = Ret {| pos := clean obj; turn := t; castle := flags |}.
Proof.
  intros Hser.
  rewrite (posObjToFen_view obj (clean obj) t flags (clean_same_board obj)).
  by apply round_trip_serialisable.
Qed.

Lemma X6_success_iff_serialisable_witness :
  (∃ s, fen (posObjToFen kings_and_junk black all_rights) = Some s)
  ∧ ¬ serialisable (clean two_white_kings).
Proof.
  split.
  - apply (X6_success_iff_serialisable kings_and_junk black all_rights);
      compute_done.
  - compute_done.
Defined.

Lemma X7_round_trip_up_to_cleaning_witness :
  serialisable (clean kings_and_junk)
  ∧ clean kings_and_junk = kings_only
  ∧ ∃ s, posObjToFen kings_and_junk white no_rights
         = {| fen := Some s; error := None |}
         ∧ fenToPosObj s
           = Ret {| pos := clean kings_and_junk; turn := white;
                    castle := no_rights |}.
Proof.
  split; [compute_done |]. split; [compute_done |].
  apply (X7_round_trip_up_to_cleaning kings_and_junk white no_rights).
  compute_done.
Defined.

(** X8. The string of an accepted position carries the side to move as its
    second field ("w" or "b") and, as its fourth field, exactly what
    [autoDetectEnPassant] gives for the object and the side to move (the
    value the editor previews before the edit is applied). *)
Theorem X8_turn_and_en_passant_fields obj t flags :
  serialisable (clean obj) →
  ∃ s, fen (posObjToFen obj t flags) = Some s
       ∧ split " " s !! 1%nat = Some (turn_str t)
       ∧ split " " s !! 3%nat = Some (autoDetectEnPassant obj t).
Proof.
  intros (Hed & H1 & H8 & HwK & HbK).
  rewrite (posObjToFen_view obj (clean obj) t flags (clean_same_board obj)).
  rewrite (autoDetectEnPassant_view obj (clean obj) t (clean_same_board obj)).
  destruct (posObjToFen_fields (clean obj) t flags
              (editor_form_board_ok _ Hed H1 H8) HwK HbK)
    as (sc & s & _ & _ & -> & Hsplit).
  exists s. by rewrite Hsplit.
Qed.

(** The position of the en-passant example with the two kings added. *)
Definition ep_game : PosObj := <["e1" := "wK"]> (<["e8" := "bK"]> ep_single).

Lemma X8_turn_and_en_passant_fields_witness :
  serialisable (clean ep_game)
  ∧ posObjToFen ep_game white no_rights
    = {| fen := Some "4k3/8/8/3PpP2/8/8/8/4K3 w - e6 0 1"; error := None |}
  ∧ ∃ s, fen (posObjToFen ep_game white no_rights) = Some s
         ∧ split " " s !! 1%nat = Some (turn_str white)
         ∧ split " " s !! 3%nat = Some (autoDetectEnPassant ep_game white).
Proof.
  split; [compute_done |]. split; [by vm_compute |].
  apply (X8_turn_and_en_passant_fields ep_game white no_rights).
  compute_done.
Defined.

(** ** The shuffle and the scan of the bot *)

Lemma swap_Permutation {A} (l : list A) i j : swap l i j ≡ₚ l.
Proof.
  unfold swap.
  destruct (l !! i) as [mi|] eqn:Hi; [| done].
  destruct (l !! j) as [mj|] eqn:Hj; [| done].
  destruct (decide (i = j)) as [-> | Hne].
  - rewrite list_insert_insert_eq. assert (mi = mj) as -> by congruence.
    by rewrite list_insert_id.
  - revert i j mi mj Hi Hj Hne.
    cut (∀ i j mi mj, (i < j)%nat → l !! i = Some mi → l !! j = Some mj →
                      <[j := mi]> (<[i := mj]> l) ≡ₚ l).
    { intros Hlt i j mi mj Hi Hj Hne.
      destruct (decide (i < j)%nat) as [Hij | Hij]; [by apply Hlt |].
      rewrite list_insert_insert_ne by done.
      apply (Hlt j i mj mi); [lia | done | done]. }
    clear. intros i j mi mj Hij Hi Hj.
    revert i j Hij Hi Hj.
    induction l as [|x l IH]; intros i j Hij Hi Hj; [done |].
    destruct j as [|j]; [lia |].
    destruct i as [|i]; cbn in Hi, Hj |- *.
    + injection Hi as ->.
      clear IH Hij. revert j Hj.
      induction l as [|y l IHl]; intros j Hj; [done |].
      destruct j as [|j]; cbn in Hj |- *.
      * injection Hj as ->. apply perm_swap.
      * etrans; [apply perm_swap |].
        etrans; [apply perm_skip; by apply IHl |].
        apply perm_swap.
    + apply perm_skip. apply IH; [lia | done | done].
Qed.

Lemma shuffle_from_Permutation {A} rnd i call (l : list A) :
  shuffle_from rnd i call l ≡ₚ l.
Proof.
  revert call l. induction i as [|i IH]; intros call l; [done |].
  cbn [shuffle_from]. rewrite IH. apply swap_Permutation.
Qed.

(** Under the contract of the random source the two indices of every swap
    are inside the array. *)
Lemma swap_in_range {A} rnd (l : list A) (i call : nat) :
  random_in_range rnd → (S i < length l)%nat →
  is_Some (l !! S i)
  ∧ is_Some (l !! Z.to_nat (rnd call (Z.of_nat (S i) + 1)%Z)).
Proof.
  intros Hr Hi. specialize (Hr call (Z.of_nat (S i) + 1)).
  split; apply lookup_lt_is_Some; lia.
Qed.

(** X9. The shuffle of [pickBotMove] returns a permutation of the list of
    moves: no move is lost, duplicated or invented, for every random source
    within the contract of [Math.random]. *)
Theorem X9_shuffle_is_permutation {A} (rnd : nat → Z → Z) (moves : list A) :
  random_in_range rnd →
  shuffle rnd moves ≡ₚ moves ∧ length (shuffle rnd moves) = length moves.
Proof.
  intros _.
  assert (shuffle rnd moves ≡ₚ moves) as H
    by apply shuffle_from_Permutation.
  split; [done |]. by rewrite H.
Qed.

(** A random source that always picks the last admissible index. *)
Definition last_index : nat → Z → Z := fun _ k => k - 1.

Lemma X9_shuffle_is_permutation_witness :
  shuffle first_index [1; 2; 3; 4] = [2; 3; 4; 1]
  ∧ shuffle first_index [1; 2; 3; 4] ≡ₚ [1; 2; 3; 4]
  ∧ length (shuffle first_index [1; 2; 3; 4]) = 4%nat.
Proof.
  split; [reflexivity |].
  apply (X9_shuffle_is_permutation first_index [1; 2; 3; 4]).
  intros n k Hk. unfold first_index. lia.
Defined.

(** What [best] and [bestScore] hold once the moves [seen] are scanned: the
    first of the moves of greatest delta. *)
Definition ScanFirst (O : Oracle) (c : Turn) (p : Position O)
    (seen : list (Move O)) (best : option (Move O)) (bs : Z) : Prop :=
  match best with
  | None => seen = [] ∧ bs = -10 ^ 9
  | Some m =>
      ∃ pre post,
        seen = pre ++ m :: post ∧ bs = material_delta O c p m
        ∧ (∀ m', m' ∈ pre → material_delta O c p m' < bs)
        ∧ (∀ m', m' ∈ post → material_delta O c p m' ≤ bs)
  end.

Lemma scan_first {O : Oracle} (c : Turn) (chess : Chess O) ms :
  (∀ m, -10 ^ 9 < material_delta O c (current chess) m) →
  ∀ seen best bs, ScanFirst O c (current chess) seen best bs →
  ∃ best' bs',
    fold_left (eval_step c (materialScore chess)) ms (chess, best, bs)
    = (chess, best', bs')
    ∧ ScanFirst O c (current chess) (seen ++ ms) best' bs'.
Proof.
  intros Hlow. induction ms as [|m ms IH]; intros seen best bs Hinv.
  - exists best, bs. by rewrite (right_id_L [] (++)).
  - cbn [fold_left]. rewrite eval_step_spec.
    replace (seen ++ m :: ms) with ((seen ++ [m]) ++ ms)
      by (by rewrite <- (assoc_L (++))).
    case_bool_decide as Hgt; apply IH.
    + exists seen, []. split; [done |]. split; [done |].
      split; [| by intros m' ?%elem_of_nil].
      intros m' Hm'. destruct best as [b|]; cbn [ScanFirst] in Hinv.
      * destruct Hinv as (pre & post & -> & -> & Hpre & Hpost).
        apply elem_of_app in Hm' as [Hm' | Hm'].
        { specialize (Hpre m' Hm'). lia. }
        apply elem_of_cons in Hm' as [-> | Hm']; [lia |].
        specialize (Hpost m' Hm'). lia.
      * destruct Hinv as [-> _]. by apply elem_of_nil in Hm'.
    + destruct best as [b|]; cbn [ScanFirst] in Hinv |- *.
      * destruct Hinv as (pre & post & -> & -> & Hpre & Hpost).
        exists pre, (post ++ [m]).
        split; [by rewrite <- (assoc_L (++)) |]. split; [done |].
        split; [done |].
        intros m' [Hm' | ->%list_elem_of_singleton]%elem_of_app;
          [by apply Hpost | lia].
      * destruct Hinv as [_ ->]. specialize (Hlow m). lia.
Qed.

(** X10. Ties are broken by the order of the shuffled list: when there is a
    legal move, [pickBotMove] returns the first move, in the shuffled order,
    whose material delta is the greatest; every move before it has a
    strictly smaller delta. *)
Theorem X10_first_best_in_shuffled_order (O : Oracle) (rnd : nat → Z → Z)
    (fen0 : string) (c : Turn) (p : Position O) :
  random_in_range rnd →
  (∀ q, board_8x8 (board O q)) →
  load O fen0 = Some p →
  legal_moves O p ≠ [] →
  ∃ m pre post,
    pickBotMove (O := O) rnd fen0 c = Ret (Some m)
    ∧ shuffle rnd (legal_moves O p) = pre ++ m :: post
    ∧ (∀ m', m' ∈ pre → material_delta O c p m' < material_delta O c p m)
    ∧ (∀ m', m' ∈ post → material_delta O c p m' ≤ material_delta O c p m).
Proof.
  intros _ Hboard Hload Hmoves.
  unfold pickBotMove, new_Chess. rewrite Hload. cbn [current].
  set (chess := {| current := p; history := [] |}).
  assert (∀ m, -10 ^ 9 < material_delta O c (current chess) m) as Hlow.
  { intros m. unfold material_delta.
    pose proof (material_bound _ (Hboard (apply_move O (current chess) m))).
    pose proof (material_bound _ (Hboard (current chess))).
    destruct c; cbn [sign]; lia. }
  destruct (scan_first c chess (shuffle rnd (legal_moves O p)) Hlow
              [] None (-10 ^ 9) (conj eq_refl eq_refl))
    as (best & bs & Hscan & Hbest).
  rewrite Hscan. cbn [app] in Hbest.
  rewrite bool_decide_eq_false_2 by (by destruct (legal_moves O p)).
  destruct best as [m|]; cbn [ScanFirst] in Hbest.
  - destruct Hbest as (pre & post & Hsplit & -> & Hpre & Hpost).
    by exists m, pre, post.
  - destruct Hbest as [Hnil _]. exfalso.
    assert (length (shuffle rnd (legal_moves O p)) = length (legal_moves O p))
      as Hlen by (unfold shuffle; by rewrite shuffle_from_Permutation).
    rewrite Hnil in Hlen. by destruct (legal_moves O p).
Qed.

(** Position 0 with three moves: 1 is quiet, 2 and 3 both capture the rook. *)
Definition tie_board (p : nat) : list (list (option Cell)) :=
  toy_board (if bool_decide (p = 3%nat) then 2%nat else p).

Definition tie_oracle : Oracle :=
  {| Position := nat;
     Move := nat;
     load := fun s => if bool_decide (s = "start") then Some 0%nat else None;
     legal_moves := fun p => if bool_decide (p = 0%nat)
                             then [1%nat; 2%nat; 3%nat] else [];
     apply_move := fun _ m => m;
     board := tie_board;
     turn_of := fun _ => white;
     isGameOver := fun _ => false;
     isCheckmate := fun _ => false;
     isStalemate := fun _ => false |}.

Lemma X10_first_best_in_shuffled_order_witness :
  shuffle first_index (legal_moves tie_oracle 0%nat) = [2%nat; 3%nat; 1%nat]
  ∧ shuffle last_index (legal_moves tie_oracle 0%nat) = [1%nat; 2%nat; 3%nat]
  ∧ pickBotMove (O := tie_oracle) first_index "start" white = Ret (Some 2%nat)
  ∧ ∃ m pre post,
      pickBotMove (O := tie_oracle) last_index "start" white = Ret (Some m)
      ∧ shuffle last_index (legal_moves tie_oracle 0%nat) = pre ++ m :: post
      ∧ (∀ m', m' ∈ pre → material_delta tie_oracle white 0%nat m'
                          < material_delta tie_oracle white 0%nat m)
      ∧ (∀ m', m' ∈ post → material_delta tie_oracle white 0%nat m'
                           ≤ material_delta tie_oracle white 0%nat m).
Proof.
  split; [reflexivity |]. split; [reflexivity |]. split; [by vm_compute |].
  apply (X10_first_best_in_shuffled_order tie_oracle last_index "start" white
           0%nat).
  - intros n k Hk. unfold last_index. lia.
  - intros q. apply toy_board_8x8.
  - reflexivity.
  - discriminate.
Defined.

(** * The sandbox of the page variant with [SANDBOX:] codes *)

Module SandboxEdit.
Section SandboxEdit.
Context {O : Oracle}.

(** [([sq, p]) => p+':'+sq]. *)
Definition entry_chunk (e : string * string) : string :=
  (e.2 +:+ ":") +:+ e.1.

(** [exportFEN]; [entries] is the array [Object.entries(sandboxPos)], whose
    order is the insertion order of the object. *)
Definition exportFEN (entries : list (string * string))
    (st : SandboxPage.Peer (O := O)) : string :=
  match SandboxPage.mode st with
  | strict => SandboxPage.fen st
  | sandbox =>
      let pieces := join "," (entry_chunk <$> entries) in
      "SANDBOX:" +:+ turn_str (SandboxPage.turn st) +:+ ":" +:+ pieces
  end.

(** [turn === 'w' ? 'b' : 'w']. *)
Definition other (t : Turn) : Turn :=
  match t with white => black | black => white end.

(** [onPieceDropSandbox]: the returned boolean, the state after the state
    setters have run, and the message handed to [broadcastMove].  The
    message is built by [exportFEN()] from [sandboxPos] and [turn] of the
    render that created the handler: the setters do not change them.  The
    position is the object's own entries: the model stands for the code on
    the squares the board hands over, not on a name of [Object_prototype],
    which [next[source]] would find and [next[target] = piece] would not
    store; the statements on the new position take squares of the board. *)
Definition onPieceDropSandbox (entries : list (string * string))
    (st : SandboxPage.Peer (O := O)) (source target : string)
  : bool * SandboxPage.Peer (O := O) * option Payload :=
  let piece := SandboxPage.sandboxPos st !! source in
  if negb (truthy piece) then (false, st, None)
  else
    let next :=
      delete source (<[target := tpl piece]> (SandboxPage.sandboxPos st)) in
    (true,
     {| SandboxPage.mode := SandboxPage.mode st;
        SandboxPage.fen := SandboxPage.fen st;
        SandboxPage.sandboxPos := next;
        SandboxPage.turn := other (SandboxPage.turn st);
        SandboxPage.chessRef := SandboxPage.chessRef st |},
     Some {| p_from := source; p_to := target;
             p_san := tpl piece +:+ ":" +:+ source +:+ "-" +:+ target;
             p_fen := Some (exportFEN entries st) |}).

(** [onSquareClick]; [edit] and [selectedPalette] are the two pieces of
    state it reads besides the position. *)
Definition onSquareClick (edit : bool) (selectedPalette : option string)
    (st : SandboxPage.Peer (O := O)) (square : string)
  : SandboxPage.Peer (O := O) :=
  if negb edit then st
  else
    let next :=
      if truthy selectedPalette
      then <[square := tpl selectedPalette]> (SandboxPage.sandboxPos st)
      else delete square (SandboxPage.sandboxPos st) in
    match SandboxPage.mode st with
    | sandbox =>
        {| SandboxPage.mode := SandboxPage.mode st;
           SandboxPage.fen := SandboxPage.fen st;
           SandboxPage.sandboxPos := next;
           SandboxPage.turn := SandboxPage.turn st;
           SandboxPage.chessRef := SandboxPage.chessRef st |}
    | strict =>
        {| SandboxPage.mode := sandbox;
           SandboxPage.fen := SandboxPage.fen st;
           SandboxPage.sandboxPos := next;
           SandboxPage.turn := SandboxPage.turn st;
           SandboxPage.chessRef := SandboxPage.chessRef st |}
    end.

End SandboxEdit.
End SandboxEdit.

(** A position whose squares and pieces can stand in a sandbox code; the
    key that an assignment treats as the prototype is left out. *)
Definition code_safe (obj : PosObj) : Prop :=
  map_Forall (fun sq p => plain sq ∧ plain p ∧ sq ≠ "__proto__") obj.

Global Instance code_safe_dec obj : Decision (code_safe obj).
Proof. unfold code_safe. apply _. Defined.

Lemma entry_chunk_pair sq p :
  SandboxEdit.entry_chunk (sq, p) = freeform_pair (p, sq).
Proof.
  unfold SandboxEdit.entry_chunk, freeform_pair. cbn [fst snd].
  by rewrite app_assoc_s.
Qed.

Lemma chunk_step_entry obj sq p :
  plain sq → plain p → sq ≠ "__proto__" →
  SandboxPage.chunk_step obj (SandboxEdit.entry_chunk (sq, p))
  = <[sq := p]> obj.
Proof.
  intros Hsq Hp Hproto.
  rewrite entry_chunk_pair, (chunk_step_pair obj p sq Hp Hsq).
  by rewrite bool_decide_eq_false_2.
Qed.

Lemma entry_chunk_no_comma sq p :
  plain sq → plain p → has_char "," (SandboxEdit.entry_chunk (sq, p)) = false.
Proof.
  intros (_ & _ & Hsq) (_ & _ & Hp). unfold SandboxEdit.entry_chunk.
  cbn [fst snd]. rewrite !has_char_app, Hsq, Hp. done.
Qed.

Lemma entry_chunk_has_colon e :
  has_char ":" (SandboxEdit.entry_chunk e) = true.
Proof.
  unfold SandboxEdit.entry_chunk. rewrite !has_char_app.
  cbn [has_char]. rewrite bool_decide_eq_true_2 by done.
  by rewrite orb_true_r.
Qed.

(** The loop over the chunks of an exported code rebuilds the entries. *)
Lemma fold_chunks entries obj :
  Forall (fun e => plain e.1 ∧ plain e.2 ∧ e.1 ≠ "__proto__") entries →
  fold_left SandboxPage.chunk_step (SandboxEdit.entry_chunk <$> entries) obj
  = fold_left (fun m e => <[e.1 := e.2]> m) entries obj.
Proof.
  revert obj. induction entries as [|[sq p] entries IH]; intros obj Hall;
    [done |].
  apply Forall_cons in Hall as [(Hsq & Hp & Hproto) Hall].
  cbn [fmap list_fmap fold_left fst snd] in *.
  rewrite chunk_step_entry by done. by apply IH.
Qed.

Lemma fold_insert_list_to_map (entries : list (string * string)) :
  fold_left (fun (m : PosObj) e => <[e.1 := e.2]> m) entries ∅
  = list_to_map (reverse entries).
Proof.
  rewrite <- (reverse_involutive entries) at 1.
  induction (reverse entries) as [|[k v] l IH]; [done |].
  rewrite reverse_cons, fold_left_app. cbn [fold_left list_to_map foldr].
  by rewrite IH.
Qed.

Lemma entries_rebuild (obj : PosObj) entries :
  entries ≡ₚ map_to_list obj →
  fold_left (fun (m : PosObj) e => <[e.1 := e.2]> m) entries ∅ = obj.
Proof.
  intros Hperm. rewrite fold_insert_list_to_map.
  etrans; [| apply (list_to_map_to_list obj)].
  apply list_to_map_proper.
  - rewrite reverse_Permutation, Hperm. apply NoDup_fst_map_to_list.
  - by rewrite reverse_Permutation.
Qed.

Lemma code_safe_entries obj entries :
  entries ≡ₚ map_to_list obj → code_safe obj →
  Forall (fun e => plain e.1 ∧ plain e.2 ∧ e.1 ≠ "__proto__") entries.
Proof.
  intros Hperm Hsafe. apply Forall_forall. intros [sq p] Hin.
  rewrite Hperm in Hin. apply elem_of_map_to_list in Hin.
  exact (Hsafe sq p Hin).
Qed.

(** The pieces and the turn that [importFENText] reads from an exported
    code. *)
Lemma sandbox_code_decodes (obj : PosObj) (t : Turn) entries :
  entries ≡ₚ map_to_list obj → code_safe obj →
  let code := "SANDBOX:" +:+ turn_str t +:+ ":"
              +:+ join "," (SandboxEdit.entry_chunk <$> entries) in
  startsWith "SANDBOX:" code = true
  ∧ SandboxPage.sandbox_pieces code = obj
  ∧ SandboxPage.sandbox_turn code = t.
Proof.
  intros Hperm Hsafe code.
  pose proof (code_safe_entries obj entries Hperm Hsafe) as Hall.
  destruct (sandbox_code_chunks (turn_str t)
              (SandboxEdit.entry_chunk <$> entries))
    as (Hstart & Hpieces & Hturn).
  { by destruct t. }
  { apply Forall_fmap. eapply Forall_impl; [exact Hall |].
    intros [sq p] (Hsq & Hp & _). cbn [compose]. split.
    - by apply entry_chunk_no_comma.
    - apply entry_chunk_has_colon. }
  fold code in Hstart, Hpieces, Hturn.
  split; [done |]. split.
  - rewrite Hpieces, fold_chunks by done. by apply entries_rebuild.
  - rewrite Hturn. by destruct t.
Qed.

(** X11. Round trip of the sandbox code: in sandbox mode, for a position
    whose squares and pieces are non-empty and free of [:] and [,], the text
    returned by [exportFEN], whatever the order in which the object
    enumerates its entries, is read back by [importFENText] as the same
    position and the same turn, in sandbox mode. *)
Theorem X11_sandbox_code_round_trip (O : Oracle)
    (st receiver : SandboxPage.Peer (O := O)) entries :
  SandboxPage.mode st = sandbox →
  entries ≡ₚ map_to_list (SandboxPage.sandboxPos st) →
  code_safe (SandboxPage.sandboxPos st) →
  SandboxPage.importFENText receiver (SandboxEdit.exportFEN entries st)
  = {| SandboxPage.mode := sandbox;
       SandboxPage.fen := SandboxPage.fen receiver;
       SandboxPage.sandboxPos := SandboxPage.sandboxPos st;
       SandboxPage.turn := SandboxPage.turn st;
       SandboxPage.chessRef := SandboxPage.chessRef receiver |}.
Proof.
  intros Hmode Hperm Hsafe.
  destruct (sandbox_code_decodes _ (SandboxPage.turn st) entries Hperm Hsafe)
    as (Hstart & Hpieces & Hturn).
  unfold SandboxPage.importFENText, SandboxEdit.exportFEN.
  rewrite Hmode. cbv zeta. by rewrite Hstart, Hpieces, Hturn.
Qed.

(** A sandbox position, with its entries in an order that is not the order
    of the keys. *)
Definition sandbox_game : SandboxPage.Peer (O := six_field_oracle) :=
  {| SandboxPage.mode := sandbox; SandboxPage.fen := start_fen;
     SandboxPage.sandboxPos :=
       <["h8" := "bQ"]> (<["e4" := "wK"]> (<["a1" := "wR"]> ∅));
     SandboxPage.turn := black;
     SandboxPage.chessRef := chess_at start_fen |}.

Definition sandbox_game_entries : list (string * string) :=
  [("h8", "bQ"); ("a1", "wR"); ("e4", "wK")].

Lemma sandbox_game_entries_enumerate :
  sandbox_game_entries ≡ₚ map_to_list (SandboxPage.sandboxPos sandbox_game).
Proof.
  apply NoDup_Permutation.
  - unfold sandbox_game_entries. repeat constructor; compute_done.
  - apply NoDup_map_to_list.
  - intros [sq p]. rewrite elem_of_map_to_list.
    unfold sandbox_game_entries, sandbox_game.
    cbn [SandboxPage.sandboxPos]. split.
    + intros Hin.
      repeat (apply elem_of_cons in Hin as [[= -> ->] | Hin]; [done |]).
      by apply elem_of_nil in Hin.
    + intros Hl.
      destruct (decide (sq = "h8")) as [-> | ?].
      { rewrite lookup_insert_eq in Hl. injection Hl as <-.
        by repeat constructor. }
      rewrite lookup_insert_ne in Hl by done.
      destruct (decide (sq = "e4")) as [-> | ?].
      { rewrite lookup_insert_eq in Hl. injection Hl as <-.
        by repeat constructor. }
      rewrite lookup_insert_ne in Hl by done.
      destruct (decide (sq = "a1")) as [-> | ?].
      { rewrite lookup_insert_eq in Hl. injection Hl as <-.
        by repeat constructor. }
      rewrite lookup_insert_ne in Hl by done. done.
Qed.

Lemma X11_sandbox_code_round_trip_witness :
  SandboxEdit.exportFEN sandbox_game_entries sandbox_game
  = "SANDBOX:b:bQ:h8,wR:a1,wK:e4"
  ∧ SandboxPage.importFENText sandbox_page_start
      (SandboxEdit.exportFEN sandbox_game_entries sandbox_game)
    = {| SandboxPage.mode := sandbox;
         SandboxPage.fen := SandboxPage.fen sandbox_page_start;
         SandboxPage.sandboxPos := SandboxPage.sandboxPos sandbox_game;
         SandboxPage.turn := SandboxPage.turn sandbox_game;
         SandboxPage.chessRef := SandboxPage.chessRef sandbox_page_start |}.
Proof.
  split; [reflexivity |].
  apply (X11_sandbox_code_round_trip six_field_oracle sandbox_game
           sandbox_page_start sandbox_game_entries).
  - reflexivity.
  - exact sandbox_game_entries_enumerate.
  - compute_done.
Defined.

Lemma other_ne t : SandboxEdit.other t ≠ t.
Proof. by destruct t. Qed.

(** The state and the message of a drop that is carried out. *)
Lemma drop_success {O : Oracle} entries (st : SandboxPage.Peer (O := O))
    source target st1 msg :
  SandboxEdit.onPieceDropSandbox entries st source target
  = (true, st1, Some msg) →
  ∃ p, SandboxPage.sandboxPos st !! source = Some p ∧ p ≠ ""
       ∧ SandboxPage.sandboxPos st1
         = delete source (<[target := p]> (SandboxPage.sandboxPos st))
       ∧ SandboxPage.turn st1 = SandboxEdit.other (SandboxPage.turn st)
       ∧ p_fen msg = Some (SandboxEdit.exportFEN entries st).
Proof.
  unfold SandboxEdit.onPieceDropSandbox.
  destruct (SandboxPage.sandboxPos st !! source) as [p|] eqn:Hp;
    cbn [truthy negb tpl default id]; [| discriminate].
  case_bool_decide as Hne; cbn [negb]; [| discriminate].
  intros [= <- <-]. by exists p.
Qed.

(** X12. The code broadcast by a sandbox drop is the one of the position
    before the drop: [exportFEN()] reads the position and the turn of the
    render that created the handler, which the state setters leave as they
    are.  A peer whose handler takes the message holds the position and the
    turn the sender had before the drop, and both differ from the sender's
    new ones. *)
Theorem X12_drop_broadcasts_previous_position (O : Oracle)
    (st receiver : SandboxPage.Peer (O := O)) entries source target st1 msg :
  SandboxPage.mode st = sandbox →
  entries ≡ₚ map_to_list (SandboxPage.sandboxPos st) →
  code_safe (SandboxPage.sandboxPos st) →
  SandboxEdit.onPieceDropSandbox entries st source target
  = (true, st1, Some msg) →
  SandboxPage.sandboxPos (SandboxPage.on_move receiver msg)
  = SandboxPage.sandboxPos st
  ∧ SandboxPage.turn (SandboxPage.on_move receiver msg) = SandboxPage.turn st
  ∧ SandboxPage.sandboxPos (SandboxPage.on_move receiver msg)
    ≠ SandboxPage.sandboxPos st1
  ∧ SandboxPage.turn (SandboxPage.on_move receiver msg)
    ≠ SandboxPage.turn st1.
Proof.
  intros Hmode Hperm Hsafe Hdrop.
  destruct (drop_success _ _ _ _ _ _ Hdrop)
    as (p & Hp & Hne & Hpos1 & Hturn1 & Hfen).
  destruct (sandbox_code_decodes _ (SandboxPage.turn st) entries Hperm Hsafe)
    as (Hstart & Hpieces & Hturn).
  assert (SandboxPage.on_move receiver msg
          = {| SandboxPage.mode := sandbox;
               SandboxPage.fen := SandboxPage.fen receiver;
               SandboxPage.sandboxPos := SandboxPage.sandboxPos st;
               SandboxPage.turn := SandboxPage.turn st;
               SandboxPage.chessRef := SandboxPage.chessRef receiver |})
    as ->.
  { unfold SandboxPage.on_move, SandboxPage.importFENText. rewrite Hfen.
    unfold SandboxEdit.exportFEN. rewrite Hmode. cbv zeta.
    by rewrite Hstart, Hpieces, Hturn. }
  cbn [SandboxPage.sandboxPos SandboxPage.turn].
  split; [done |]. split; [done |]. split.
  - intros Heq. rewrite Hpos1 in Heq.
    assert (SandboxPage.sandboxPos st !! source = None) as Hnone
      by (rewrite Heq; apply lookup_delete_eq).
    congruence.
  - rewrite Hturn1. intros Heq. by apply (other_ne (SandboxPage.turn st)).
Qed.

(** The king of [sandbox_game] dropped from e4 on e5. *)
Definition sandbox_game_after : SandboxPage.Peer (O := six_field_oracle) :=
  {| SandboxPage.mode := sandbox; SandboxPage.fen := start_fen;
     SandboxPage.sandboxPos :=
       delete "e4" (<["e5" := "wK"]> (SandboxPage.sandboxPos sandbox_game));
     SandboxPage.turn := white;
     SandboxPage.chessRef := chess_at start_fen |}.

Definition sandbox_drop_msg : Payload :=
  {| p_from := "e4"; p_to := "e5"; p_san := "wK:e4-e5";
     p_fen := Some "SANDBOX:b:bQ:h8,wR:a1,wK:e4" |}.

Lemma X12_drop_broadcasts_previous_position_witness :
  SandboxEdit.onPieceDropSandbox sandbox_game_entries sandbox_game "e4" "e5"
  = (true, sandbox_game_after, Some sandbox_drop_msg)
  ∧ SandboxPage.sandboxPos (SandboxPage.on_move sandbox_page_start
                              sandbox_drop_msg)
    = SandboxPage.sandboxPos sandbox_game
  ∧ SandboxPage.turn (SandboxPage.on_move sandbox_page_start sandbox_drop_msg)
    = SandboxPage.turn sandbox_game
  ∧ SandboxPage.sandboxPos (SandboxPage.on_move sandbox_page_start
                              sandbox_drop_msg)
    ≠ SandboxPage.sandboxPos sandbox_game_after
  ∧ SandboxPage.turn (SandboxPage.on_move sandbox_page_start sandbox_drop_msg)
    ≠ SandboxPage.turn sandbox_game_after.
Proof.
  split; [reflexivity |].
  apply (X12_drop_broadcasts_previous_position six_field_oracle sandbox_game
           sandbox_page_start sandbox_game_entries "e4" "e5"
           sandbox_game_after sandbox_drop_msg).
  - reflexivity.
  - exact sandbox_game_entries_enumerate.
  - compute_done.
  - reflexivity.
Defined.

(** X13. A sandbox drop from an occupied square onto a square of the board
    is carried out, whatever stands on the target: afterwards the source
    square is empty, the target square, when it is another square, holds the
    piece, and every other square is as before.  No piece is ever added: the
    number of pieces is unchanged by a drop on an empty square and goes down
    by one when the target is occupied or is the source square itself. *)
Theorem X13_drop_moves_one_piece (O : Oracle)
    (st : SandboxPage.Peer (O := O)) entries source target p :
  source ∈ SQUARES → target ∈ SQUARES →
  SandboxPage.sandboxPos st !! source = Some p → p ≠ "" →
  ∃ st1 msg,
    SandboxEdit.onPieceDropSandbox entries st source target
    = (true, st1, Some msg)
    ∧ (∀ q, SandboxPage.sandboxPos st1 !! q
            = if decide (q = source) then None
              else if decide (q = target) then Some p
              else SandboxPage.sandboxPos st !! q)
    ∧ size (SandboxPage.sandboxPos st1)
      = (size (SandboxPage.sandboxPos st)
         - (if decide (source = target
                       ∨ is_Some (SandboxPage.sandboxPos st !! target))
            then 1 else 0))%nat.
Proof.
  intros _ _ Hp Hne. unfold SandboxEdit.onPieceDropSandbox. rewrite Hp.
  cbn [truthy negb tpl default id]. rewrite bool_decide_eq_true_2 by done.
  cbn [negb]. eexists _, _. split; [reflexivity |].
  cbn [SandboxPage.sandboxPos]. split.
  - intros q. destruct (decide (q = source)) as [-> | Hqs].
    + apply lookup_delete_eq.
    + rewrite lookup_delete_ne by done.
      destruct (decide (q = target)) as [-> | Hqt].
      * apply lookup_insert_eq.
      * by rewrite lookup_insert_ne.
  - assert (0 < size (SandboxPage.sandboxPos st))%nat as Hpos.
    { destruct (decide (size (SandboxPage.sandboxPos st) = 0%nat)) as [H0|];
        [| lia].
      apply map_size_empty_iff in H0. rewrite H0 in Hp.
      by rewrite lookup_empty in Hp. }
    destruct (decide (source = target)) as [<- | Hst].
    + rewrite decide_True by (by left).
      rewrite delete_insert_eq, map_size_delete_Some by done. lia.
    + rewrite map_size_delete_Some
        by (rewrite lookup_insert_ne by done; by rewrite Hp).
      rewrite map_size_insert.
      destruct (SandboxPage.sandboxPos st !! target) as [x|] eqn:Ht.
      * rewrite decide_True by (by right). cbn [id]. lia.
      * rewrite decide_False by (intros [? | [? ?]]; done). lia.
Qed.

Lemma X13_drop_moves_one_piece_witness :
  ∃ st1 msg,
    SandboxEdit.onPieceDropSandbox sandbox_game_entries sandbox_game
      "e4" "e4" = (true, st1, Some msg)
    ∧ (∀ q, SandboxPage.sandboxPos st1 !! q
            = if decide (q = "e4") then None
              else if decide (q = "e4") then Some "wK"
              else SandboxPage.sandboxPos sandbox_game !! q)
    ∧ size (SandboxPage.sandboxPos st1)
      = (size (SandboxPage.sandboxPos sandbox_game)
         - (if decide ("e4" = "e4"
                       ∨ is_Some (SandboxPage.sandboxPos sandbox_game !! "e4"))
            then 1 else 0))%nat.
Proof.
  apply (X13_drop_moves_one_piece six_field_oracle sandbox_game
           sandbox_game_entries "e4" "e4" "wK").
  - compute_done.
  - compute_done.
  - reflexivity.
  - discriminate.
Defined.

Lemma SQUARES_plain sq : sq ∈ SQUARES → plain sq ∧ sq ≠ "__proto__".
Proof.
  assert (Forall (fun sq => plain sq ∧ sq ≠ "__proto__") SQUARES) as Hall
    by compute_done.
  intros Hsq. by apply (proj1 (Forall_forall _ _) Hall).
Qed.

Lemma PIECES_plain p : p ∈ PIECES → plain p.
Proof. revert p. apply PIECES_cases; compute_done. Qed.

Lemma editor_form_code_safe obj : editor_form obj → code_safe obj.
Proof.
  intros Hed sq p Hp. destruct (Hed sq p Hp) as [Hsq Hpc].
  destruct (SQUARES_plain sq Hsq). split; [done |]. split; [| done].
  by apply PIECES_plain.
Qed.

(** X14. Editor form is an invariant of the sandbox: from a position whose
    keys are squares and whose values are palette pieces, a click on a square
    of the board with a palette piece or with none selected, and a drop from
    a square of the board on a square of the board, lead to such a position
    again; and such a position satisfies the condition under which its code
    round-trips. *)
Theorem X14_editor_form_is_kept (O : Oracle) (st : SandboxPage.Peer (O := O)) :
  editor_form (SandboxPage.sandboxPos st) →
  code_safe (SandboxPage.sandboxPos st)
  ∧ (∀ edit pal sq,
       sq ∈ SQUARES → (∀ p, pal = Some p → p ∈ PIECES) →
       editor_form
         (SandboxPage.sandboxPos (SandboxEdit.onSquareClick edit pal st sq)))
  ∧ (∀ entries source target,
       source ∈ SQUARES → target ∈ SQUARES →
       editor_form
         (SandboxPage.sandboxPos
            (SandboxEdit.onPieceDropSandbox entries st source target).1.2)).
Proof.
  intros Hed. split; [by apply editor_form_code_safe |]. split.
  - intros edit pal sq Hsq Hpal. unfold SandboxEdit.onSquareClick.
    destruct edit; cbn [negb]; [| done].
    assert (editor_form
              (if truthy pal
               then <[sq := tpl pal]> (SandboxPage.sandboxPos st)
               else delete sq (SandboxPage.sandboxPos st))) as Hnext.
    { destruct (truthy pal) eqn:Ht.
      - destruct pal as [p|]; [| done]. cbn [tpl default id].
        apply map_Forall_insert_2; [| done]. split; [done | by apply Hpal].
      - by apply map_Forall_delete. }
    by destruct (SandboxPage.mode st).
  - intros entries source target _ Htarget.
    unfold SandboxEdit.onPieceDropSandbox.
    destruct (SandboxPage.sandboxPos st !! source) as [p|] eqn:Hp;
      cbn [truthy negb]; [| done].
    case_bool_decide; cbn [negb fst snd SandboxPage.sandboxPos]; [| done].
    apply map_Forall_delete, map_Forall_insert_2; [| done].
    cbn [tpl default id]. split; [done |]. by destruct (Hed source p Hp).
Qed.

Lemma X14_editor_form_is_kept_witness :
  editor_form (SandboxPage.sandboxPos sandbox_game)
  ∧ code_safe (SandboxPage.sandboxPos sandbox_game)
  ∧ editor_form
      (SandboxPage.sandboxPos
         (SandboxEdit.onSquareClick true (Some "bN") sandbox_game "g8"))
  ∧ editor_form
      (SandboxPage.sandboxPos
         (SandboxEdit.onPieceDropSandbox sandbox_game_entries sandbox_game
            "a1" "a8").1.2).
Proof.
  assert (editor_form (SandboxPage.sandboxPos sandbox_game)) as Hed
    by compute_done.
  split; [exact Hed |].
  destruct (X14_editor_form_is_kept six_field_oracle sandbox_game Hed)
    as (Hsafe & Hclick & Hdrop).
  split; [exact Hsafe |]. split.
  - apply Hclick; [compute_done |]. intros p [= <-]. compute_done.
  - apply Hdrop; compute_done.
Defined.

(** X15. The handler of the page variant is idempotent: taking the same
    message twice leaves the peer as taking it once, for chess strings, for
    sandbox codes and for messages without a string. *)
Theorem X15_sandbox_handler_idempotent (O : Oracle)
    (st : SandboxPage.Peer (O := O)) (payload : Payload) :
  SandboxPage.on_move (SandboxPage.on_move st payload) payload
  = SandboxPage.on_move st payload.
Proof.
  unfold SandboxPage.on_move, SandboxPage.importFENText.
  destruct (p_fen payload) as [rf|]; [| done].
  destruct (startsWith "SANDBOX:" rf); [done |].
  by destruct (new_Chess rf) as [c|].
Qed.

(** * The editor of [pages/index.tsx] *)

Module Editor.
Section Editor.
Context {O : Oracle}.

(** The state of [Home] that the editor and the effect on [fen] read and
    write. *)
Record Home : Type :=
  { mode : Mode; fen : string; chessRef : Chess O;
    edit : bool; editPos : PosObj; editTurn : Turn;
    castleWK : bool; castleWQ : bool; castleBK : bool; castleBQ : bool;
    selectedPalette : option string; status : string; turn : Turn }.

(** [setStatus(msg)] alone. *)
Definition setStatus (st : Home) (msg : string) : Home :=
  {| mode := mode st; fen := fen st; chessRef := chessRef st;
     edit := edit st; editPos := editPos st; editTurn := editTurn st;
     castleWK := castleWK st; castleWQ := castleWQ st;
     castleBK := castleBK st; castleBQ := castleBQ st;
     selectedPalette := selectedPalette st; status := msg;
     turn := turn st |}.

(** [toggleEdit]; an exception of [fenToPosObj] leaves the handler before
    any setter is called. *)
Definition toggleEdit (st : Home) : Outcome Home :=
  if negb (edit st) then
    match fenToPosObj (fen st) with
    | Throw msg => Throw msg
    | Ret (Build_Decoded pos0 turn0 castle0) =>
        Ret {| mode := mode st; fen := fen st; chessRef := chessRef st;
               edit := negb (edit st); editPos := pos0; editTurn := turn0;
               castleWK := cK castle0; castleWQ := cQ castle0;
               castleBK := ck castle0; castleBQ := cq castle0;
               selectedPalette := selectedPalette st; status := status st;
               turn := turn st |}
    end
  else
    Ret {| mode := mode st; fen := fen st; chessRef := chessRef st;
           edit := negb (edit st); editPos := editPos st;
           editTurn := editTurn st;
           castleWK := castleWK st; castleWQ := castleWQ st;
           castleBK := castleBK st; castleBQ := castleBQ st;
           selectedPalette := selectedPalette st; status := status st;
           turn := turn st |}.

(** The flags object [{ K: castleWK, Q: castleWQ, k: castleBK, q: castleBQ }]. *)
Definition flags_of (st : Home) : CastlingFlags :=
  {| cK := castleWK st; cQ := castleWQ st;
     ck := castleBK st; cq := castleBQ st |}.

(** [commitEdit]: the state after the setters of the handler have run. *)
Definition commitEdit (st : Home) : Home :=
  match posObjToFen (editPos st) (editTurn st) (flags_of st) with
  | Build_FenResult f error =>
      if negb (truthy f)
      then setStatus st (if truthy error then tpl error
                         else "Could not build position.")
      else
        match new_Chess (tpl f) with
        | Some c =>
            {| mode := sandbox; fen := tpl f; chessRef := c;
               edit := false; editPos := editPos st; editTurn := editTurn st;
               castleWK := castleWK st; castleWQ := castleWQ st;
               castleBK := castleBK st; castleBQ := castleBQ st;
               selectedPalette := selectedPalette st; status := "";
               turn := turn st |}
        | None => setStatus st "Position rejected by engine."
        end
  end.

(** The effect [useEffect(..., [fen])], which runs after a render in which
    [fen] has changed: it reloads the engine and sets the turn and the
    status, and leaves [fen], the mode and the editor as they are. *)
Definition fen_effect (st : Home) : Home :=
  match new_Chess (fen st) with
  | Some c =>
      let p := current c in
      {| mode := mode st; fen := fen st; chessRef := c;
         edit := edit st; editPos := editPos st; editTurn := editTurn st;
         castleWK := castleWK st; castleWQ := castleWQ st;
         castleBK := castleBK st; castleBQ := castleBQ st;
         selectedPalette := selectedPalette st;
         status :=
           if isGameOver O p then
             if isCheckmate O p
             then "Checkmate. " +:+
                  (match turn_of O p with white => "Black" | black => "White" end)
                  +:+ " wins."
             else if isStalemate O p then "Stalemate." else "Game over."
           else "";
         turn := turn_of O p |}
  | None => setStatus st "Invalid FEN."
  end.

End Editor.
End Editor.

(** The messages of [posObjToFen] begin with a capital P or U. *)
Definition codec_message (e : string) : Prop :=
  ∃ rest, e = String "P" rest ∨ e = String "U" rest.

Lemma file_step_Return_msg obj r st f res :
  file_step obj r st f = Return res →
  ∃ e, res = {| fen := None; error := Some e |} ∧ codec_message e.
Proof.
  destruct st as [sc e]. unfold file_step.
  repeat case_match; intros [= <-]; eexists; (split; [reflexivity |]);
    eexists; [left | right]; reflexivity.
Qed.

Lemma scan_board_Return_msg obj res :
  scan_board obj = Return res →
  ∃ e, res = {| fen := None; error := Some e |} ∧ codec_message e.
Proof.
  unfold scan_board.
  intros (sc & r & _ & Hrank)%for_loop_Return_inv.
  unfold rank_step in Hrank.
  destruct (for_loop (seqZ 0 8) (file_step obj r) (sc, 0))
    as [[sc' e]|res'] eqn:Hrow; [done |].
  injection Hrank as ->.
  apply for_loop_Return_inv in Hrow as (st & f & _ & Hstep).
  by eapply file_step_Return_msg.
Qed.

(** What [posObjToFen] returns when it returns no string. *)
Lemma posObjToFen_failure obj t flags :
  fen (posObjToFen obj t flags) = None →
  ∃ e, posObjToFen obj t flags = {| fen := None; error := Some e |}
       ∧ codec_message e.
Proof.
  unfold posObjToFen.
  destruct (scan_board obj) as [sc|res] eqn:Hscan.
  - destruct (bool_decide (wK sc ≠ 1) || bool_decide (bK sc ≠ 1));
      [| discriminate].
    intros _. eexists. split; [reflexivity |]. eexists. left. reflexivity.
  - intros _. by apply (scan_board_Return_msg obj).
Qed.

(** What [posObjToFen] returns on an object whose board is accepted. *)
Lemma posObjToFen_success obj t flags :
  serialisable (clean obj) →
  ∃ s, posObjToFen obj t flags = {| fen := Some s; error := None |}
       ∧ s ≠ ""
       ∧ fenToPosObj s = Ret {| pos := clean obj; turn := t; castle := flags |}.
Proof.
  intros Hser.
  destruct (round_trip_serialisable (clean obj) t flags Hser)
    as (s & Henc & Hdec).
  rewrite <- (posObjToFen_view obj (clean obj) t flags (clean_same_board obj))
    in Henc.
  exists s. split; [done |]. split; [| done].
  intros ->.
  assert (fenToPosObj "" = Ret {| pos := ∅; turn := white;
                                  castle := no_rights |}) as Hempty
    by (by vm_compute).
  rewrite Hempty in Hdec. injection Hdec as Hpos _ _.
  destruct Hser as (_ & _ & _ & HwK & _). rewrite <- Hpos in HwK.
  by vm_compute in HwK.
Qed.

Lemma posObjToFen_fen_serialisable obj t flags s :
  fen (posObjToFen obj t flags) = Some s → serialisable (clean obj).
Proof.
  rewrite (posObjToFen_view obj (clean obj) t flags (clean_same_board obj)).
  apply posObjToFen_success_inv.
Qed.

Lemma commitEdit_success {O : Oracle} (st : Editor.Home (O := O)) s c :
  posObjToFen (Editor.editPos st) (Editor.editTurn st) (Editor.flags_of st)
  = {| fen := Some s; error := None |} →
  s ≠ "" → new_Chess s = Some c →
  Editor.commitEdit st
  = {| Editor.mode := sandbox; Editor.fen := s; Editor.chessRef := c;
       Editor.edit := false; Editor.editPos := Editor.editPos st;
       Editor.editTurn := Editor.editTurn st;
       Editor.castleWK := Editor.castleWK st;
       Editor.castleWQ := Editor.castleWQ st;
       Editor.castleBK := Editor.castleBK st;
       Editor.castleBQ := Editor.castleBQ st;
       Editor.selectedPalette := Editor.selectedPalette st;
       Editor.status := ""; Editor.turn := Editor.turn st |}.
Proof.
  intros Henc Hne Hnew. unfold Editor.commitEdit. rewrite Henc.
  cbn [truthy tpl default id]. rewrite bool_decide_eq_true_2 by done.
  cbn [negb]. by rewrite Hnew.
Qed.

Lemma fen_effect_keeps {O : Oracle} (st : Editor.Home (O := O)) :
  Editor.fen (Editor.fen_effect st) = Editor.fen st
  ∧ Editor.edit (Editor.fen_effect st) = Editor.edit st
  ∧ Editor.mode (Editor.fen_effect st) = Editor.mode st
  ∧ Editor.editPos (Editor.fen_effect st) = Editor.editPos st.
Proof. unfold Editor.fen_effect. by destruct (new_Chess (Editor.fen st)). Qed.

(** X16. Commit, then edit again.  When the board of the editor is accepted
    for serialisation and the engine accepts the string built from it,
    [commitEdit] stores that string, sets the mode to sandbox, leaves the
    editor and clears the status; the effect on [fen], which runs next and
    sets the status and the turn from the game, keeps the string and leaves
    the editor closed.  From then on, in whatever state the page is, as
    long as the game string is still the committed one (a move of a player
    or of the bot replaces it) and the editor is closed, [toggleEdit]
    reopens the editor on the committed board (without the entries that are
    not pieces on squares), side to move and castling flags, and committing
    again from there gives the same string. *)
Theorem X16_commit_then_reopen (O : Oracle) (st : Editor.Home (O := O)) :
  serialisable (clean (Editor.editPos st)) →
  (∀ s, fen (posObjToFen (Editor.editPos st) (Editor.editTurn st)
               (Editor.flags_of st)) = Some s → is_Some (load O s)) →
  ∃ s c,
    fen (posObjToFen (Editor.editPos st) (Editor.editTurn st)
           (Editor.flags_of st)) = Some s
    ∧ new_Chess s = Some c
    ∧ Editor.commitEdit st
      = {| Editor.mode := sandbox; Editor.fen := s; Editor.chessRef := c;
           Editor.edit := false; Editor.editPos := Editor.editPos st;
           Editor.editTurn := Editor.editTurn st;
           Editor.castleWK := Editor.castleWK st;
           Editor.castleWQ := Editor.castleWQ st;
           Editor.castleBK := Editor.castleBK st;
           Editor.castleBQ := Editor.castleBQ st;
           Editor.selectedPalette := Editor.selectedPalette st;
           Editor.status := ""; Editor.turn := Editor.turn st |}
    ∧ Editor.fen (Editor.fen_effect (Editor.commitEdit st)) = s
    ∧ Editor.edit (Editor.fen_effect (Editor.commitEdit st)) = false
    ∧ ∀ later : Editor.Home (O := O),
        Editor.fen later = s → Editor.edit later = false →
        ∃ st',
          Editor.toggleEdit later = Ret st'
          ∧ Editor.edit st' = true
          ∧ Editor.editPos st' = clean (Editor.editPos st)
          ∧ Editor.editTurn st' = Editor.editTurn st
          ∧ Editor.flags_of st' = Editor.flags_of st
          ∧ Editor.fen st' = s
          ∧ Editor.fen (Editor.commitEdit st') = s.
Proof.
  intros Hser Hengine.
  destruct (posObjToFen_success (Editor.editPos st) (Editor.editTurn st)
              (Editor.flags_of st) Hser) as (s & Henc & Hne & Hdec).
  destruct (Hengine s) as [p Hload]; [by rewrite Henc |].
  assert (new_Chess (O := O) s = Some {| current := p; history := [] |})
    as Hnew by (unfold new_Chess; by rewrite Hload).
  pose proof (commitEdit_success st s _ Henc Hne Hnew) as Hcommit.
  exists s, {| current := p; history := [] |}.
  split; [by rewrite Henc |]. split; [exact Hnew |].
  split; [exact Hcommit |].
  destruct (fen_effect_keeps (Editor.commitEdit st)) as (Hf & He & _ & _).
  rewrite Hf, He, Hcommit. cbn [Editor.fen Editor.edit].
  split; [done |]. split; [done |].
  intros later Hfen Hedit.
  eexists. split.
  { unfold Editor.toggleEdit. rewrite Hedit, Hfen. cbn [negb].
    rewrite Hdec. reflexivity. }
  cbn [Editor.edit Editor.editPos Editor.editTurn Editor.fen
       Editor.flags_of Editor.castleWK Editor.castleWQ Editor.castleBK
       Editor.castleBQ cK cQ ck cq].
  split; [done |]. split; [done |]. split; [done |]. split; [done |].
  split; [done |].
  erewrite commitEdit_success; [reflexivity | | exact Hne | exact Hnew].
  cbn [Editor.editPos Editor.editTurn Editor.flags_of Editor.castleWK
       Editor.castleWQ Editor.castleBK Editor.castleBQ cK cQ ck cq].
  rewrite <- Henc. symmetry. apply posObjToFen_view, clean_same_board.
Qed.

(** An editor on the position [ep_game] with a stray entry, white to move,
    no castling right. *)
Definition editor_game : Editor.Home (O := six_field_oracle) :=
  {| Editor.mode := strict; Editor.fen := start_fen;
     Editor.chessRef := chess_at start_fen;
     Editor.edit := true; Editor.editPos := <["z9" := "wQ"]> ep_game;
     Editor.editTurn := white;
     Editor.castleWK := false; Editor.castleWQ := false;
     Editor.castleBK := false; Editor.castleBQ := false;
     Editor.selectedPalette := None; Editor.status := "";
     Editor.turn := white |}.

Lemma X16_commit_then_reopen_witness :
  Editor.fen (Editor.commitEdit editor_game)
  = "4k3/8/8/3PpP2/8/8/8/4K3 w - e6 0 1"
  ∧ ∃ s c,
      fen (posObjToFen (Editor.editPos editor_game)
             (Editor.editTurn editor_game) (Editor.flags_of editor_game))
      = Some s
      ∧ new_Chess s = Some c
      ∧ Editor.commitEdit editor_game
        = {| Editor.mode := sandbox; Editor.fen := s; Editor.chessRef := c;
             Editor.edit := false;
             Editor.editPos := Editor.editPos editor_game;
             Editor.editTurn := Editor.editTurn editor_game;
             Editor.castleWK := Editor.castleWK editor_game;
             Editor.castleWQ := Editor.castleWQ editor_game;
             Editor.castleBK := Editor.castleBK editor_game;
             Editor.castleBQ := Editor.castleBQ editor_game;
             Editor.selectedPalette := Editor.selectedPalette editor_game;
             Editor.status := ""; Editor.turn := Editor.turn editor_game |}
      ∧ Editor.fen (Editor.fen_effect (Editor.commitEdit editor_game)) = s
      ∧ Editor.edit (Editor.fen_effect (Editor.commitEdit editor_game))
        = false
      ∧ ∀ later : Editor.Home (O := six_field_oracle),
          Editor.fen later = s → Editor.edit later = false →
          ∃ st',
            Editor.toggleEdit later = Ret st'
            ∧ Editor.edit st' = true
            ∧ Editor.editPos st' = clean (Editor.editPos editor_game)
            ∧ Editor.editTurn st' = Editor.editTurn editor_game
            ∧ Editor.flags_of st' = Editor.flags_of editor_game
            ∧ Editor.fen st' = s
            ∧ Editor.fen (Editor.commitEdit st') = s.
Proof.
  split; [by vm_compute |].
  apply (X16_commit_then_reopen six_field_oracle editor_game).
  - compute_done.
  - intros s Hs. vm_compute in Hs. injection Hs as <-.
    eexists. vm_compute. reflexivity.
Defined.

(** X17. A commit that fails changes nothing but the status: when the board
    of the editor, which holds no inherited name, is not accepted for
    serialisation, or the engine rejects the string built from it,
    [commitEdit] keeps the game string, the engine, the mode, the editor and
    its position as they are (so that no effect runs after it) and sets the
    status to a message, which is the message of the codec or the one of
    the engine and never the fallback text. *)
Theorem X17_failed_commit_keeps_game (O : Oracle) (st : Editor.Home (O := O)) :
  no_inherited_code (Editor.editPos st) →
  ¬ serialisable (clean (Editor.editPos st))
  ∨ (∃ s, fen (posObjToFen (Editor.editPos st) (Editor.editTurn st)
                 (Editor.flags_of st)) = Some s ∧ load O s = None) →
  ∃ msg,
    Editor.commitEdit st = Editor.setStatus st msg
    ∧ msg ≠ "" ∧ msg ≠ "Could not build position."
    ∧ (error (posObjToFen (Editor.editPos st) (Editor.editTurn st)
                (Editor.flags_of st)) = Some msg
       ∨ msg = "Position rejected by engine.").
Proof.
  intros _ [Hnot | (s & Hfen & Hload)].
  - destruct (fen (posObjToFen (Editor.editPos st) (Editor.editTurn st)
                     (Editor.flags_of st))) as [s|] eqn:Hfen.
    { exfalso. apply Hnot. by eapply posObjToFen_fen_serialisable. }
    destruct (posObjToFen_failure _ _ _ Hfen) as (e & Hres & rest & He).
    exists e. unfold Editor.commitEdit. rewrite Hres.
    cbn [truthy negb tpl default id error].
    assert (e ≠ "") as Hne by (by destruct He as [-> | ->]).
    rewrite bool_decide_eq_true_2 by done.
    split; [done |]. split; [done |].
    split; [by destruct He as [-> | ->] | by left].
  - pose proof (posObjToFen_fen_serialisable _ _ _ _ Hfen) as Hser.
    destruct (posObjToFen_success (Editor.editPos st) (Editor.editTurn st)
                (Editor.flags_of st) Hser) as (s' & Henc & Hne & _).
    rewrite Henc in Hfen. injection Hfen as ->.
    exists "Position rejected by engine.".
    unfold Editor.commitEdit. rewrite Henc.
    cbn [truthy negb tpl default id]. rewrite bool_decide_eq_true_2 by done.
    cbn [negb]. unfold new_Chess. rewrite Hload.
    split; [done |]. split; [done |]. split; [done | by right].
Qed.

(** An editor whose board has lost the black king. *)
Definition editor_one_king : Editor.Home (O := six_field_oracle) :=
  {| Editor.mode := strict; Editor.fen := start_fen;
     Editor.chessRef := chess_at start_fen;
     Editor.edit := true; Editor.editPos := <["e1" := "wK"]> ∅;
     Editor.editTurn := white;
     Editor.castleWK := false; Editor.castleWQ := false;
     Editor.castleBK := false; Editor.castleBQ := false;
     Editor.selectedPalette := None; Editor.status := "";
     Editor.turn := white |}.

Lemma X17_failed_commit_keeps_game_witness :
  Editor.commitEdit editor_one_king
  = Editor.setStatus editor_one_king
      "Place exactly one king per side (found W:1, B:0)."
  ∧ ∃ msg,
      Editor.commitEdit editor_one_king = Editor.setStatus editor_one_king msg
      ∧ msg ≠ "" ∧ msg ≠ "Could not build position."
      ∧ (error (posObjToFen (Editor.editPos editor_one_king)
                  (Editor.editTurn editor_one_king)
                  (Editor.flags_of editor_one_king)) = Some msg
         ∨ msg = "Position rejected by engine.").
Proof.
  split; [by vm_compute |].
  apply (X17_failed_commit_keeps_game six_field_oracle editor_one_king).
  - compute_done.
  - left. compute_done.
Defined.

(** * The shape of the placement field *)

(** The text of a run of [e] empty squares: [String(empty)], or nothing. *)
Definition run_string (e : Z) : string :=
  if bool_decide (e ≠ 0) then String_of_Z e else "".

(** A rank as [posObjToFen] writes it, from the symbols of its eight
    squares; [empty] is the run of empty squares not written yet. *)
Fixpoint encode_row (cells : list (option ascii)) (empty : Z) : string :=
  match cells with
  | [] => run_string empty
  | None :: cells' => encode_row cells' (empty + 1)
  | Some c :: cells' => run_string empty +:+ String c (encode_row cells' 0)
  end.

(** The symbol on file [f] of rank [r], when the square holds a piece. *)
Definition cell_char (obj : PosObj) (r f : Z) : option ascii :=
  symbol_char <$> obj !! square f r.

Definition row_cells (obj : PosObj) (r : Z) : list (option ascii) :=
  cell_char obj r <$> seqZ 0 8.

(** Number of squares that a rank of a placement covers: a digit counts for
    its value, any other character for one square. *)
Fixpoint rank_width (s : string) : Z :=
  match s with
  | EmptyString => 0
  | String c s' => (if is_digit c then parseInt c else 1) + rank_width s'
  end.

(** No two digits follow each other. *)
Fixpoint no_digit_pair (s : string) : bool :=
  match s with
  | String a (String b _ as s') =>
      negb (is_digit a && is_digit b) && no_digit_pair s'
  | _ => true
  end.

(** The characters of a rank: piece letters and the digits 1 to 8. *)
Definition rank_char (c : ascii) : bool :=
  bool_decide (String c EmptyString ∈ (default "" ∘ pieceToSymbol <$> PIECES))
  || (is_digit c && bool_decide (1 ≤ parseInt c ≤ 8)).

Fixpoint all_chars (P : ascii → bool) (s : string) : bool :=
  match s with
  | EmptyString => true
  | String c s' => P c && all_chars P s'
  end.

(** A rank of a placement in the form that strict parsers of the notation
    accept. *)
Definition rank_ok (row : string) : Prop :=
  rank_width row = 8 ∧ no_digit_pair row = true
  ∧ all_chars rank_char row = true.

Global Instance rank_ok_dec row : Decision (rank_ok row).
Proof. unfold rank_ok. apply _. Defined.

Lemma append_nil_r (s : string) : s +:+ "" = s.
Proof. induction s as [|c s IH]; simpl; [done | by rewrite IH]. Qed.

Lemma flush_empty_run pl e : flush_empty pl e = pl +:+ run_string e.
Proof.
  unfold flush_empty, run_string. case_bool_decide; [done |].
  by rewrite append_nil_r.
Qed.

Lemma run_string_cases e :
  0 ≤ e ≤ 8 →
  (e = 0 ∧ run_string e = "")
  ∨ ∃ c, run_string e = String c EmptyString
         ∧ is_digit c = true ∧ parseInt c = e ∧ c ≠ "/"%char ∧ 1 ≤ e.
Proof.
  intros He. unfold run_string. case_bool_decide as Hz.
  - right. destruct (digit_string e) as (c & Hc & Hs & _ & Hd & Hv); [lia |].
    exists c. repeat split; try done. lia.
  - left. split; [lia | done].
Qed.

(** The symbols of the palette pieces. *)
Definition piece_char (c : ascii) : Prop :=
  is_digit c = false ∧ c ≠ "/"%char ∧ rank_char c = true.

Lemma symbol_char_piece_char p : p ∈ PIECES → piece_char (symbol_char p).
Proof. revert p. apply PIECES_cases; by vm_compute. Qed.

Lemma no_digit_pair_piece x s :
  is_digit x = false → no_digit_pair (String x s) = no_digit_pair s.
Proof.
  intros Hx. destruct s as [|b s]; [done |].
  cbn [no_digit_pair]. by rewrite Hx.
Qed.

Lemma no_digit_pair_run c x s :
  is_digit x = false →
  no_digit_pair (String c (String x s)) = no_digit_pair s.
Proof.
  intros Hx. rewrite <- (no_digit_pair_piece x s Hx).
  cbn [no_digit_pair]. rewrite Hx. by rewrite andb_false_r.
Qed.

Lemma rank_char_digit c :
  is_digit c = true → 1 ≤ parseInt c ≤ 8 → rank_char c = true.
Proof.
  intros Hd Hv. unfold rank_char. rewrite Hd.
  rewrite (bool_decide_eq_true_2 (1 ≤ parseInt c ≤ 8)) by done.
  by rewrite orb_true_r.
Qed.

Lemma encode_row_shape cells e :
  0 ≤ e → e + Z.of_nat (length cells) ≤ 8 →
  Forall (fun c => ∀ x, c = Some x → piece_char x) cells →
  rank_width (encode_row cells e) = e + Z.of_nat (length cells)
  ∧ has_char "/" (encode_row cells e) = false
  ∧ no_digit_pair (encode_row cells e) = true
  ∧ all_chars rank_char (encode_row cells e) = true.
Proof.
  revert e. induction cells as [|[x|] cells IH]; intros e He Hlen Hall;
    cbn [encode_row length] in *.
  - destruct (run_string_cases e) as [[-> ->] | (c & -> & Hd & Hv & Hs & H1)];
      [lia | done |].
    cbn [rank_width has_char all_chars]. rewrite Hd.
    rewrite rank_char_digit by (done || lia).
    rewrite bool_decide_eq_false_2 by done.
    split; [lia | done].
  - apply Forall_cons in Hall as [Hx Hall].
    destruct (Hx x eq_refl) as (Hxd & Hxs & Hxr).
    destruct (IH 0 ltac:(lia) ltac:(lia) Hall) as (Hw & Hsl & Hnd & Hch).
    destruct (run_string_cases e) as [[-> ->] | (c & -> & Hd & Hv & Hs & H1)];
      [lia | |].
    + cbn [append]. rewrite no_digit_pair_piece by done.
      cbn [rank_width has_char all_chars]. rewrite Hxd, Hw, Hsl, Hxr, Hch.
      rewrite bool_decide_eq_false_2 by done.
      split; [lia | done].
    + cbn [append]. rewrite no_digit_pair_run by done.
      cbn [rank_width has_char all_chars].
      rewrite Hd, Hxd, Hw, Hsl, Hxr, Hch.
      rewrite rank_char_digit by (done || lia).
      rewrite !bool_decide_eq_false_2 by done.
      split; [lia | done].
  - apply Forall_cons in Hall as [_ Hall].
    destruct (IH (e + 1) ltac:(lia) ltac:(lia) Hall) as (Hw & Hsl & Hnd & Hch).
    split; [lia | done].
Qed.

(** The inner loop appends the text of the rank to the placement. *)
Lemma file_loop_row obj r fs sc e :
  (∀ f p, f ∈ fs → obj !! square f r = Some p →
          p ∈ PIECES ∧ back_rank r && is_pawn p = false) →
  ∃ sc' e',
    for_loop fs (file_step obj r) (sc, e) = Next (sc', e')
    ∧ placement sc' +:+ run_string e'
      = placement sc +:+ encode_row (cell_char obj r <$> fs) e.
Proof.
  revert sc e. induction fs as [|f fs IH]; intros sc e Hok.
  - exists sc, e. done.
  - cbn [for_loop fmap list_fmap encode_row]. unfold cell_char at 1.
    destruct (obj !! square f r) as [p|] eqn:Hp; cbn [fmap option_fmap option_map].
    + destruct (Hok f p ltac:(by left) Hp) as [Hpiece Hpawn].
      rewrite (file_step_piece obj r sc e f p Hp Hpiece), Hpawn.
      destruct (IH {| placement := flush_empty (placement sc) e
                                   +:+ String (symbol_char p) EmptyString;
                      wK := if bool_decide (p = "wK") then wK sc + 1
                            else wK sc;
                      bK := if bool_decide (p = "bK") then bK sc + 1
                            else bK sc |} 0)
        as (sc' & e' & Hloop & Heq).
      { intros f' p' Hf'. apply Hok. by right. }
      exists sc', e'. split; [done |]. rewrite Heq. cbn [placement].
      rewrite flush_empty_run, !app_assoc_s. done.
    + rewrite (file_step_empty obj r sc e f Hp).
      destruct (IH sc (e + 1)) as (sc' & e' & Hloop & Heq).
      { intros f' p' Hf'. apply Hok. by right. }
      by exists sc', e'.
Qed.

Lemma row_ok_files obj r :
  row_ok obj r →
  ∀ f p, f ∈ seqZ 0 8 → obj !! square f r = Some p →
         p ∈ PIECES ∧ back_rank r && is_pawn p = false.
Proof.
  intros Hok f p Hf Hp. apply (Hok (square f r)); [| done].
  unfold rank_squares. apply list_elem_of_fmap. by exists f.
Qed.

(** The outer loop appends the rank and, above rank 1, a slash. *)
Lemma rank_step_row obj r sc :
  row_ok obj r →
  ∃ sc', rank_step obj sc r = Next sc'
         ∧ placement sc'
           = placement sc +:+ encode_row (row_cells obj r) 0
             +:+ (if bool_decide (r ≠ 1) then "/" else "").
Proof.
  intros Hok.
  destruct (file_loop_row obj r (seqZ 0 8) sc 0 (row_ok_files obj r Hok))
    as (sc' & e' & Hloop & Heq).
  unfold rank_step. rewrite Hloop. eexists. split; [reflexivity |].
  cbn [placement]. rewrite flush_empty_run, Heq. unfold row_cells.
  case_bool_decide.
  - by rewrite app_assoc_s.
  - by rewrite !append_nil_r.
Qed.

Lemma row_cells_shape obj r :
  row_ok obj r →
  has_char "/" (encode_row (row_cells obj r) 0) = false
  ∧ rank_ok (encode_row (row_cells obj r) 0).
Proof.
  intros Hok.
  destruct (encode_row_shape (row_cells obj r) 0) as (Hw & Hs & Hnd & Hch).
  - lia.
  - unfold row_cells. rewrite length_fmap, length_seqZ. lia.
  - unfold row_cells. apply Forall_fmap, Forall_forall. intros f Hf x.
    unfold cell_char. cbn [compose].
    destruct (obj !! square f r) as [p|] eqn:Hp; [| done].
    intros [= <-]. apply symbol_char_piece_char.
    by destruct (row_ok_files obj r Hok f p Hf Hp).
  - split; [done |]. split; [| done].
    rewrite Hw. unfold row_cells. rewrite length_fmap, length_seqZ. lia.
Qed.

(** The placement of an acceptable board: its eight ranks, from rank 8 down
    to rank 1, joined by slashes. *)
Lemma scan_board_rows obj :
  board_ok obj →
  ∃ sc, scan_board obj = Next sc
        ∧ split "/" (placement sc)
          = (fun r => encode_row (row_cells obj r) 0) <$> RANKS.
Proof.
  intros Hok. unfold scan_board, RANKS. cbn [for_loop].
  set (sc0 := {| placement := ""; wK := 0; bK := 0 |}).
  destruct (rank_step_row obj 8 sc0 (Hok 8 ltac:(repeat constructor)))
    as (s8 & -> & E8).
  destruct (rank_step_row obj 7 s8 (Hok 7 ltac:(repeat constructor)))
    as (s7 & -> & E7).
  destruct (rank_step_row obj 6 s7 (Hok 6 ltac:(repeat constructor)))
    as (s6 & -> & E6).
  destruct (rank_step_row obj 5 s6 (Hok 5 ltac:(repeat constructor)))
    as (s5 & -> & E5).
  destruct (rank_step_row obj 4 s5 (Hok 4 ltac:(repeat constructor)))
    as (s4 & -> & E4).
  destruct (rank_step_row obj 3 s4 (Hok 3 ltac:(repeat constructor)))
    as (s3 & -> & E3).
  destruct (rank_step_row obj 2 s3 (Hok 2 ltac:(repeat constructor)))
    as (s2 & -> & E2).
  destruct (rank_step_row obj 1 s2 (Hok 1 ltac:(repeat constructor)))
    as (s1 & -> & E1).
  exists s1. split; [done |].
  rewrite E1, E2, E3, E4, E5, E6, E7, E8. subst sc0. cbn [placement].
  rewrite !bool_decide_eq_true_2 by done.
  rewrite bool_decide_eq_false_2 by (intros H; by apply H).
  rewrite append_nil_r, !app_assoc_s. cbn [append fmap list_fmap].
  pose proof (fun r Hr => proj1 (row_cells_shape obj r (Hok r Hr))) as Hs.
  change ("/" +:+ ?x) with (String "/" x).
  repeat (rewrite split_app_sep by (apply Hs; by repeat constructor);
          f_equal).
  apply split_no_sep, Hs. by repeat constructor.
Qed.

(** X18. The placement field is well formed: for an object whose board is
    accepted for serialisation, the first field of the string returned by
    [posObjToFen] is made of exactly eight ranks separated by slashes; each
    rank covers exactly eight squares, is written with piece letters and
    the digits 1 to 8 only, and never has two digits in a row. *)
Theorem X18_placement_well_formed obj t flags :
  serialisable (clean obj) →
  ∃ s pl,
    fen (posObjToFen obj t flags) = Some s
    ∧ split " " s !! 0%nat = Some pl
    ∧ length (split "/" pl) = 8%nat
    ∧ Forall rank_ok (split "/" pl).
Proof.
  intros Hser.
  rewrite (posObjToFen_view obj (clean obj) t flags (clean_same_board obj)).
  destruct Hser as (Hed & H1 & H8 & HwK & HbK).
  pose proof (editor_form_board_ok _ Hed H1 H8) as Hok.
  destruct (posObjToFen_fields (clean obj) t flags Hok HwK HbK)
    as (sc & s & Hscan & _ & Hfen & Hsplit).
  destruct (scan_board_rows (clean obj) Hok) as (sc' & Hscan' & Hrows).
  rewrite Hscan in Hscan'. injection Hscan' as <-.
  exists s, (placement sc). split; [by rewrite Hfen |].
  split; [by rewrite Hsplit |]. rewrite Hrows.
  split; [done |].
  apply Forall_fmap, Forall_forall. intros r Hr. cbn [compose].
  by apply row_cells_shape, Hok.
Qed.

Lemma X18_placement_well_formed_witness :
  fen (posObjToFen (<["z9" := "wQ"]> ep_game) white no_rights)
  = Some "4k3/8/8/3PpP2/8/8/8/4K3 w - e6 0 1"
  ∧ ∃ s pl,
      fen (posObjToFen (<["z9" := "wQ"]> ep_game) white no_rights) = Some s
      ∧ split " " s !! 0%nat = Some pl
      ∧ length (split "/" pl) = 8%nat
      ∧ Forall rank_ok (split "/" pl).
Proof.
  split; [by vm_compute |].
  apply (X18_placement_well_formed (<["z9" := "wQ"]> ep_game) white no_rights).
  compute_done.
Defined.

(** * The inputs on which the decoder returns *)

(** The characters that [fenToPosObj] accepts in a placement: the slash,
    the digits, and the twelve piece symbols. *)
Definition placement_char (ch : ascii) : bool :=
  bool_decide (ch = "/"%char) || is_digit ch
  || bool_decide (String ch EmptyString
                  ∈ (default "" ∘ pieceToSymbol <$> PIECES)).

Lemma symbolToPiece_defined sym :
  (∃ p, symbolToPiece sym = Ret p)
  ↔ sym ∈ (default "" ∘ pieceToSymbol <$> PIECES).
Proof.
  split.
  - intros [p Hp]. apply symbolToPiece_inv in Hp as [Hin Hsym].
    apply list_elem_of_fmap. exists p. split; [| done].
    cbn [compose]. by rewrite Hsym.
  - intros (p & Hsym & Hin)%list_elem_of_fmap. exists p.
    apply symbolToPiece_of_piece; [done |].
    cbn [compose] in Hsym. rewrite Hsym.
    by rewrite (pieceToSymbol_PIECES p Hin).
Qed.

Lemma dec_step_domain st ch :
  if placement_char ch then ∃ st', dec_step st ch = Ret st'
  else dec_step st ch = Throw "bad symbol".
Proof.
  destruct st as [[pos0 rank] file]. unfold placement_char, dec_step.
  case_bool_decide as Hslash; cbn [orb]; [by eexists |].
  destruct (is_digit ch); cbn [orb]; [by eexists |].
  case_bool_decide as Hsym.
  - apply symbolToPiece_defined in Hsym as [p ->]. by eexists.
  - destruct (symbolToPiece (String ch EmptyString)) as [p|e] eqn:Hp.
    + exfalso. apply Hsym. apply symbolToPiece_defined. by exists p.
    + by rewrite (symbolToPiece_throws _ _ Hp).
Qed.

Lemma dec_chars_domain s st :
  if all_chars placement_char s then ∃ st', dec_chars s st = Ret st'
  else dec_chars s st = Throw "bad symbol".
Proof.
  revert st. induction s as [|ch s IH]; intros st; cbn [all_chars dec_chars].
  - by exists st.
  - pose proof (dec_step_domain st ch) as Hstep.
    destruct (placement_char ch); cbn [andb].
    + destruct Hstep as [st' ->]. apply IH.
    + by rewrite Hstep.
Qed.

(** X19. The domain of the decoder: [fenToPosObj] returns exactly when every
    character of the first space-separated field is a slash, a digit or one
    of the twelve piece symbols; on every other string it throws
    'bad symbol'.  The number of fields, the length of the ranks and the
    other fields play no part. *)
Theorem X19_decoder_domain s :
  ∃ pl, split " " s !! 0%nat = Some pl
        ∧ if all_chars placement_char pl
          then ∃ d, fenToPosObj s = Ret d
          else fenToPosObj s = Throw "bad symbol".
Proof.
  unfold fenToPosObj.
  pose proof (split_nonempty " " s) as Hne.
  destruct (split " " s) as [|pl rest]; [done |].
  exists pl. split; [done |]. cbn [lookup list_lookup].
  pose proof (dec_chars_domain pl (∅, 8, 0)) as Hdec.
  destruct (all_chars placement_char pl).
  - destruct Hdec as [[[pos0 rank] file] ->]. by eexists.
  - by rewrite Hdec.
Qed.
